(** * Nebula Granulator: the audio engine, embedded and verified

    A shallow embedding of [AudioEngine] (the granular synthesis core):
    the tempo estimator [detectBPM], the orb registry [updateOrbs], the
    lookahead [scheduler] with its glitch state machine, and the grain
    synthesizer [scheduleGrain].

    Numbers.  A JavaScript number is modelled by its exact value.  The
    tempo estimator uses only field operations, comparisons and rounding,
    so it is embedded over the rationals [Q] and stays executable.  The
    scheduler and the grain synthesizer call [Math.sin], [Math.sqrt] and
    [Math.pow], so they are embedded over the real numbers [R].  Rounding
    error, NaN and the infinities of IEEE arithmetic are outside the model.

    Effects.  [Math.random()] is an oracle: a stream [nat -> R] read through
    a cursor kept in the world state.  The Web Audio graph is an output
    trace: every voice handed to [source.start] is appended to a list.
    [while] loops run on fuel; [None] means the fuel ran out. *)

From Stdlib Require Import ZArith QArith Qround Reals Psatz List Sorted.
From stdpp Require Import gmap strings.
Import ListNotations.

(* ===================================================================== *)
(** * Part I: definitions *)
(* ===================================================================== *)

(** ** Tempo estimator ([detectBPM]) *)

Module Tempo.

Local Open Scope Q_scope.

(** [a < b] on JavaScript numbers, as a boolean. *)
Definition Qltb (a b : Q) : bool :=
  match a ?= b with Lt => true | _ => false end.

(** [Math.round]: the nearest integer, ties towards plus infinity. *)
Definition js_round (x : Q) : Z := Qfloor (x + (1 # 2)).

Definition threshold : Q := 3 # 10.

Definition minDistance (sampleRate : Q) : Q := (1 # 4) * sampleRate.

(** The peak-picking loop: [i] is the index of the head of [data],
    [peaks] the array built so far (in push order). *)
Fixpoint find_peaks (sampleRate : Q) (data : list Q) (i : Z) (peaks : list Z)
  : list Z :=
  match data with
  | [] => peaks
  | x :: rest =>
      let peaks' :=
        if Qltb threshold x then
          match last peaks with
          | None => peaks ++ [i]
          | Some p =>
              if Qltb (minDistance sampleRate) (inject_Z (i - p))
              then peaks ++ [i] else peaks
          end
        else peaks in
      find_peaks sampleRate rest (i + 1)%Z peaks'
  end.

(** [intervals[i-1] = peaks[i] - peaks[i-1]] for [i = 1 .. length-1]. *)
Fixpoint intervals_of (peaks : list Z) : list Z :=
  match peaks with
  | p :: (q :: _) as rest => (q - p)%Z :: intervals_of rest
  | _ => []
  end.

(** The histogram object.  Its keys are non-negative integers, which
    [for (key in histogram)] enumerates in ascending numeric order, so the
    object is kept as an association list sorted by key. *)
Definition Histogram := list (Z * nat).

(** [histogram[key] = (histogram[key] || 0) + 1]. *)
Fixpoint hist_incr (key : Z) (h : Histogram) : Histogram :=
  match h with
  | [] => [(key, 1%nat)]
  | (k, c) :: rest =>
      if (key =? k)%Z then (k, S c) :: rest
      else if (key <? k)%Z then (key, 1%nat) :: h
      else (k, c) :: hist_incr key rest
  end.

(** [Math.round(interval / 1000) * 1000]. *)
Definition bucket (interval : Z) : Z :=
  (js_round (inject_Z interval / 1000) * 1000)%Z.

Definition build_histogram (intervals : list Z) : Histogram :=
  fold_left (fun h interval => hist_incr (bucket interval) h) intervals [].

(** The [for ... in] loop that keeps the first key with the largest count. *)
Definition pick_best (h : Histogram) (bestInterval : Z) : Z :=
  fst (fold_left
         (fun (acc : Z * nat) (kc : Z * nat) =>
            if (snd acc <? snd kc)%nat then kc else acc)
         h (bestInterval, 0%nat)).

(** [while (finalBpm < 70) finalBpm *= 2]. *)
Fixpoint double_until (fuel : nat) (finalBpm : Q) : option Q :=
  if Qltb finalBpm 70 then
    match fuel with
    | O => None
    | S fuel' => double_until fuel' (finalBpm * 2)
    end
  else Some finalBpm.

(** [while (finalBpm > 180) finalBpm /= 2]. *)
Fixpoint halve_until (fuel : nat) (finalBpm : Q) : option Q :=
  if Qltb 180 finalBpm then
    match fuel with
    | O => None
    | S fuel' => halve_until fuel' (finalBpm / 2)
    end
  else Some finalBpm.

(** What the offline render hands back: the low-passed channel data, or an
    exception (thrown by the [OfflineAudioContext] constructor, by a node
    constructor, or as a rejection of [startRendering]). *)
Inductive Rendering :=
| RenderThrows
| Rendered (data : list Q).

(** How the body of the [try] block ends. *)
Inductive Completion :=
| Return (v : Z)
| Throw.

(** The body of the [try] block. *)
Definition analyse (fuel : nat) (sampleRate : Q) (r : Rendering)
  : option Completion :=
  match r with
  | RenderThrows => Some Throw
  | Rendered data =>
      let peaks := find_peaks sampleRate data 0%Z [] in
      if (length peaks <? 2)%nat then Some (Return 120%Z)
      else
        let intervals := intervals_of peaks in
        let histogram := build_histogram intervals in
        let bestInterval := pick_best histogram (hd 0%Z intervals) in
        if (bestInterval =? 0)%Z then Some (Return 120%Z)
        else
          let bpm := 60 / (inject_Z bestInterval / sampleRate) in
          match double_until fuel bpm with
          | None => None
          | Some up =>
              match halve_until fuel up with
              | None => None
              | Some finalBpm =>
                  let rounded := js_round finalBpm in
                  Some (Return (if (rounded =? 0)%Z then 120%Z else rounded))
              end
          end
  end.

(** [detectBPM]: the [try] body, with [catch (e) { return 120 }]. *)
Definition detectBPM (fuel : nat) (sampleRate : Q) (r : Rendering)
  : option Z :=
  match analyse fuel sampleRate r with
  | None => None
  | Some (Return v) => Some v
  | Some Throw => Some 120%Z
  end.

End Tempo.

(** ** JavaScript number primitives over the reals *)

Module JS.

Local Open Scope R_scope.

Definition ltb (a b : R) : bool := if Rlt_dec a b then true else false.
Definition gtb (a b : R) : bool := ltb b a.

(** Truthiness of a number: everything but zero (NaN is outside the model). *)
Definition truthy (x : R) : bool := if Req_dec_T x 0 then false else true.

(** [x || d] on numbers. *)
Definition or_else (x d : R) : R := if truthy x then x else d.

(** [Math.sign]. *)
Definition sign (x : R) : R :=
  if Rlt_dec 0 x then 1 else if Rlt_dec x 0 then -1 else 0.

(** Truncation towards zero. *)
Definition trunc (x : R) : Z := if Rlt_dec x 0 then Zceil x else Zfloor x.

(** [a % b]: the remainder takes the sign of the dividend. *)
Definition rem (a b : R) : R := a - b * IZR (trunc (a / b)).

(** [Math.pow] for a positive base. *)
Definition pow (b e : R) : R := Rpower b e.

End JS.

(** ** The engine *)

Module Engine.

Local Open Scope R_scope.

Record GlobalParams := {
  chaos : R;
  space : R;
  outputGain : R;
  masterBpm : R;
  beatSync : bool
}.

Inductive LfoTarget :=
| LfoNone | LfoPosition | LfoGrainSize | LfoDensity | LfoPitch | LfoVolume.

(** [volume] may be [undefined] (the code checks for it). *)
Record GranularParams := {
  grainSize : R;
  grainDensity : R;
  position : R;
  randomPitch : R;
  lfoRate : R;
  lfoDepth : R;
  volume : option R;
  lfoTarget : LfoTarget
}.

(** Of an [AudioBuffer] the scheduler reads the duration only. *)
Record AudioBuffer := { duration : R }.

(** [name] and [visuals] are never read by the engine. *)
Record AudioOrb := {
  id : string;
  buffer : option AudioBuffer;
  params : GranularParams;
  detectedBpm : option R
}.

Inductive GlitchMode := NONE | STUTTER | REVERSE | PITCH_JUMP.

Record GlitchState := {
  active : bool;
  endTime : R;
  mode : GlitchMode;
  frozenOffset : R
}.

(** One grain voice as it reaches the audio graph: [source.start(time,
    offset)], [source.playbackRate.value], the envelope length and peak,
    the pan, and [source.stop]. *)
Record Voice := {
  v_orb : string;
  v_time : R;
  v_offset : R;
  v_playbackRate : R;
  v_grainSize : R;
  v_pan : R;
  v_peakGain : R;
  v_stop : R
}.

(** The mutable fields of [AudioEngine] the scheduler touches, together with
    the two pieces of the environment: [rng] counts the [Math.random()]
    draws made so far, [voices] lists the voices started so far (oldest
    first).  [orbs] is a [Map]: an association list in insertion order with
    unique keys. *)
Record Engine := {
  orbs : list (string * AudioOrb);
  globalParams : GlobalParams;
  glitchState : GlitchState;
  nextGrainTime : gmap string R;
  rng : nat;
  voices : list Voice
}.

Definition with_orbs (o : list (string * AudioOrb)) (w : Engine) : Engine :=
  {| orbs := o; globalParams := globalParams w; glitchState := glitchState w;
     nextGrainTime := nextGrainTime w; rng := rng w; voices := voices w |}.

Definition with_globalParams (p : GlobalParams) (w : Engine) : Engine :=
  {| orbs := orbs w; globalParams := p; glitchState := glitchState w;
     nextGrainTime := nextGrainTime w; rng := rng w; voices := voices w |}.

Definition with_glitchState (g : GlitchState) (w : Engine) : Engine :=
  {| orbs := orbs w; globalParams := globalParams w; glitchState := g;
     nextGrainTime := nextGrainTime w; rng := rng w; voices := voices w |}.

Definition with_nextGrainTime (m : gmap string R) (w : Engine) : Engine :=
  {| orbs := orbs w; globalParams := globalParams w;
     glitchState := glitchState w;
     nextGrainTime := m; rng := rng w; voices := voices w |}.

Definition with_rng (n : nat) (w : Engine) : Engine :=
  {| orbs := orbs w; globalParams := globalParams w;
     glitchState := glitchState w;
     nextGrainTime := nextGrainTime w; rng := n; voices := voices w |}.

Definition start_voice (v : Voice) (w : Engine) : Engine :=
  {| orbs := orbs w; globalParams := globalParams w;
     glitchState := glitchState w;
     nextGrainTime := nextGrainTime w; rng := rng w;
     voices := voices w ++ [v] |}.

(** The field initialisers of the class. *)
Definition initial : Engine :=
  {| orbs := [];
     globalParams := {| chaos := 0.0; space := 0.3; outputGain := 1.0;
                        masterBpm := 120; beatSync := false |};
     glitchState := {| active := false; endTime := 0; mode := NONE;
                       frozenOffset := -1 |};
     nextGrainTime := ∅;
     rng := 0;
     voices := [] |}.

Definition scheduleAheadTime : R := 0.1.

(** [Map.prototype.set]: an existing key keeps its place. *)
Fixpoint map_set (k : string) (v : AudioOrb) (m : list (string * AudioOrb))
  : list (string * AudioOrb) :=
  match m with
  | [] => [(k, v)]
  | (k', v') :: rest =>
      if String.eqb k k' then (k, v) :: rest
      else (k', v') :: map_set k v rest
  end.

(** [Map.prototype.get]. *)
Fixpoint map_get (k : string) (m : list (string * AudioOrb))
  : option AudioOrb :=
  match m with
  | [] => None
  | (k', v') :: rest => if String.eqb k k' then Some v' else map_get k rest
  end.

(** [updateOrbs]: [this.orbs.clear()], then one [set] per orb of the list. *)
Definition updateOrbs (orbsList : list AudioOrb) (w : Engine) : Engine :=
  with_orbs (fold_left (fun m orb => map_set (id orb) orb m) orbsList []) w.

(** [updateGlobalParams], as far as the engine state goes (the smoothed
    parameter changes of the mix graph are not modelled). *)
Definition updateGlobalParams (p : GlobalParams) (w : Engine) : Engine :=
  with_globalParams p w.

Section WithRandom.

(** The [n]-th value [Math.random()] returns. *)
Variable random : nat -> R.

Definition draw (w : Engine) : R * Engine :=
  (random (rng w), with_rng (S (rng w)) w).

(** *** Glitch state machine (the head of [scheduler]) *)

Definition glitch_enter (currentTime : R) (w : Engine) : Engine :=
  let (d, w1) := draw w in
  let duration := 0.1 + d * 0.2 in
  let (r, w2) := draw w1 in
  let m := if JS.ltb r 0.33 then STUTTER
           else if JS.ltb r 0.66 then REVERSE
           else PITCH_JUMP in
  with_glitchState
    {| active := true; endTime := currentTime + duration; mode := m;
       frozenOffset := -1 |} w2.

Definition glitch_trigger (currentTime : R) (w : Engine) : Engine :=
  if JS.gtb (chaos (globalParams w)) 0.05 then
    if negb (active (glitchState w)) then
      let (p, w0) := draw w in
      if JS.ltb p (chaos (globalParams w) * 0.05)
      then glitch_enter currentTime w0
      else w0
    else w
  else w.

Definition glitch_expire (currentTime : R) (w : Engine) : Engine :=
  let g := glitchState w in
  if active g && JS.gtb currentTime (endTime g) then
    with_glitchState
      {| active := false; endTime := endTime g; mode := NONE;
         frozenOffset := -1 |} w
  else w.

Definition glitch_tick (currentTime : R) (w : Engine) : Engine :=
  glitch_expire currentTime (glitch_trigger currentTime w).

Definition stuttering (w : Engine) : bool :=
  active (glitchState w) &&
  match mode (glitchState w) with STUTTER => true | _ => false end.

(** *** Grain synthesizer ([scheduleGrain]) *)

(** [while (ratio > 1.5) ratio /= 2]. *)
Fixpoint fold_down (fuel : nat) (ratio : R) : option R :=
  if JS.gtb ratio 1.5 then
    match fuel with
    | O => None
    | S fuel' => fold_down fuel' (ratio / 2)
    end
  else Some ratio.

(** [while (ratio < 0.75) ratio *= 2]. *)
Fixpoint fold_up (fuel : nat) (ratio : R) : option R :=
  if JS.ltb ratio 0.75 then
    match fuel with
    | O => None
    | S fuel' => fold_up fuel' (ratio * 2)
    end
  else Some ratio.

Definition fold_ratio (fuel : nat) (ratio : R) : option R :=
  match fold_down fuel ratio with
  | None => None
  | Some r => fold_up fuel r
  end.

(** The beat-sync factor multiplied into [playbackRate]; 1 stands for the
    skipped [if]. *)
Definition beat_ratio (fuel : nat) (g : GlobalParams) (orb : AudioOrb)
  : option R :=
  match detectedBpm orb with
  | Some dbpm =>
      if beatSync g && JS.truthy dbpm
      then fold_ratio fuel (masterBpm g / dbpm)
      else Some 1
  | None => Some 1
  end.

(** The two clamping statements at the end. *)
Definition clamp_rate (playbackRate : R) : R :=
  let r1 := if JS.ltb (Rabs playbackRate) 0.05
            then 0.05 * JS.sign playbackRate else playbackRate in
  if JS.gtb (Rabs r1) 4.0 then 4.0 * JS.sign r1 else r1.

(** [offset = offset % duration; if (offset < 0) offset += duration], for a
    buffer of non-zero duration. *)
Definition wrap_offset (offset dur : R) : R :=
  let o := JS.rem offset dur in
  if JS.ltb o 0 then o + dur else o.

Definition scheduleGrain (fuel : nat) (orb : AudioOrb) (time lfoVal : R)
    (w : Engine) : option Engine :=
  match buffer orb with
  | None => Some w
  | Some buf =>
      let p := params orb in
      let g := globalParams w in
      let position0 := position p in
      let grainSize0 := grainSize p in
      let volume0 := match volume p with Some v => v | None => 1.0 end in
      let playbackRate0 := 1.0 in
      (* LFO modulation *)
      let position1 :=
        match lfoTarget p with
        | LfoPosition => position0 + lfoVal * 0.5 | _ => position0 end in
      let grainSize1 :=
        match lfoTarget p with
        | LfoGrainSize => grainSize0 + lfoVal * 0.2 | _ => grainSize0 end in
      let volume1 :=
        match lfoTarget p with
        | LfoVolume => volume0 + lfoVal | _ => volume0 end in
      let playbackRate1 :=
        match lfoTarget p with
        | LfoPitch => playbackRate0 + lfoVal | _ => playbackRate0 end in
      (* beat sync: base pitch *)
      match beat_ratio fuel g orb with
      | None => None
      | Some ratio =>
          let playbackRate2 := playbackRate1 * ratio in
          (* glitch modifications *)
          let gs := glitchState w in
          let '(playbackRate3, grainSize2, w1) :=
            if active gs then
              match mode gs with
              | REVERSE => (playbackRate2 * -1, grainSize1, w)
              | PITCH_JUMP =>
                  let (r, w') := draw w in
                  let jump := if JS.gtb r 0.5 then 2.0 else 0.5 in
                  (playbackRate2 * jump, grainSize1, w')
              | STUTTER => (playbackRate2, 0.05, w)
              | NONE => (playbackRate2, grainSize1, w)
              end
            else (playbackRate2, grainSize1, w) in
          let dur := duration buf in
          (* scan position *)
          let offset0 := position1 * dur in
          let '(offset1, w2) :=
            if stuttering w1 then
              if JS.ltb (frozenOffset gs) 0 then
                (offset0,
                 with_glitchState
                   {| active := active gs; endTime := endTime gs;
                      mode := mode gs; frozenOffset := offset0 |} w1)
              else (frozenOffset gs, w1)
            else
              let (r, w') := draw w1 in
              let posJitter := (r - 0.5) * 0.05 in
              (offset0 + posJitter, w') in
          let offset2 := wrap_offset offset1 dur in
          let grainSize3 := Rmax 0.01 grainSize2 in
          (* space (stereo width) *)
          let (rp, w3) := draw w2 in
          let panAmount := (rp - 0.5) * 2 * space g in
          (* random pitch *)
          let (rc, w4) := draw w3 in
          let randomCents := (rc - 0.5) * randomPitch p * 2400 in
          let randomRateMult := JS.pow 2 (randomCents / 1200) in
          let playbackRate4 := playbackRate3 * randomRateMult in
          let playbackRate5 := clamp_rate playbackRate4 in
          let peakGain := Rmax 0 volume1 in
          Some (start_voice
                  {| v_orb := id orb; v_time := time; v_offset := offset2;
                     v_playbackRate := playbackRate5;
                     v_grainSize := grainSize3; v_pan := panAmount;
                     v_peakGain := peakGain;
                     v_stop := time + grainSize3 + 0.05 |} w4)
      end
  end.

(** *** Lookahead scheduler *)

Definition ratios : list R := [0.125; 0.25; 0.5; 1.0; 1.5; 2.0; 3.0; 4.0].

(** The search for the closest beat-related LFO frequency; [None] is the
    initial [minDist = Infinity]. *)
Definition snap_lfo (quarterNoteHz lfoFreq : R) : R :=
  fst (fold_left
         (fun (acc : R * option R) (r : R) =>
            let targetFreq := quarterNoteHz * r in
            let dist := Rabs (targetFreq - lfoFreq) in
            let closer := match snd acc with
                          | None => true
                          | Some minDist => JS.ltb dist minDist
                          end in
            if closer then (targetFreq, Some dist) else acc)
         ratios (lfoFreq, None)).

(** The LFO sample taken at [nextTime]. *)
Definition lfo_sample (g : GlobalParams) (p : GranularParams) (nextTime : R)
  : R :=
  let lfoFreq :=
    if beatSync g then
      let bpm := JS.or_else (masterBpm g) 120 in
      snap_lfo (bpm / 60) (lfoRate p)
    else lfoRate p in
  sin (nextTime * lfoFreq * 2 * PI) * lfoDepth p.

Definition subdivision_of (d : R) : R :=
  if JS.ltb d 0.25 then 1.0
  else if JS.ltb d 0.5 then 0.5
  else if JS.ltb d 0.75 then 0.25
  else 0.125.

(** The free-run interval before jitter, from the clamped density. *)
Definition free_run_interval (density : R) : R :=
  let minInterval := 0.01 in
  let maxInterval := 0.5 in
  maxInterval - sqrt density * (maxInterval - minInterval).

(** The next-time calculation: the amount added to [nextTime], and the
    world after the [Math.random()] draw (none is made while stuttering). *)
Definition advance (effectiveDensity : R) (w : Engine) : R * Engine :=
  let g := globalParams w in
  if stuttering w then (0.05, w)
  else if beatSync g then
    let bpm := JS.or_else (masterBpm g) 120 in
    let beatDur := 60 / bpm in
    let d := Rmax 0 (Rmin 1 effectiveDensity) in
    let interval := beatDur * subdivision_of d in
    let (r, w') := draw w in
    let humanJitter := (r - 0.5) * interval * 0.05 in
    (interval + humanJitter, w')
  else
    let density := Rmax 0.01 (Rmin 1.0 effectiveDensity) in
    let interval := free_run_interval density in
    let (r, w') := draw w in
    let jitter := (r - 0.5) * 0.01 in
    (Rmax 0.005 (interval + jitter), w').

(** One turn of the [while] loop: a grain at [nextTime], then the cursor
    advance. *)
Definition grain_step (fuel : nat) (orb : AudioOrb) (nextTime : R)
    (w : Engine) : option (R * Engine) :=
  let p := params orb in
  let lfoVal := lfo_sample (globalParams w) p nextTime in
  let effectiveDensity0 :=
    match lfoTarget p with
    | LfoDensity => grainDensity p + lfoVal
    | _ => grainDensity p
    end in
  let effectiveDensity := if stuttering w then 1.0 else effectiveDensity0 in
  match scheduleGrain fuel orb nextTime lfoVal w with
  | None => None
  | Some w1 =>
      let (step, w2) := advance effectiveDensity w1 in
      Some (nextTime + step, w2)
  end.

(** [while (nextTime < currentTime + this.scheduleAheadTime) { ... }];
    [inner] is the fuel handed to the loops of [scheduleGrain]. *)
Fixpoint grain_loop (inner fuel : nat) (currentTime : R) (orb : AudioOrb)
    (nextTime : R) (w : Engine) : option (R * Engine) :=
  if JS.ltb nextTime (currentTime + scheduleAheadTime) then
    match fuel with
    | O => None
    | S fuel' =>
        match grain_step inner orb nextTime w with
        | None => None
        | Some (nextTime', w') =>
            grain_loop inner fuel' currentTime orb nextTime' w'
        end
    end
  else Some (nextTime, w).

(** The callback of [this.orbs.forEach]. *)
Definition visit_orb (fuel : nat) (currentTime : R) (key : string)
    (orb : AudioOrb) (w : Engine) : option Engine :=
  let nextTime0 :=
    match nextGrainTime w !! key with
    | Some t => JS.or_else t currentTime
    | None => currentTime
    end in
  let nextTime1 :=
    if JS.ltb nextTime0 currentTime then currentTime else nextTime0 in
  match grain_loop fuel fuel currentTime orb nextTime1 w with
  | None => None
  | Some (nextTime, w') =>
      Some (with_nextGrainTime (<[key := nextTime]> (nextGrainTime w')) w')
  end.

Fixpoint forEach_orb (fuel : nat) (currentTime : R)
    (entries : list (string * AudioOrb)) (w : Engine) : option Engine :=
  match entries with
  | [] => Some w
  | (key, orb) :: rest =>
      match visit_orb fuel currentTime key orb w with
      | None => None
      | Some w' => forEach_orb fuel currentTime rest w'
      end
  end.

(** One scheduler tick at [ctx.currentTime = currentTime]. *)
Definition scheduler (fuel : nat) (currentTime : R) (w : Engine)
  : option Engine :=
  let w1 := glitch_tick currentTime w in
  forEach_orb fuel currentTime (orbs w1) w1.

(** *** The call surface, as a trace *)

(** What the outside does to an engine: the timer fires the scheduler at
    some [ctx.currentTime], or the application replaces the orbs or the
    global parameters. *)
Inductive Call :=
| Tick (currentTime : R)
| UpdateOrbs (orbsList : list AudioOrb)
| UpdateGlobalParams (p : GlobalParams).

Definition call (fuel : nat) (c : Call) (w : Engine) : option Engine :=
  match c with
  | Tick currentTime => scheduler fuel currentTime w
  | UpdateOrbs orbsList => Some (updateOrbs orbsList w)
  | UpdateGlobalParams p => Some (updateGlobalParams p w)
  end.

Fixpoint run (fuel : nat) (calls : list Call) (w : Engine) : option Engine :=
  match calls with
  | [] => Some w
  | c :: rest =>
      match call fuel c w with
      | None => None
      | Some w' => run fuel rest w'
      end
  end.

End WithRandom.

End Engine.

(** ** Vocabulary of the statements *)

Section TempoVocabulary.

Import Tempo.
Local Open Scope Q_scope.

(** The [n]-th power of two, as a rational. *)
Definition pow2 (n : nat) : Q := inject_Z (2 ^ Z.of_nat n).

(** Consecutive peaks are in strictly increasing position. *)
Definition positive_intervals (peaks : list Z) : Prop :=
  Forall (fun d => (0 < d)%Z) (intervals_of peaks).

(** No bucket of the histogram is negative. *)
Definition nonneg_keys (h : Histogram) : Prop :=
  Forall (fun kc : Z * nat => (0 <= fst kc)%Z) h.

End TempoVocabulary.

Section EngineVocabulary.

Import Engine.
Local Open Scope R_scope.

(** The glitch fields a grain never writes. *)
Definition same_burst (g g' : GlitchState) : Prop :=
  active g' = active g /\ mode g' = mode g /\ endTime g' = endTime g.

(** The scan position after the LFO, as [scheduleGrain] computes it. *)
Definition modulated_position (orb : AudioOrb) (lfoVal : R) : R :=
  match lfoTarget (params orb) with
  | LfoPosition => position (params orb) + lfoVal * 0.5
  | _ => position (params orb)
  end.

(** What the grain loop never writes: the orbs, the parameters, and the
    [active], [mode] and [endTime] fields of the glitch state; outside a
    STUTTER burst it writes no glitch field at all. *)
Definition grain_frame (w w' : Engine) : Prop :=
  orbs w' = orbs w /\ globalParams w' = globalParams w /\
  same_burst (glitchState w) (glitchState w') /\
  (stuttering w = false -> glitchState w' = glitchState w).

(** A call that is not a tick after [deadline]. *)
Definition not_after (deadline : R) (c : Call) : Prop :=
  match c with
  | Tick currentTime => currentTime <= deadline
  | _ => True
  end.

(** A call that keeps the chaos parameter at or below the threshold. *)
Definition keeps_quiet (c : Call) : Prop :=
  match c with
  | UpdateGlobalParams p => chaos p <= 0.05
  | _ => True
  end.

(** The smallest step the cursor can take under given parameters. *)
Definition min_step (g : GlobalParams) : R :=
  Rmin 0.005 (0.975 * (60 / masterBpm g * 0.125)).

(** The start times of the voices of orb [k], in scheduling order. *)
Definition orb_times (k : string) (vs : list Voice) : list R :=
  map v_time (List.filter (fun v => String.eqb (v_orb v) k) vs).

(** Strictly increasing, every element below all later ones. *)
Definition increasing (ts : list R) : Prop := StronglySorted Rlt ts.

(** The invariant that ties the voices to the cursor table: cursors are
    positive, every voice started lies before the cursor of its orb, and
    the voices of each orb are in strictly increasing time order. *)
Definition cursor_inv (w : Engine) : Prop :=
  (forall k c, nextGrainTime w !! k = Some c -> 0 < c) /\
  (forall v, In v (voices w) ->
             exists c, nextGrainTime w !! v_orb v = Some c /\ v_time v < c) /\
  (forall k, increasing (orb_times k (voices w))).

(** Every orb is filed under its own id. *)
Definition keyed_by_id (entries : list (string * AudioOrb)) : Prop :=
  Forall (fun e : string * AudioOrb => id (snd e) = fst e) entries.

(** What the environment guarantees of a call: [ctx.currentTime] is never
    negative, and the master tempo handed over is positive. *)
Definition well_timed (c : Call) : Prop :=
  match c with
  | Tick currentTime => 0 <= currentTime
  | UpdateGlobalParams p => 0 < masterBpm p
  | UpdateOrbs _ => True
  end.

(** What every engine reached by a well-timed trace satisfies. *)
Definition run_inv (w : Engine) : Prop :=
  0 < masterBpm (globalParams w) /\ keyed_by_id (orbs w) /\ cursor_inv w.

(** A detected tempo, when there is one, is not negative. *)
Definition tempo_ok (orb : AudioOrb) : Prop :=
  forall d, detectedBpm orb = Some d -> 0 <= d.

(** The orbs handed to [updateOrbs] have non-negative tempos. *)
Definition tempos_known (c : Call) : Prop :=
  match c with
  | UpdateOrbs orbsList => Forall tempo_ok orbsList
  | _ => True
  end.

(** The cursor table holds an entry for exactly the registered orbs. *)
Definition cursors_reconciled (w : Engine) : Prop :=
  forall k, is_Some (nextGrainTime w !! k) <-> is_Some (map_get k (orbs w)).

(** The orb filed under [k] after [updateOrbs]: the last one of the list
    with that id. *)
Definition last_with_id (k : string) (orbsList : list AudioOrb)
  : option AudioOrb :=
  fold_left (fun acc orb => if String.eqb k (id orb) then Some orb else acc)
    orbsList None.

End EngineVocabulary.

(** ** Sample inputs *)

Section TempoSamples.

Local Open Scope Q_scope.

(** A click track: a click every 3000 samples. *)
Definition click_track : list Q :=
  1 :: repeat 0 2999 ++ 1 :: repeat 0 2999 ++ [1].

End TempoSamples.

Section Samples.

Import Engine.
Local Open Scope R_scope.

(** [DEFAULT_GRANULAR_PARAMS]. *)
Definition default_params : GranularParams :=
  {| grainSize := 0.1; grainDensity := 0.5; position := 0;
     randomPitch := 0.2; lfoRate := 0.5; lfoDepth := 0.0;
     volume := Some 1.0; lfoTarget := LfoNone |}.

(** The initial global parameters with beat-sync switched on. *)
Definition synced_params : GlobalParams :=
  {| chaos := 0.0; space := 0.3; outputGain := 1.0; masterBpm := 120;
     beatSync := true |}.

(** An orb whose detected tempo is 70. *)
Definition slow_orb : AudioOrb :=
  {| id := "slow"; buffer := Some {| duration := 4 |};
     params := default_params; detectedBpm := Some 70 |}.

(** An orb whose LFO modulates the pitch at full depth. *)
Definition wobble_orb : AudioOrb :=
  {| id := "wobble"; buffer := Some {| duration := 4 |};
     params := {| grainSize := 0.1; grainDensity := 0.5; position := 0;
                  randomPitch := 0.2; lfoRate := 0.5; lfoDepth := 1.0;
                  volume := Some 1.0; lfoTarget := LfoPitch |};
     detectedBpm := Some 120 |}.

(** An orb whose LFO (5 Hz, depth 0.5) modulates the scan position. *)
Definition scan_orb : AudioOrb :=
  {| id := "scan"; buffer := Some {| duration := 4 |};
     params := {| grainSize := 0.1; grainDensity := 0.5; position := 0;
                  randomPitch := 0.2; lfoRate := 5; lfoDepth := 0.5;
                  volume := Some 1.0; lfoTarget := LfoPosition |};
     detectedBpm := Some 120 |}.

(** Global parameters with the chaos control fully up. *)
Definition burst_params : GlobalParams :=
  {| chaos := 1; space := 0.3; outputGain := 1.0; masterBpm := 120;
     beatSync := false |}.

(** A [Math.random()] that keeps returning 0. *)
Definition zero_random (n : nat) : R := 0.

(** The engine with that orb registered, before any tick. *)
Definition idle_world : Engine :=
  updateGlobalParams burst_params (updateOrbs [scan_orb] initial).

(** The engine during the STUTTER burst entered at 0.15 s. *)
Definition burst_world (frozen : R) (cursors : gmap string R) (n : nat)
    (vs : list Voice) : Engine :=
  {| orbs := [("scan"%string, scan_orb)]; globalParams := burst_params;
     glitchState := {| active := true; endTime := 0.15 + (0.1 + 0 * 0.2);
                       mode := STUTTER; frozenOffset := frozen |};
     nextGrainTime := cursors; rng := n; voices := vs |}.

(** A voice of the scanning orb during the burst. *)
Definition stutter_voice (time offset : R) : Voice :=
  {| v_orb := "scan"; v_time := time; v_offset := offset;
     v_playbackRate :=
       clamp_rate (1.0 * 1 * JS.pow 2 ((0 - 0.5) * 0.2 * 2400 / 1200));
     v_grainSize := Rmax 0.01 0.05; v_pan := (0 - 0.5) * 2 * 0.3;
     v_peakGain := Rmax 0 1.0; v_stop := time + Rmax 0.01 0.05 + 0.05 |}.

(** An orb with the default parameters of the application. *)
Definition pad_orb : AudioOrb :=
  {| id := "pad"; buffer := Some {| duration := 4 |};
     params := default_params; detectedBpm := Some 120 |}.

(** The initial engine with that orb registered. *)
Definition pad_world : Engine := updateOrbs [pad_orb] initial.

(** The free-run step of that orb when [Math.random()] returns 0. *)
Definition pad_step : R :=
  Rmax 0.005
    (free_run_interval (Rmax 0.01 (Rmin 1.0 0.5)) + (0 - 0.5) * 0.01).

(** The one voice of that orb a tick at time 0 starts. *)
Definition pad_voice : Voice :=
  {| v_orb := "pad"; v_time := 0;
     v_offset := wrap_offset (0 * 4 + (0 - 0.5) * 0.05) 4;
     v_playbackRate :=
       clamp_rate (1.0 * 1 * JS.pow 2 ((0 - 0.5) * 0.2 * 2400 / 1200));
     v_grainSize := Rmax 0.01 0.1; v_pan := (0 - 0.5) * 2 * 0.3;
     v_peakGain := Rmax 0 1.0; v_stop := 0 + Rmax 0.01 0.1 + 0.05 |}.

(** The engine after one tick at time 0. *)
Definition pad_world_after : Engine :=
  {| orbs := [("pad"%string, pad_orb)];
     globalParams := globalParams initial;
     glitchState := glitchState initial;
     nextGrainTime := {[ "pad"%string := 0 + pad_step ]};
     rng := 4;
     voices := [pad_voice] |}.

End Samples.

(** ** Further vocabulary and samples *)

Section GrainVocabulary.

Import Engine.
Local Open Scope R_scope.

(** The playback rate after the LFO, before beat sync. *)
Definition modulated_rate (orb : AudioOrb) (lfoVal : R) : R :=
  match lfoTarget (params orb) with
  | LfoPitch => 1.0 + lfoVal
  | _ => 1.0
  end.

(** The grain size after the LFO, before the glitch override. *)
Definition modulated_size (orb : AudioOrb) (lfoVal : R) : R :=
  match lfoTarget (params orb) with
  | LfoGrainSize => grainSize (params orb) + lfoVal * 0.2
  | _ => grainSize (params orb)
  end.

(** The volume after the LFO. *)
Definition modulated_volume (orb : AudioOrb) (lfoVal : R) : R :=
  let volume0 := match volume (params orb) with
                 | Some v => v
                 | None => 1.0
                 end in
  match lfoTarget (params orb) with
  | LfoVolume => volume0 + lfoVal
  | _ => volume0
  end.

(** A REVERSE burst is running. *)
Definition reversing (w : Engine) : bool :=
  active (glitchState w) &&
  match mode (glitchState w) with REVERSE => true | _ => false end.

(** The engine after the one grain of the default orb. *)
Definition pad_grain_world : Engine :=
  start_voice pad_voice (with_rng 3 (with_rng 2 (with_rng 1 initial))).

(** The glitch fields agree with each other: an idle machine is in NONE
    with an unset [frozenOffset], an active one is in one of the three
    active modes, and only a STUTTER burst ever holds a frozen offset. *)
Definition glitch_consistent (g : GlitchState) : Prop :=
  (active g = false -> mode g = NONE /\ frozenOffset g = -1) /\
  (active g = true -> mode g <> NONE) /\
  (mode g <> STUTTER -> frozenOffset g = -1).

(** The least amount one turn of the grain loop moves the cursor: the
    fixed 50 ms of a STUTTER burst, else [min_step]. *)
Definition stride (w : Engine) : R :=
  if stuttering w then 0.05 else min_step (globalParams w).

(** A voice of one of the registered orbs that starts inside the lookahead
    window of the tick at [currentTime]. *)
Definition in_window (currentTime : R) (entries : list (string * AudioOrb))
    (v : Voice) : Prop :=
  currentTime <= v_time v < currentTime + scheduleAheadTime /\
  exists key orb, In (key, orb) entries /\ v_orb v = id orb.

(** A 50 ms voice of one of the registered orbs that reads its buffer from
    the offset [frozen], wrapped into the buffer. *)
Definition repeats_frozen (frozen : R) (entries : list (string * AudioOrb))
    (v : Voice) : Prop :=
  exists key orb buf,
    In (key, orb) entries /\ buffer orb = Some buf /\ v_orb v = id orb /\
    v_offset v = wrap_offset frozen (duration buf) /\ v_grainSize v = 0.05.

(** The engine after the first tick of the sample burst, and after a
    second tick at 0.2 s. *)
Definition burst_world_after : Engine :=
  burst_world 0 {[ "scan"%string := 0.15 + 0.05 + 0.05 ]} 7
    [stutter_voice 0.15 3; stutter_voice (0.15 + 0.05) 0].

Definition burst_world_later : Engine :=
  burst_world 0 {[ "scan"%string := 0.15 + 0.05 + 0.05 + 0.05 ]} 9
    [stutter_voice 0.15 3; stutter_voice (0.15 + 0.05) 0;
     stutter_voice (0.15 + 0.05 + 0.05) 0].

End GrainVocabulary.

(** ** Further vocabulary of the tempo estimator *)

Section PeakVocabulary.

Import Tempo.
Local Open Scope Q_scope.

(** The number of intervals that round to the bucket [k]. *)
Definition count_bucket (k : Z) (intervals : list Z) : nat :=
  length (List.filter (fun d => (bucket d =? k)%Z) intervals).

(** [histogram[k] || 0]. *)
Fixpoint hist_get (k : Z) (h : Histogram) : nat :=
  match h with
  | [] => 0%nat
  | (k', c) :: rest => if (k =? k')%Z then c else hist_get k rest
  end.

(** The keys of a histogram in strictly ascending order. *)
Definition ascending_keys (h : Histogram) : Prop :=
  StronglySorted Z.lt (map fst h).

(** The interval [detectBPM] settles on, and the tempo it computes from it
    before the octave loops. *)
Definition best_interval (sampleRate : Q) (data : list Q) : Z :=
  let intervals := intervals_of (find_peaks sampleRate data 0%Z []) in
  pick_best (build_histogram intervals) (hd 0%Z intervals).

Definition raw_bpm (sampleRate : Q) (data : list Q) : Q :=
  60 / (inject_Z (best_interval sampleRate data) / sampleRate).

(** What the peak loop has established after the samples [seen]. *)
Definition peaks_of (sampleRate : Q) (seen : list Q) (peaks : list Z)
  : Prop :=
  Forall (fun p => (0 <= p < Z.of_nat (length seen))%Z /\
                   exists x, nth_error seen (Z.to_nat p) = Some x /\
                             threshold < x) peaks /\
  Forall (fun d => minDistance sampleRate < inject_Z d) (intervals_of peaks) /\
  (peaks = [] <-> Forall (fun x => x <= threshold) seen).

End PeakVocabulary.

(** ** The grain envelope and the mix targets *)

Module Mix.

Import Engine.
Local Open Scope R_scope.

(** The body of the constructor's loop: sample [i] of the Hanning
    window. *)
Definition hanning_sample (i : nat) : R :=
  0.5 * (1 - cos (2 * PI * INR i / 1023)).

(** [hanningCurve], 1024 samples. *)
Definition hanningCurve : list R := map hanning_sample (seq 0 1024).

(** The copy [scheduleGrain] scales by the peak gain of the grain and hands
    to [setValueCurveAtTime]. *)
Definition scaledCurve (peakGain : R) : list R :=
  map (fun h => h * peakGain) hanningCurve.

(** [createDelay(5.0)]: the longest delay the delay line holds. *)
Definition maxDelayTime : R := 5.0.

(** The values [updateGlobalParams] hands to [setTargetAtTime]. *)
Record MixTargets := {
  masterGain_gain : R;
  delayNode_delayTime : R;
  delaySend_gain : R;
  feedbackGain_gain : R
}.

Definition mix_targets (params : GlobalParams) : MixTargets :=
  let delayTime :=
    if beatSync params then
      let beatDur := 60 / masterBpm params in
      beatDur * 0.75
    else 0.5 in
  let fb := Rmin 0.7 (space params * 0.8) in
  {| masterGain_gain := outputGain params;
     delayNode_delayTime := delayTime;
     delaySend_gain := space params;
     feedbackGain_gain := fb |}.

End Mix.

(** ** The controls of the application *)

Module Controls.

Import Engine.
Local Open Scope R_scope.

(** [handlePointerMove] of a knob while dragging: the value handed to
    [onChange], from the value at pointer-down and the vertical distance
    dragged. *)
Definition knob_value (min max startVal deltaY : R) : R :=
  let sensitivity := 0.01 in
  let range := max - min in
  let newValue := startVal + deltaY * sensitivity * range in
  Rmax min (Rmin max newValue).

(** What [Number(text)] can be. *)
Inductive JsNumber :=
| JsNaN
| JsInfinity (positive : bool)
| JsFinite (x : R).

(** [Math.round] of a finite number. *)
Definition round (x : R) : R := IZR (Zfloor (x + 0.5)).

Definition with_masterBpm (val : R) (p : GlobalParams) : GlobalParams :=
  {| chaos := chaos p; space := space p; outputGain := outputGain p;
     masterBpm := val; beatSync := beatSync p |}.

(** [commitBpm]: the global parameters after the tempo field is committed
    with [Number(bpmInputValue) = parsed]. *)
Definition commitBpm (parsed : JsNumber) (globalParams : GlobalParams)
  : GlobalParams :=
  match parsed with
  | JsNaN => globalParams
  | JsInfinity false => with_masterBpm 10 globalParams
  | JsInfinity true => with_masterBpm 999 globalParams
  | JsFinite x =>
      let val := round x in
      let val := if JS.ltb val 10 then 10 else val in
      let val := if JS.gtb val 999 then 999 else val in
      with_masterBpm val globalParams
  end.

(** The handlers that write the global parameters. *)
Inductive Gesture :=
| CommitBpm (parsed : JsNumber)
| ToggleBeatSync
| TurnChaos (startVal deltaY : R)
| TurnSpace (startVal deltaY : R)
| TurnOutputGain (startVal deltaY : R).

Definition gesture (g : Gesture) (p : GlobalParams) : GlobalParams :=
  match g with
  | CommitBpm parsed => commitBpm parsed p
  | ToggleBeatSync =>
      {| chaos := chaos p; space := space p; outputGain := outputGain p;
         masterBpm := masterBpm p; beatSync := negb (beatSync p) |}
  | TurnChaos startVal deltaY =>
      {| chaos := knob_value 0 1 startVal deltaY; space := space p;
         outputGain := outputGain p; masterBpm := masterBpm p;
         beatSync := beatSync p |}
  | TurnSpace startVal deltaY =>
      {| chaos := chaos p; space := knob_value 0 1 startVal deltaY;
         outputGain := outputGain p; masterBpm := masterBpm p;
         beatSync := beatSync p |}
  | TurnOutputGain startVal deltaY =>
      {| chaos := chaos p; space := space p;
         outputGain := knob_value 0 2.0 startVal deltaY;
         masterBpm := masterBpm p; beatSync := beatSync p |}
  end.

(** The initial [globalParams] state of the application. *)
Definition app_params : GlobalParams :=
  {| chaos := 0.0; space := 0.3; outputGain := 1.0; masterBpm := 120;
     beatSync := false |}.

Definition gestures (gs : list Gesture) : GlobalParams :=
  fold_left (fun p g => gesture g p) gs app_params.

(** [{ ...o.params, [param]: value }], one constructor per key. *)
Inductive ParamEdit :=
| EditVolume (value : R)
| EditPosition (value : R)
| EditGrainSize (value : R)
| EditGrainDensity (value : R)
| EditRandomPitch (value : R)
| EditLfoRate (value : R)
| EditLfoDepth (value : R)
| EditLfoTarget (value : LfoTarget).

Definition edit_params (e : ParamEdit) (p : GranularParams) : GranularParams :=
  {| grainSize := match e with EditGrainSize v => v | _ => grainSize p end;
     grainDensity :=
       match e with EditGrainDensity v => v | _ => grainDensity p end;
     position := match e with EditPosition v => v | _ => position p end;
     randomPitch :=
       match e with EditRandomPitch v => v | _ => randomPitch p end;
     lfoRate := match e with EditLfoRate v => v | _ => lfoRate p end;
     lfoDepth := match e with EditLfoDepth v => v | _ => lfoDepth p end;
     volume := match e with EditVolume v => Some v | _ => volume p end;
     lfoTarget := match e with EditLfoTarget v => v | _ => lfoTarget p end |}.

(** [updateParam] of the advanced view, on the orb list. *)
Definition updateParam (i : string) (e : ParamEdit) (prev : list AudioOrb)
  : list AudioOrb :=
  map (fun o =>
         if String.eqb (id o) i then
           {| id := id o; buffer := buffer o;
              params := edit_params e (params o);
              detectedBpm := detectedBpm o |}
         else o)
    prev.

(** The orb an upload or a drop creates from a decoded buffer and the
    tempo [detectBPM] returned for it. *)
Definition newOrb (i : string) (buf : AudioBuffer) (bpm : Z) : AudioOrb :=
  {| id := i; buffer := Some buf; params := default_params;
     detectedBpm := Some (IZR bpm) |}.

(** The ranges the controls keep the global parameters in. *)
Definition ui_range (p : GlobalParams) : Prop :=
  0 <= chaos p <= 1 /\ 0 <= space p <= 1 /\ 0 <= outputGain p <= 2 /\
  exists n : Z, (10 <= n <= 999)%Z /\ masterBpm p = IZR n.

End Controls.

(** ** Starting the scheduler *)

Module Transport.

(** The two fields [resume] and [startScheduler] work on, and the part of
    the window they act on: [timers] lists the interval timers that are
    set and not cleared, [fresh] is the handle the next [setInterval]
    returns (handles are positive, so a handle is truthy). *)
Record Transport := {
  isPlaying : bool;
  schedulerInterval : option positive;
  timers : list positive;
  fresh : positive
}.

(** The field initialisers, in a window without timers of the engine. *)
Definition initial : Transport :=
  {| isPlaying := false; schedulerInterval := None; timers := [];
     fresh := 1%positive |}.

(** [clearInterval]. *)
Definition clearInterval (h : positive) (ts : list positive)
  : list positive :=
  List.filter (fun x => negb (Pos.eqb x h)) ts.

Definition startScheduler (t : Transport) : Transport :=
  let timers1 :=
    match schedulerInterval t with
    | Some h => clearInterval h (timers t)
    | None => timers t
    end in
  {| isPlaying := isPlaying t;
     schedulerInterval := Some (fresh t);
     timers := timers1 ++ [fresh t];
     fresh := Pos.succ (fresh t) |}.

(** [resume] from where its [await] has returned; the statements up to
    the [await] touch none of these fields. *)
Definition resume (t : Transport) : Transport :=
  if negb (isPlaying t) then
    startScheduler
      {| isPlaying := true; schedulerInterval := schedulerInterval t;
         timers := timers t; fresh := fresh t |}
  else t.

(** The only timer set is the one the engine holds the handle of, and
    there is one exactly while the engine is playing. *)
Definition one_timer (t : Transport) : Prop :=
  match schedulerInterval t with
  | Some h => timers t = [h] /\ isPlaying t = true /\ (h < fresh t)%positive
  | None => timers t = [] /\ isPlaying t = false
  end.

End Transport.

(* ===================================================================== *)
(** * Part II: properties *)
(* ===================================================================== *)

(** ** Tempo estimator *)

Section TempoFacts.

Import Tempo.
Local Open Scope Q_scope.

Lemma Qltb_true (a b : Q) : Qltb a b = true <-> a < b.
Proof.
  unfold Qltb. rewrite Qlt_alt.
  destruct (a ?= b); split; congruence.
Qed.

Lemma Qltb_false (a b : Q) : Qltb a b = false <-> b <= a.
Proof.
  rewrite <- not_true_iff_false, Qltb_true.
  split; [apply Qnot_lt_le | apply Qle_not_lt].
Qed.

Lemma pow2_reaches (m : Z) : exists n : nat, (m <= 2 ^ Z.of_nat n)%Z.
Proof.
  exists (Z.to_nat m).
  destruct (Z.le_gt_cases m 0) as [Hm | Hm].
  - assert (0 < 2 ^ Z.of_nat (Z.to_nat m))%Z by (apply Z.pow_pos_nonneg; lia).
    lia.
  - rewrite Z2Nat.id by lia.
    assert (m < 2 ^ m)%Z by (apply Z.pow_gt_lin_r; lia). lia.
Qed.

Lemma pow2_0 : pow2 0 == 1.
Proof. reflexivity. Qed.

Lemma pow2_S (n : nat) : pow2 (S n) == 2 * pow2 n.
Proof.
  unfold pow2. rewrite Nat2Z.inj_succ, Z.pow_succ_r by lia.
  rewrite inject_Z_mult. reflexivity.
Qed.

Lemma pow2_pos (n : nat) : 0 < pow2 n.
Proof.
  unfold pow2. change 0 with (inject_Z 0). rewrite <- Zlt_Qlt.
  apply Z.pow_pos_nonneg; lia.
Qed.

(** Doubling reaches any bound from any positive start. *)
Lemma doubling_reaches (x : Q) : 0 < x -> exists n, 70 <= x * pow2 n.
Proof.
  destruct x as [a b]. unfold Qlt. simpl. intros Ha.
  destruct (pow2_reaches (70 * Z.pos b)) as [n Hn].
  exists n. unfold pow2, Qle. simpl. nia.
Qed.

(** Halving gets below any positive bound. *)
Lemma halving_reaches (x : Q) : exists n, x <= 180 * pow2 n.
Proof.
  destruct x as [a b].
  destruct (pow2_reaches a) as [n Hn].
  exists n. unfold pow2, Qle. simpl.
  assert (0 < 2 ^ Z.of_nat n)%Z by (apply Z.pow_pos_nonneg; lia).
  nia.
Qed.

(** The doubling loop leaves with a value of at least 70, below 140 if it
    ran at all, and untouched otherwise. *)
Lemma double_until_exits (n : nat) :
  forall (x : Q) (fuel : nat),
    0 < x -> 70 <= x * pow2 n -> (n <= fuel)%nat ->
    exists y, double_until fuel x = Some y /\ 70 <= y /\
              (x < 70 -> y < 140) /\ (70 <= x -> y = x).
Proof.
  induction n as [| n IH]; intros x fuel Hx Hn Hf.
  - assert (H70 : 70 <= x).
    { rewrite pow2_0 in Hn. lra. }
    exists x. destruct fuel; simpl;
      (rewrite (proj2 (Qltb_false x 70)) by exact H70);
      repeat split; auto; intros; lra.
  - destruct (Qlt_le_dec x 70) as [Hlt | Hge].
    + destruct fuel as [| fuel]; [lia |].
      simpl. rewrite (proj2 (Qltb_true x 70)) by exact Hlt.
      destruct (IH (x * 2) fuel) as (y & Hy & H70 & Hup & Hsame).
      * lra.
      * rewrite pow2_S in Hn. lra.
      * lia.
      * exists y. repeat split; auto.
        -- intros _. destruct (Qlt_le_dec (x * 2) 70) as [H2 | H2].
           ++ auto.
           ++ rewrite (Hsame H2). lra.
        -- intros; lra.
    + exists x. destruct fuel; simpl;
        (rewrite (proj2 (Qltb_false x 70)) by exact Hge);
        repeat split; auto; intros; lra.
Qed.

(** The halving loop leaves with a value of at most 180, above 90 if it ran
    at all, and untouched otherwise. *)
Lemma halve_until_exits (n : nat) :
  forall (x : Q) (fuel : nat),
    x <= 180 * pow2 n -> (n <= fuel)%nat ->
    exists y, halve_until fuel x = Some y /\ y <= 180 /\
              (180 < x -> 90 < y) /\ (x <= 180 -> y = x).
Proof.
  induction n as [| n IH]; intros x fuel Hn Hf.
  - assert (H180 : x <= 180).
    { rewrite pow2_0 in Hn. lra. }
    exists x. destruct fuel; simpl;
      (rewrite (proj2 (Qltb_false 180 x)) by exact H180);
      repeat split; auto; intros; lra.
  - destruct (Qlt_le_dec 180 x) as [Hgt | Hle].
    + destruct fuel as [| fuel]; [lia |].
      simpl. rewrite (proj2 (Qltb_true 180 x)) by exact Hgt.
      destruct (IH (x / 2) fuel) as (y & Hy & H180 & Hdown & Hsame).
      * rewrite pow2_S in Hn.
        apply Qle_shift_div_r; [reflexivity | lra].
      * lia.
      * assert (Hhalf : x / 2 == x * (1 # 2)) by (unfold Qdiv; reflexivity).
        exists y. repeat split; auto.
        -- intros _. destruct (Qlt_le_dec 180 (x / 2)) as [H2 | H2].
           ++ auto.
           ++ rewrite (Hsame H2). rewrite Hhalf. lra.
        -- intros; lra.
    + exists x. destruct fuel; simpl;
        (rewrite (proj2 (Qltb_false 180 x)) by exact Hle);
        repeat split; auto; intros; lra.
Qed.

(** More fuel never changes what a loop returns. *)
Lemma double_until_mono (fuel : nat) :
  forall (x y : Q) (fuel' : nat),
    double_until fuel x = Some y -> (fuel <= fuel')%nat ->
    double_until fuel' x = Some y.
Proof.
  induction fuel as [| fuel IH]; intros x y fuel' H Hle.
  - simpl in H. destruct (Qltb x 70) eqn:E; [discriminate |].
    destruct fuel'; simpl; rewrite E; exact H.
  - simpl in H. destruct fuel' as [| fuel']; [lia |].
    simpl. destruct (Qltb x 70); [| exact H].
    apply IH; [exact H | lia].
Qed.

Lemma halve_until_mono (fuel : nat) :
  forall (x y : Q) (fuel' : nat),
    halve_until fuel x = Some y -> (fuel <= fuel')%nat ->
    halve_until fuel' x = Some y.
Proof.
  induction fuel as [| fuel IH]; intros x y fuel' H Hle.
  - simpl in H. destruct (Qltb 180 x) eqn:E; [discriminate |].
    destruct fuel'; simpl; rewrite E; exact H.
  - simpl in H. destruct fuel' as [| fuel']; [lia |].
    simpl. destruct (Qltb 180 x); [| exact H].
    apply IH; [exact H | lia].
Qed.

Lemma detectBPM_mono (fuel fuel' : nat) (sampleRate : Q) (r : Rendering)
    (v : Z) :
  detectBPM fuel sampleRate r = Some v -> (fuel <= fuel')%nat ->
  detectBPM fuel' sampleRate r = Some v.
Proof.
  unfold detectBPM, analyse. intros H Hle.
  destruct r as [| data]; [exact H |].
  destruct (length (find_peaks sampleRate data 0 []) <? 2)%nat; [exact H |].
  destruct (pick_best _ _ =? 0)%Z; [exact H |].
  destruct (double_until fuel _) as [up |] eqn:Eup; [| discriminate].
  rewrite (double_until_mono _ _ _ _ Eup Hle).
  destruct (halve_until fuel up) as [fin |] eqn:Efin; [| discriminate].
  rewrite (halve_until_mono _ _ _ _ Efin Hle). exact H.
Qed.

(** *** Peaks, intervals and the histogram *)

Lemma intervals_of_snoc (peaks : list Z) (p i : Z) :
  last peaks = Some p ->
  intervals_of (peaks ++ [i]) = intervals_of peaks ++ [(i - p)%Z].
Proof.
  induction peaks as [| a [| b rest] IH]; intros Hlast.
  - discriminate.
  - simpl in Hlast. injection Hlast as ->. reflexivity.
  - change (intervals_of ((a :: b :: rest) ++ [i]))
      with ((b - a)%Z :: intervals_of ((b :: rest) ++ [i])).
    rewrite IH by exact Hlast. reflexivity.
Qed.

Lemma find_peaks_positive (sampleRate : Q) (data : list Q) :
  0 <= sampleRate ->
  forall (i : Z) (peaks : list Z),
    positive_intervals peaks ->
    positive_intervals (find_peaks sampleRate data i peaks).
Proof.
  intros Hsr. induction data as [| x rest IH]; intros i peaks Hp.
  - exact Hp.
  - simpl. apply IH.
    destruct (Qltb threshold x); [| exact Hp].
    destruct (last peaks) as [p |] eqn:El.
    + destruct (Qltb (minDistance sampleRate) (inject_Z (i - p))) eqn:Ed;
        [| exact Hp].
      unfold positive_intervals. rewrite (intervals_of_snoc _ _ _ El).
      apply Forall_app. split; [exact Hp |].
      constructor; [| constructor].
      apply Qltb_true in Ed. unfold minDistance in Ed.
      assert (H0 : inject_Z 0 < inject_Z (i - p)).
      { change (inject_Z 0) with 0. lra. }
      rewrite <- Zlt_Qlt in H0. exact H0.
    + destruct peaks as [| a rest'].
      * constructor.
      * exfalso. clear -El. revert a El.
        induction rest' as [| b r IHr]; intros a El; [discriminate |].
        exact (IHr b El).
Qed.

(** The loop pushes at most one peak per sample above the threshold. *)
Lemma find_peaks_length (sampleRate : Q) (data : list Q) :
  forall (i : Z) (peaks : list Z),
    (length (find_peaks sampleRate data i peaks)
     <= length peaks
        + length (List.filter (fun x => Qltb threshold x) data))%nat.
Proof.
  induction data as [| x rest IH]; intros i peaks; simpl.
  - lia.
  - specialize (IH (i + 1)%Z).
    destruct (Qltb threshold x); simpl.
    + destruct (last peaks) as [p |].
      * destruct (Qltb _ _).
        -- specialize (IH (peaks ++ [i])). rewrite length_app in IH.
           simpl in IH. lia.
        -- specialize (IH peaks). lia.
      * specialize (IH (peaks ++ [i])). rewrite length_app in IH.
        simpl in IH. lia.
    + apply IH.
Qed.

Lemma bucket_nonneg (interval : Z) :
  (0 <= interval)%Z -> (0 <= bucket interval)%Z.
Proof.
  intros H. unfold bucket, js_round.
  assert (0 <= Qfloor (inject_Z interval / 1000 + (1 # 2)))%Z; [| lia].
  change 0%Z with (Qfloor 0). apply Qfloor_resp_le.
  assert (0 <= inject_Z interval / 1000).
  { apply Qle_shift_div_l; [reflexivity |].
    rewrite Qmult_0_l. change 0 with (inject_Z 0).
    rewrite <- Zle_Qle. exact H. }
  lra.
Qed.

Lemma hist_incr_nonneg (key : Z) (h : Histogram) :
  (0 <= key)%Z -> nonneg_keys h -> nonneg_keys (hist_incr key h).
Proof.
  intros Hk. induction h as [| [k c] rest IH]; intros Hh; simpl.
  - constructor; [exact Hk | constructor].
  - inversion Hh as [| ? ? Hk0 Hrest]; subst.
    destruct (key =? k)%Z.
    + constructor; assumption.
    + destruct (key <? k)%Z.
      * constructor; [exact Hk | exact Hh].
      * constructor; [exact Hk0 | exact (IH Hrest)].
Qed.

Lemma build_histogram_nonneg (intervals : list Z) :
  Forall (fun d => (0 < d)%Z) intervals ->
  nonneg_keys (build_histogram intervals).
Proof.
  unfold build_histogram.
  assert (G : forall h, nonneg_keys h ->
                Forall (fun d => (0 < d)%Z) intervals ->
                nonneg_keys
                  (fold_left (fun h i => hist_incr (bucket i) h) intervals h)).
  { induction intervals as [| d rest IH]; intros h Hh Hi; simpl.
    - exact Hh.
    - inversion Hi; subst. apply IH; [| assumption].
      apply hist_incr_nonneg; [apply bucket_nonneg; lia | exact Hh]. }
  intros Hi. apply G; [constructor | exact Hi].
Qed.

Lemma pick_best_nonneg (h : Histogram) (bestInterval : Z) :
  (0 <= bestInterval)%Z -> nonneg_keys h -> (0 <= pick_best h bestInterval)%Z.
Proof.
  unfold pick_best. generalize 0%nat as maxCount.
  revert bestInterval.
  induction h as [| [k c] rest IH]; intros best maxCount Hb Hh; simpl.
  - exact Hb.
  - inversion Hh as [| ? ? Hk Hrest]; subst. simpl in Hk.
    destruct (maxCount <? c)%nat.
    + apply (IH k c); assumption.
    + apply (IH best maxCount); assumption.
Qed.

(** The interval the tempo is computed from is never negative. *)
Lemma bestInterval_nonneg (sampleRate : Q) (data : list Q) :
  0 <= sampleRate ->
  let intervals := intervals_of (find_peaks sampleRate data 0 []) in
  (0 <= pick_best (build_histogram intervals) (hd 0%Z intervals))%Z.
Proof.
  intros Hsr intervals.
  assert (Hpos : Forall (fun d => (0 < d)%Z) intervals).
  { apply (find_peaks_positive sampleRate data Hsr). constructor. }
  apply pick_best_nonneg.
  - destruct intervals as [| d rest]; simpl; [lia |].
    inversion Hpos; subst. lia.
  - apply build_histogram_nonneg. exact Hpos.
Qed.

Lemma js_round_range (x : Q) :
  70 <= x -> x <= 180 -> (70 <= js_round x <= 180)%Z.
Proof.
  intros Hlo Hhi. unfold js_round. split.
  - change 70%Z with (Qfloor 70). apply Qfloor_resp_le. lra.
  - assert (H := Qfloor_le (x + (1 # 2))).
    assert (H' : inject_Z (Qfloor (x + (1 # 2))) < inject_Z 181).
    { change (inject_Z 181) with 181. lra. }
    rewrite <- Zlt_Qlt in H'. lia.
Qed.

(** With a positive sample rate the analysis ends, on a tempo between 70
    and 180. *)
Lemma detectBPM_returns (sampleRate : Q) (r : Rendering) :
  0 < sampleRate ->
  exists (v : Z) (fuel0 : nat),
    (70 <= v <= 180)%Z /\
    forall fuel, (fuel0 <= fuel)%nat -> detectBPM fuel sampleRate r = Some v.
Proof.
  intros Hsr. unfold detectBPM, analyse.
  destruct r as [| data].
  { exists 120%Z, 0%nat. split; [lia | reflexivity]. }
  destruct (length (find_peaks sampleRate data 0 []) <? 2)%nat.
  { exists 120%Z, 0%nat. split; [lia | reflexivity]. }
  set (intervals := intervals_of (find_peaks sampleRate data 0 [])).
  set (best := pick_best (build_histogram intervals) (hd 0%Z intervals)).
  destruct (best =? 0)%Z eqn:Ebest.
  { exists 120%Z, 0%nat. split; [lia | reflexivity]. }
  assert (Hbest : (0 < best)%Z).
  { assert (H := bestInterval_nonneg sampleRate data (Qlt_le_weak _ _ Hsr)).
    simpl in H. fold intervals in H. fold best in H.
    apply Z.eqb_neq in Ebest. lia. }
  set (bpm := 60 / (inject_Z best / sampleRate)).
  assert (Hbpm : 0 < bpm).
  { unfold bpm. apply Qlt_shift_div_l.
    - apply Qlt_shift_div_l; [exact Hsr |].
      rewrite Qmult_0_l. change 0 with (inject_Z 0).
      rewrite <- Zlt_Qlt. exact Hbest.
    - rewrite Qmult_0_l. reflexivity. }
  destruct (doubling_reaches bpm Hbpm) as [n Hn].
  destruct (double_until_exits n bpm n Hbpm Hn (le_n n))
    as (up & Hup & Hup70 & _ & _).
  destruct (halving_reaches up) as [m Hm].
  destruct (halve_until_exits m up m Hm (le_n m))
    as (fin & Hfin & Hfin180 & Hdown & Hsame).
  assert (Hfin70 : 70 <= fin).
  { destruct (Qlt_le_dec 180 up) as [Hgt | Hle].
    - specialize (Hdown Hgt). lra.
    - rewrite (Hsame Hle). exact Hup70. }
  destruct (js_round_range fin Hfin70 Hfin180) as [Hlo Hhi].
  exists (js_round fin), (max n m). split; [lia |].
  intros fuel Hfuel.
  rewrite (double_until_mono n bpm up fuel Hup) by lia.
  rewrite (halve_until_mono m up fin fuel Hfin) by lia.
  destruct (js_round fin =? 0)%Z eqn:E0; [| reflexivity].
  apply Z.eqb_eq in E0. lia.
Qed.

Example click_track_peaks :
  find_peaks 8000 click_track 0 [] = [0; 3000; 6000]%Z.
Proof. vm_compute. reflexivity. Qed.

Example click_track_bpm : detectBPM 1 8000 (Rendered click_track) = Some 160%Z.
Proof. vm_compute. reflexivity. Qed.

Example slow_clicks_are_doubled :
  detectBPM 1 2000 (Rendered click_track) = Some 80%Z.
Proof. vm_compute. reflexivity. Qed.

Example silence_bpm : detectBPM 0 44100 (Rendered (repeat 0 5000)) = Some 120%Z.
Proof. vm_compute. reflexivity. Qed.

(** C9.  [detectBPM] never fails observably.  For every buffer (positive
    sample rate) and every outcome of the offline render the call ends with
    a number; an exception of the render is caught and gives 120; fewer
    than two accepted peaks give 120, and so do fewer than two samples
    above the 0.3 threshold (silence among them). *)
Theorem detectBPM_never_fails (sampleRate : Q) (r : Rendering) :
  0 < sampleRate ->
  (exists (v : Z) (fuel0 : nat),
      forall fuel, (fuel0 <= fuel)%nat ->
                   detectBPM fuel sampleRate r = Some v) /\
  (forall fuel, r = RenderThrows ->
                detectBPM fuel sampleRate r = Some 120%Z) /\
  (forall fuel data,
      r = Rendered data ->
      (length (find_peaks sampleRate data 0 []) < 2)%nat ->
      detectBPM fuel sampleRate r = Some 120%Z) /\
  (forall fuel data,
      r = Rendered data ->
      (length (List.filter (fun x => Qltb threshold x) data) < 2)%nat ->
      detectBPM fuel sampleRate r = Some 120%Z).
Proof.
  intros Hsr.
  assert (Hpeaks : forall fuel data,
             r = Rendered data ->
             (length (find_peaks sampleRate data 0 []) < 2)%nat ->
             detectBPM fuel sampleRate r = Some 120%Z).
  { intros fuel data -> Hlen. unfold detectBPM, analyse.
    apply Nat.ltb_lt in Hlen. rewrite Hlen. reflexivity. }
  split; [| split; [| split]].
  - destruct (detectBPM_returns sampleRate r Hsr) as (v & fuel0 & _ & H).
    exists v, fuel0. exact H.
  - intros fuel ->. reflexivity.
  - exact Hpeaks.
  - intros fuel data Hr Hlen. apply (Hpeaks fuel data Hr).
    pose proof (find_peaks_length sampleRate data 0 []) as H.
    simpl in H. lia.
Qed.

Lemma detectBPM_never_fails_witness :
  (exists (v : Z) (fuel0 : nat),
      forall fuel, (fuel0 <= fuel)%nat ->
                   detectBPM fuel 44100 (Rendered (repeat 0 5000)) = Some v) /\
  detectBPM 0 44100 (Rendered (repeat 0 5000)) = Some 120%Z.
Proof.
  pose proof (detectBPM_never_fails 44100 (Rendered (repeat 0 5000)) eq_refl)
    as (Hends & _ & _ & Hquiet).
  split; [exact Hends |].
  apply (Hquiet 0%nat (repeat 0 5000) eq_refl).
  vm_compute. lia.
Defined.

(** C10.  Whenever [detectBPM] returns, the value is an integer between 70
    and 180, and it does return: the doubling loop lifts a tempo below 70
    into [70, 140), the halving loop lowers a tempo above 180 into
    (90, 180], rounding keeps the result within the two integer bounds, and
    the default 120 lies between them. *)
Theorem detectBPM_range (sampleRate : Q) (r : Rendering) :
  0 < sampleRate ->
  (exists (v : Z) (fuel0 : nat),
      (70 <= v <= 180)%Z /\
      forall fuel, (fuel0 <= fuel)%nat ->
                   detectBPM fuel sampleRate r = Some v) /\
  (forall fuel v,
      detectBPM fuel sampleRate r = Some v -> (70 <= v <= 180)%Z) /\
  (forall x, 0 < x -> x < 70 ->
      exists (y : Q) (fuel0 : nat),
        70 <= y /\ y < 140 /\
        forall fuel, (fuel0 <= fuel)%nat -> double_until fuel x = Some y) /\
  (forall x, 180 < x ->
      exists (y : Q) (fuel0 : nat),
        90 < y /\ y <= 180 /\
        forall fuel, (fuel0 <= fuel)%nat -> halve_until fuel x = Some y).
Proof.
  intros Hsr.
  destruct (detectBPM_returns sampleRate r Hsr) as (v & fuel0 & Hv & Hret).
  split; [| split; [| split]].
  - exists v, fuel0. split; assumption.
  - intros fuel v' H.
    pose proof (detectBPM_mono fuel (max fuel fuel0) sampleRate r v' H
                  (Nat.le_max_l _ _)) as H1.
    rewrite (Hret (max fuel fuel0) (Nat.le_max_r _ _)) in H1.
    injection H1 as <-. exact Hv.
  - intros x Hx Hlt.
    destruct (doubling_reaches x Hx) as [n Hn].
    destruct (double_until_exits n x n Hx Hn (le_n n))
      as (y & Hy & H70 & Hup & _).
    exists y, n. repeat split; auto.
    intros fuel Hf. exact (double_until_mono n x y fuel Hy Hf).
  - intros x Hgt.
    destruct (halving_reaches x) as [n Hn].
    destruct (halve_until_exits n x n Hn (le_n n))
      as (y & Hy & H180 & Hdown & _).
    exists y, n. repeat split; auto.
    intros fuel Hf. exact (halve_until_mono n x y fuel Hy Hf).
Qed.

Lemma detectBPM_range_witness :
  (70 <= 160 <= 180)%Z /\
  detectBPM 1 8000 (Rendered click_track) = Some 160%Z.
Proof.
  assert (E : detectBPM 1 8000 (Rendered click_track) = Some 160%Z)
    by (vm_compute; reflexivity).
  split; [| exact E].
  exact (proj1 (proj2 (detectBPM_range 8000 (Rendered click_track) eq_refl))
           1%nat 160%Z E).
Defined.

End TempoFacts.

(** ** Number primitives *)

Section JSFacts.

Local Open Scope R_scope.

Lemma ltb_lt (a b : R) : a < b -> JS.ltb a b = true.
Proof.
  intros H. unfold JS.ltb. destruct (Rlt_dec a b); [reflexivity | lra].
Qed.

Lemma ltb_ge (a b : R) : b <= a -> JS.ltb a b = false.
Proof.
  intros H. unfold JS.ltb. destruct (Rlt_dec a b); [lra | reflexivity].
Qed.

Lemma ltb_true_iff (a b : R) : JS.ltb a b = true <-> a < b.
Proof.
  unfold JS.ltb. destruct (Rlt_dec a b); split; intros; try assumption;
    try reflexivity; try discriminate; try contradiction.
Qed.

Lemma ltb_false_iff (a b : R) : JS.ltb a b = false <-> b <= a.
Proof.
  unfold JS.ltb. destruct (Rlt_dec a b); split; intros; try discriminate;
    try reflexivity; lra.
Qed.

Lemma gtb_gt (a b : R) : b < a -> JS.gtb a b = true.
Proof. apply ltb_lt. Qed.

Lemma gtb_le (a b : R) : a <= b -> JS.gtb a b = false.
Proof. apply ltb_ge. Qed.

Lemma sign_pos (x : R) : 0 < x -> JS.sign x = 1.
Proof.
  intros H. unfold JS.sign. destruct (Rlt_dec 0 x); [reflexivity | lra].
Qed.

Lemma sign_neg (x : R) : x < 0 -> JS.sign x = -1.
Proof.
  intros H. unfold JS.sign.
  destruct (Rlt_dec 0 x); [lra |]. destruct (Rlt_dec x 0); [reflexivity | lra].
Qed.

Lemma sign_zero : JS.sign 0 = 0.
Proof.
  unfold JS.sign.
  destruct (Rlt_dec 0 0); [lra |]. destruct (Rlt_dec 0 0); [lra | reflexivity].
Qed.

Lemma truthy_nonzero (x : R) : x <> 0 -> JS.truthy x = true.
Proof.
  intros H. unfold JS.truthy.
  destruct (Req_dec_T x 0); [contradiction | reflexivity].
Qed.

Lemma truthy_zero : JS.truthy 0 = false.
Proof.
  unfold JS.truthy. destruct (Req_dec_T 0 0); [reflexivity | contradiction].
Qed.

Lemma or_else_nonzero (x d : R) : x <> 0 -> JS.or_else x d = x.
Proof. intros H. unfold JS.or_else. rewrite truthy_nonzero; auto. Qed.

Lemma or_else_zero (d : R) : JS.or_else 0 d = d.
Proof. unfold JS.or_else. rewrite truthy_zero. reflexivity. Qed.

(** Powers of two outgrow every real. *)
Lemma pow2_above (b : R) : exists n : nat, b <= 2 ^ n.
Proof.
  assert (H2 : Rabs 2 > 1) by (rewrite Rabs_pos_eq; lra).
  destruct (Pow_x_infinity 2 H2 b) as [N HN].
  exists N. specialize (HN N (le_n N)).
  rewrite Rabs_pos_eq in HN; [lra |].
  apply pow_le. lra.
Qed.

Lemma pow2_gt0 (n : nat) : 0 < 2 ^ n.
Proof. apply pow_lt. lra. Qed.

End JSFacts.

(** Case analysis on every comparison of a goal about reals, innermost
    first. *)
Ltac plain_real a :=
  lazymatch a with
  | context [Rlt_dec _ _] => fail
  | context [Rle_dec _ _] => fail
  | context [Rcase_abs _] => fail
  | _ => idtac
  end.

Ltac real_cases :=
  unfold JS.gtb, JS.ltb, JS.sign, Rabs, Rmax, Rmin in *;
  repeat match goal with
         | |- context [Rlt_dec ?a ?b] =>
             plain_real a; plain_real b; destruct (Rlt_dec a b)
         | |- context [Rle_dec ?a ?b] =>
             plain_real a; plain_real b; destruct (Rle_dec a b)
         | |- context [Rcase_abs ?a] =>
             plain_real a; destruct (Rcase_abs a)
         end;
  try lra.

(** Settle the comparisons of a goal whose operands are known numbers. *)
Ltac real_decide :=
  unfold JS.gtb;
  repeat first [ rewrite ltb_lt by lra | rewrite ltb_ge by lra ].

(** ** Grain synthesizer: the beat-sync ratio *)

Section RatioFacts.

Import Engine.
Local Open Scope R_scope.

Lemma fold_down_exits (n : nat) :
  forall (x : R) (fuel : nat),
    0 < x -> x <= 1.5 * 2 ^ n -> (n <= fuel)%nat ->
    exists y, fold_down fuel x = Some y /\ 0 < y <= 1.5 /\
              (1.5 < x -> 0.75 < y) /\ (x <= 1.5 -> y = x).
Proof.
  induction n as [| n IH]; intros x fuel Hx Hn Hf.
  - simpl in Hn. exists x.
    destruct fuel; simpl; rewrite gtb_le by lra;
      repeat split; auto; lra.
  - destruct (Rlt_dec 1.5 x) as [Hgt | Hle].
    + destruct fuel as [| fuel]; [lia |].
      simpl. rewrite gtb_gt by exact Hgt.
      destruct (IH (x / 2) fuel) as (y & Hy & Hr & Hdown & Hsame).
      * lra.
      * simpl in Hn. lra.
      * lia.
      * exists y. split; [exact Hy |]. split; [lra |].
        split; [| intros; lra].
        intros _. destruct (Rlt_dec 1.5 (x / 2)) as [H2 | H2].
        -- auto.
        -- rewrite Hsame by lra. lra.
    + exists x. destruct fuel; simpl; rewrite gtb_le by lra;
        repeat split; auto; lra.
Qed.

Lemma fold_up_exits (n : nat) :
  forall (x : R) (fuel : nat),
    0 < x -> 0.75 <= x * 2 ^ n -> (n <= fuel)%nat ->
    exists y, fold_up fuel x = Some y /\ 0.75 <= y /\
              (x < 0.75 -> y < 1.5) /\ (0.75 <= x -> y = x).
Proof.
  induction n as [| n IH]; intros x fuel Hx Hn Hf.
  - simpl in Hn. exists x.
    destruct fuel; simpl; rewrite ltb_ge by lra;
      repeat split; auto; lra.
  - destruct (Rlt_dec x 0.75) as [Hlt | Hge].
    + destruct fuel as [| fuel]; [lia |].
      simpl. rewrite ltb_lt by exact Hlt.
      destruct (IH (x * 2) fuel) as (y & Hy & Hr & Hup & Hsame).
      * lra.
      * simpl in Hn. lra.
      * lia.
      * exists y. split; [exact Hy |]. split; [lra |].
        split; [| intros; lra].
        intros _. destruct (Rlt_dec (x * 2) 0.75) as [H2 | H2].
        -- auto.
        -- rewrite Hsame by lra. lra.
    + exists x. destruct fuel; simpl; rewrite ltb_ge by lra;
        repeat split; auto; lra.
Qed.

Lemma fold_down_mono (fuel : nat) :
  forall (x y : R) (fuel' : nat),
    fold_down fuel x = Some y -> (fuel <= fuel')%nat ->
    fold_down fuel' x = Some y.
Proof.
  induction fuel as [| fuel IH]; intros x y fuel' H Hle.
  - simpl in H. destruct (JS.gtb x 1.5) eqn:E; [discriminate |].
    destruct fuel'; simpl; rewrite E; exact H.
  - simpl in H. destruct fuel' as [| fuel']; [lia |].
    simpl. destruct (JS.gtb x 1.5); [| exact H].
    apply IH; [exact H | lia].
Qed.

Lemma fold_up_mono (fuel : nat) :
  forall (x y : R) (fuel' : nat),
    fold_up fuel x = Some y -> (fuel <= fuel')%nat ->
    fold_up fuel' x = Some y.
Proof.
  induction fuel as [| fuel IH]; intros x y fuel' H Hle.
  - simpl in H. destruct (JS.ltb x 0.75) eqn:E; [discriminate |].
    destruct fuel'; simpl; rewrite E; exact H.
  - simpl in H. destruct fuel' as [| fuel']; [lia |].
    simpl. destruct (JS.ltb x 0.75); [| exact H].
    apply IH; [exact H | lia].
Qed.

Lemma fold_ratio_mono (fuel fuel' : nat) (x y : R) :
  fold_ratio fuel x = Some y -> (fuel <= fuel')%nat ->
  fold_ratio fuel' x = Some y.
Proof.
  unfold fold_ratio. intros H Hle.
  destruct (fold_down fuel x) as [r |] eqn:E; [| discriminate].
  rewrite (fold_down_mono _ _ _ _ E Hle).
  exact (fold_up_mono _ _ _ _ H Hle).
Qed.

(** The two loops end for every positive ratio, inside [0.75, 1.5]. *)
Lemma fold_ratio_exits (x : R) :
  0 < x ->
  exists (r : R) (fuel0 : nat),
    0.75 <= r <= 1.5 /\
    forall fuel, (fuel0 <= fuel)%nat -> fold_ratio fuel x = Some r.
Proof.
  intros Hx.
  destruct (pow2_above (x / 1.5)) as [n Hn].
  destruct (fold_down_exits n x n Hx) as (y & Hy & Hy15 & Hdown & Hsame);
    [lra | lia |].
  destruct (pow2_above (0.75 / y)) as [m Hm].
  assert (Hym : 0.75 <= y * 2 ^ m).
  { assert (0.75 = 0.75 / y * y) by (field; lra).
    assert (0.75 / y * y <= 2 ^ m * y)
      by (apply Rmult_le_compat_r; lra).
    lra. }
  destruct (fold_up_exits m y m) as (r & Hr & Hr75 & Hup & Hsame');
    [lra | exact Hym | lia |].
  exists r, (max n m). split.
  - split; [exact Hr75 |].
    destruct (Rlt_dec y 0.75) as [Hlt | Hge].
    + specialize (Hup Hlt). lra.
    + rewrite Hsame' by lra. lra.
  - intros fuel Hf. unfold fold_ratio.
    rewrite (fold_down_mono n x y fuel Hy) by lia.
    apply (fold_up_mono m y r fuel Hr). lia.
Qed.

Lemma beat_ratio_mono (fuel fuel' : nat) (g : GlobalParams) (orb : AudioOrb)
    (r : R) :
  beat_ratio fuel g orb = Some r -> (fuel <= fuel')%nat ->
  beat_ratio fuel' g orb = Some r.
Proof.
  unfold beat_ratio. intros H Hle.
  destruct (detectedBpm orb) as [d |]; [| exact H].
  destruct (beatSync g && JS.truthy d); [| exact H].
  exact (fold_ratio_mono _ _ _ _ H Hle).
Qed.

(** C7.  For a positive master tempo and a positive detected tempo the
    halving and doubling loops of the beat-sync ratio end, and the factor
    multiplied into [playbackRate] lies in [0.75, 1.5]. *)
Theorem beat_ratio_folds (g : GlobalParams) (orb : AudioOrb) (dbpm : R) :
  0 < masterBpm g ->
  0 < dbpm ->
  detectedBpm orb = Some dbpm ->
  beatSync g = true ->
  exists (r : R) (fuel0 : nat),
    0.75 <= r <= 1.5 /\
    (forall fuel, (fuel0 <= fuel)%nat ->
       fold_ratio fuel (masterBpm g / dbpm) = Some r /\
       beat_ratio fuel g orb = Some r) /\
    (forall fuel r', beat_ratio fuel g orb = Some r' -> r' = r).
Proof.
  intros Hm Hd Horb Hsync.
  assert (Hx : 0 < masterBpm g / dbpm) by (apply Rdiv_lt_0_compat; lra).
  destruct (fold_ratio_exits _ Hx) as (r & fuel0 & Hr & Hfold).
  assert (Hbeat : forall fuel, beat_ratio fuel g orb
                               = fold_ratio fuel (masterBpm g / dbpm)).
  { intros fuel. unfold beat_ratio. rewrite Horb, Hsync.
    rewrite truthy_nonzero by lra. reflexivity. }
  exists r, fuel0. split; [exact Hr | split].
  - intros fuel Hf. rewrite Hbeat. split; apply Hfold; exact Hf.
  - intros fuel r' H.
    pose proof (beat_ratio_mono fuel (max fuel fuel0) g orb r' H
                  (Nat.le_max_l _ _)) as H1.
    rewrite Hbeat, (Hfold (max fuel fuel0) (Nat.le_max_r _ _)) in H1.
    congruence.
Qed.

Lemma beat_ratio_folds_witness :
  exists (r : R) (fuel0 : nat),
    0.75 <= r <= 1.5 /\
    (forall fuel, (fuel0 <= fuel)%nat ->
       fold_ratio fuel (120 / 70) = Some r /\
       beat_ratio fuel synced_params slow_orb = Some r) /\
    (forall fuel r',
        beat_ratio fuel synced_params slow_orb = Some r' -> r' = r).
Proof.
  apply (beat_ratio_folds synced_params slow_orb 70); simpl;
    first [lra | reflexivity].
Defined.

End RatioFacts.

(** ** Scheduler: the free-run interval *)

Section IntervalFacts.

Import Engine.
Local Open Scope R_scope.

Lemma sqrt_unit_range (d : R) : 0 <= d <= 1 -> 0 <= sqrt d <= 1.
Proof.
  intros [Hlo Hhi]. split; [apply sqrt_pos |].
  rewrite <- sqrt_1. apply sqrt_le_1_alt. exact Hhi.
Qed.

(** The density the free-run branch works with. *)
Lemma clamped_density_range (effectiveDensity : R) :
  0.01 <= Rmax 0.01 (Rmin 1.0 effectiveDensity) <= 1.
Proof.
  unfold Rmax, Rmin.
  destruct (Rle_dec 1.0 effectiveDensity);
    destruct (Rle_dec 0.01 _); lra.
Qed.

(** C4.  In the free-run branch the interval before jitter,
    [f d = 0.5 - sqrt d * (0.5 - 0.01)], is strictly decreasing in the
    clamped density [d] on [0.01, 1] and lies in [0.01, 0.5]. *)
Theorem free_run_interval_decreasing (d1 d2 : R) :
  0.01 <= d1 <= 1 ->
  0.01 <= d2 <= 1 ->
  free_run_interval d1 = 0.5 - sqrt d1 * (0.5 - 0.01) /\
  (d1 < d2 -> free_run_interval d2 < free_run_interval d1) /\
  0.01 <= free_run_interval d1 <= 0.5.
Proof.
  intros H1 H2. unfold free_run_interval. split; [reflexivity | split].
  - intros Hlt.
    assert (sqrt d1 < sqrt d2) by (apply sqrt_lt_1_alt; lra).
    lra.
  - assert (0 <= sqrt d1 <= 1) by (apply sqrt_unit_range; lra).
    lra.
Qed.

Lemma free_run_interval_decreasing_witness :
  free_run_interval 0.25 = 0.5 - sqrt 0.25 * (0.5 - 0.01) /\
  (0.25 < 1 -> free_run_interval 1 < free_run_interval 0.25) /\
  0.01 <= free_run_interval 0.25 <= 0.5.
Proof.
  apply (free_run_interval_decreasing 0.25 1); lra.
Defined.

End IntervalFacts.

(** ** Grain synthesizer: the playback rate *)

Section RateFacts.

Import Engine.
Local Open Scope R_scope.

Lemma clamp_rate_zero : clamp_rate 0 = 0.
Proof. unfold clamp_rate. cbv zeta. real_cases. Qed.

(** Away from zero the two clamping statements do what they are meant to:
    the magnitude ends in [0.05, 4] and the sign is kept. *)
Lemma clamp_rate_nonzero (r : R) :
  r <> 0 ->
  0.05 <= Rabs (clamp_rate r) <= 4.0 /\ JS.sign (clamp_rate r) = JS.sign r.
Proof.
  intros Hr. unfold clamp_rate. cbv zeta. split; [split |]; real_cases.
Qed.

End RateFacts.

(** ** Grain synthesizer: what one call does to the engine *)

Section GrainFacts.

Import Engine.
Local Open Scope R_scope.

Variable random : nat -> R.

Lemma scheduleGrain_no_buffer fuel orb time lfoVal w :
  buffer orb = None -> scheduleGrain random fuel orb time lfoVal w = Some w.
Proof. intros H. unfold scheduleGrain. rewrite H. reflexivity. Qed.

(** With a buffer, a call that returns has started exactly one voice; it
    leaves the orbs, the parameters and the cursors alone, and of the glitch
    state it writes [frozenOffset] only, and only while stuttering with a
    negative [frozenOffset]. *)
Lemma scheduleGrain_voice fuel orb time lfoVal w w' buf :
  buffer orb = Some buf ->
  scheduleGrain random fuel orb time lfoVal w = Some w' ->
  exists v,
    voices w' = voices w ++ [v] /\
    v_orb v = id orb /\ v_time v = time /\
    (exists pre, v_playbackRate v = clamp_rate pre) /\
    orbs w' = orbs w /\ globalParams w' = globalParams w /\
    nextGrainTime w' = nextGrainTime w /\
    (rng w <= rng w')%nat /\
    same_burst (glitchState w) (glitchState w') /\
    (stuttering w = false -> glitchState w' = glitchState w) /\
    (stuttering w = true ->
       let offset0 := modulated_position orb lfoVal * duration buf in
       if JS.ltb (frozenOffset (glitchState w)) 0
       then frozenOffset (glitchState w') = offset0 /\
            v_offset v = wrap_offset offset0 (duration buf)
       else glitchState w' = glitchState w /\
            v_offset v
            = wrap_offset (frozenOffset (glitchState w)) (duration buf)).
Proof.
  intros Hbuf H. unfold scheduleGrain in H. rewrite Hbuf in H.
  destruct (beat_ratio fuel (globalParams w) orb) as [ratio |];
    [| discriminate].
  unfold stuttering, modulated_position, same_burst in *.
  destruct w as [o g [a e m f] c n vs].
  cbn -[JS.ltb JS.gtb Rmax JS.pow clamp_rate wrap_offset] in *.
  destruct a; [destruct m |];
    cbn -[JS.ltb JS.gtb Rmax JS.pow clamp_rate wrap_offset] in *;
    try destruct (JS.ltb f 0) eqn:Ef;
    cbn -[JS.ltb JS.gtb Rmax JS.pow clamp_rate wrap_offset] in *;
    injection H as <-;
    cbn -[JS.ltb JS.gtb Rmax JS.pow clamp_rate wrap_offset];
    (eexists; split; [reflexivity |]);
    cbn -[JS.ltb JS.gtb Rmax JS.pow clamp_rate wrap_offset];
    repeat split;
    solve [ reflexivity | lia | eexists; reflexivity
          | intros Hs; discriminate Hs
          | intros _; split; reflexivity ].
Qed.

(** Once [frozenOffset] holds a non-negative offset, a stutter grain reads
    it and leaves it alone. *)
Lemma scheduleGrain_reuses_frozen fuel orb time lfoVal w w' buf :
  buffer orb = Some buf ->
  stuttering w = true ->
  0 <= frozenOffset (glitchState w) ->
  scheduleGrain random fuel orb time lfoVal w = Some w' ->
  glitchState w' = glitchState w /\
  exists v, voices w' = voices w ++ [v] /\
            v_offset v
            = wrap_offset (frozenOffset (glitchState w)) (duration buf).
Proof.
  intros Hbuf Hst Hf H.
  destruct (scheduleGrain_voice _ _ _ _ _ _ _ Hbuf H)
    as (v & Hv & _ & _ & _ & _ & _ & _ & _ & _ & _ & Hfrozen).
  specialize (Hfrozen Hst). cbv zeta in Hfrozen.
  rewrite ltb_ge in Hfrozen by exact Hf.
  destruct Hfrozen as [Hg Ho]. split; [exact Hg |].
  exists v. split; assumption.
Qed.

End GrainFacts.

(** ** Grain synthesizer: the frozen offset of a stutter burst *)

Section StutterFacts.

Import Engine.
Local Open Scope R_scope.

Lemma burst_entered :
  glitch_tick zero_random 0.15 idle_world = burst_world (-1) ∅ 3 [].
Proof.
  unfold glitch_tick, glitch_trigger, glitch_enter, glitch_expire, draw,
    zero_random.
  cbn -[JS.ltb JS.gtb]. real_decide.
  cbn -[JS.ltb JS.gtb]. real_decide.
  reflexivity.
Qed.

Lemma scan_lfo_trough : lfo_sample burst_params (params scan_orb) 0.15 = -0.5.
Proof.
  unfold lfo_sample. cbn.
  replace (0.15 * 5 * 2 * PI) with (3 * (PI / 2)) by lra.
  rewrite sin_3PI2. lra.
Qed.

Lemma scan_lfo_zero :
  lfo_sample burst_params (params scan_orb) (0.15 + 0.05) = 0.
Proof.
  unfold lfo_sample. cbn.
  replace ((0.15 + 0.05) * 5 * 2 * PI) with (2 * PI) by lra.
  rewrite sin_2PI. lra.
Qed.

Lemma wrap_offset_within (offset dur : R) :
  0 <= offset < dur -> wrap_offset offset dur = offset.
Proof.
  intros [Hlo Hhi].
  assert (Hq : 0 <= offset / dur < 1).
  { split.
    - apply Rmult_le_pos; [lra |]. apply Rlt_le, Rinv_0_lt_compat. lra.
    - apply (Rmult_lt_reg_r dur); [lra |]. field_simplify; lra. }
  unfold wrap_offset, JS.rem, JS.trunc.
  destruct (Rlt_dec (offset / dur) 0) as [H | _]; [lra |].
  rewrite (Zfloor_eq 0 (offset / dur)) by lra.
  cbv zeta. rewrite ltb_ge by lra. lra.
Qed.

Lemma wrap_offset_just_below (offset dur : R) :
  - dur < offset < 0 -> wrap_offset offset dur = offset + dur.
Proof.
  intros [Hlo Hhi].
  assert (Hq : -1 < offset / dur < 0).
  { split.
    - apply (Rmult_lt_reg_r dur); [lra |]. field_simplify; lra.
    - apply (Rmult_lt_reg_r dur); [lra |]. field_simplify; lra. }
  unfold wrap_offset, JS.rem, JS.trunc.
  destruct (Rlt_dec (offset / dur) 0) as [_ | H]; [| lra].
  rewrite (Zceil_eq 0 (offset / dur)) by lra.
  cbv zeta. rewrite ltb_lt by lra. lra.
Qed.

(** The first grain of the burst: the LFO has pulled the position to
    -0.25, the raw offset is -1 s, and that is what [frozenOffset] gets. *)
Lemma first_stutter_grain fuel t cursors n vs :
  scheduleGrain zero_random fuel scan_orb t (-0.5)
    (burst_world (-1) cursors n vs)
  = Some (burst_world (-1) cursors (S (S n)) (vs ++ [stutter_voice t 3])).
Proof.
  unfold scheduleGrain, stuttering, draw, zero_random.
  cbn -[JS.ltb JS.gtb Rmax JS.pow clamp_rate wrap_offset].
  real_decide.
  cbn -[JS.ltb JS.gtb Rmax JS.pow clamp_rate wrap_offset].
  replace ((0 + -0.5 * 0.5) * 4) with (-1) by lra.
  rewrite (wrap_offset_just_below (-1) 4) by lra.
  replace (-1 + 4) with 3 by lra. reflexivity.
Qed.

(** The next grain finds [frozenOffset = -1 < 0], takes the burst for a
    fresh one, and records its own offset. *)
Lemma second_stutter_grain fuel t cursors n vs :
  scheduleGrain zero_random fuel scan_orb t 0 (burst_world (-1) cursors n vs)
  = Some (burst_world 0 cursors (S (S n)) (vs ++ [stutter_voice t 0])).
Proof.
  unfold scheduleGrain, stuttering, draw, zero_random.
  cbn -[JS.ltb JS.gtb Rmax JS.pow clamp_rate wrap_offset].
  real_decide.
  cbn -[JS.ltb JS.gtb Rmax JS.pow clamp_rate wrap_offset].
  replace ((0 + 0 * 0.5) * 4) with 0 by lra.
  rewrite (wrap_offset_within 0 4) by lra. reflexivity.
Qed.

Lemma stutter_advance e frozen cursors n vs :
  advance zero_random e (burst_world frozen cursors n vs)
  = (0.05, burst_world frozen cursors n vs).
Proof. reflexivity. Qed.

Lemma burst_grain_loop (inner : nat) :
  grain_loop zero_random inner 2 0.15 scan_orb 0.15 (burst_world (-1) ∅ 3 [])
  = Some (0.15 + 0.05 + 0.05,
          burst_world 0 ∅ 7
            [stutter_voice 0.15 3; stutter_voice (0.15 + 0.05) 0]).
Proof.
  cbn [grain_loop]. unfold scheduleAheadTime. real_decide.
  unfold grain_step.
  change (globalParams (burst_world (-1) ∅ 3 [])) with burst_params.
  rewrite scan_lfo_trough, first_stutter_grain, stutter_advance.
  change (globalParams (burst_world (-1) ∅ 5 _)) with burst_params.
  rewrite scan_lfo_zero, second_stutter_grain, stutter_advance.
  real_decide. reflexivity.
Qed.

Lemma burst_scheduler :
  scheduler zero_random 2 0.15 idle_world
  = Some (burst_world 0 {[ "scan"%string := 0.15 + 0.05 + 0.05 ]} 7
            [stutter_voice 0.15 3; stutter_voice (0.15 + 0.05) 0]).
Proof.
  unfold scheduler. rewrite burst_entered.
  cbn [orbs burst_world forEach_orb]. unfold visit_orb.
  change (nextGrainTime (burst_world (-1) ∅ 3 []) !! "scan"%string)
    with (@None R).
  cbv iota. real_decide. rewrite burst_grain_loop.
  reflexivity.
Qed.

Lemma burst_tick :
  run zero_random 2
    [UpdateOrbs [scan_orb]; UpdateGlobalParams burst_params; Tick 0.15]
    initial
  = Some (burst_world 0 {[ "scan"%string := 0.15 + 0.05 + 0.05 ]} 7
            [stutter_voice 0.15 3; stutter_voice (0.15 + 0.05) 0]).
Proof.
  cbn [run call]. fold idle_world. rewrite burst_scheduler. reflexivity.
Qed.

(** C3, at the input where it fails.  One scheduler tick at 0.15 s enters
    a STUTTER burst and schedules two grains of the same orb in it.  The
    LFO has pulled the scan position of the first below zero, so the offset
    recorded in [frozenOffset] is negative; the second grain reads that as
    unset and uses its own offset: the two scan offsets are 3 s and 0 s. *)
Theorem stutter_offsets_differ :
  exists w v1 v2,
    run zero_random 2
      [UpdateOrbs [scan_orb]; UpdateGlobalParams burst_params; Tick 0.15]
      initial = Some w /\
    stuttering w = true /\
    voices w = [v1; v2] /\
    v_time v1 = 0.15 /\ v_time v2 = 0.15 + 0.05 /\
    v_offset v1 = 3 /\ v_offset v2 = 0 /\
    v_offset v2 <> v_offset v1.
Proof.
  exists (burst_world 0 {[ "scan"%string := 0.15 + 0.05 + 0.05 ]} 7
            [stutter_voice 0.15 3; stutter_voice (0.15 + 0.05) 0]),
    (stutter_voice 0.15 3), (stutter_voice (0.15 + 0.05) 0).
  split; [exact burst_tick |].
  repeat (split; [reflexivity |]).
  unfold stutter_voice, v_offset. lra.
Qed.

End StutterFacts.

(** ** Scheduler: what a tick leaves alone *)

Section FrameFacts.

Import Engine.
Local Open Scope R_scope.

Variable random : nat -> R.

Lemma grain_frame_refl (w : Engine) : grain_frame w w.
Proof. unfold grain_frame, same_burst. auto 10. Qed.

Lemma stuttering_frame (w w' : Engine) :
  grain_frame w w' -> stuttering w' = stuttering w.
Proof.
  unfold grain_frame, same_burst, stuttering.
  intros (_ & _ & (Ha & Hm & _) & _). rewrite Ha, Hm. reflexivity.
Qed.

Lemma grain_frame_trans (w1 w2 w3 : Engine) :
  grain_frame w1 w2 -> grain_frame w2 w3 -> grain_frame w1 w3.
Proof.
  intros H12 H23. pose proof (stuttering_frame _ _ H12) as Hst.
  destruct H12 as (Ho & Hg & (Ha & Hm & He) & Hi).
  destruct H23 as (Ho' & Hg' & (Ha' & Hm' & He') & Hi').
  unfold grain_frame, same_burst.
  repeat split; try congruence.
  intros Hidle. rewrite Hi' by congruence. auto.
Qed.

(** The cursor advance draws at most one random number and touches nothing
    else. *)
Lemma advance_world (e : R) (w : Engine) :
  snd (advance random e w) = w \/
  snd (advance random e w) = with_rng (S (rng w)) w.
Proof.
  unfold advance, draw.
  destruct (stuttering w); [left; reflexivity |].
  destruct (beatSync (globalParams w)); right; reflexivity.
Qed.

Lemma advance_frame (e : R) (w : Engine) :
  grain_frame w (snd (advance random e w)) /\
  nextGrainTime (snd (advance random e w)) = nextGrainTime w /\
  voices (snd (advance random e w)) = voices w.
Proof.
  destruct (advance_world e w) as [-> | ->];
    unfold grain_frame, same_burst; cbn; auto 10.
Qed.

Lemma scheduleGrain_frame fuel orb time lfoVal w w' :
  scheduleGrain random fuel orb time lfoVal w = Some w' ->
  grain_frame w w' /\ nextGrainTime w' = nextGrainTime w.
Proof.
  intros H. destruct (buffer orb) as [buf |] eqn:Hbuf.
  - destruct (scheduleGrain_voice random _ _ _ _ _ _ _ Hbuf H)
      as (v & _ & _ & _ & _ & Ho & Hg & Hn & _ & Hb & Hi & _).
    unfold grain_frame. auto.
  - rewrite (scheduleGrain_no_buffer random _ _ _ _ _ Hbuf) in H.
    injection H as <-. split; [apply grain_frame_refl | reflexivity].
Qed.

(** The voices one call adds: none without a buffer, else one, of this orb
    and at the requested time. *)
Lemma scheduleGrain_voices fuel orb time lfoVal w w' :
  scheduleGrain random fuel orb time lfoVal w = Some w' ->
  voices w' = voices w \/
  exists v, voices w' = voices w ++ [v] /\
            v_orb v = id orb /\ v_time v = time.
Proof.
  intros H. destruct (buffer orb) as [buf |] eqn:Hbuf.
  - destruct (scheduleGrain_voice random _ _ _ _ _ _ _ Hbuf H)
      as (v & Hv & Hid & Ht & _).
    right. exists v. auto.
  - rewrite (scheduleGrain_no_buffer random _ _ _ _ _ Hbuf) in H.
    injection H as <-. left. reflexivity.
Qed.

Lemma grain_step_frame fuel orb nextTime w nextTime' w' :
  grain_step random fuel orb nextTime w = Some (nextTime', w') ->
  grain_frame w w' /\ nextGrainTime w' = nextGrainTime w.
Proof.
  unfold grain_step. intros H.
  destruct (scheduleGrain random fuel orb nextTime _ w) as [w1 |] eqn:E;
    [| discriminate].
  destruct (scheduleGrain_frame _ _ _ _ _ _ E) as [Hf Hn].
  match type of H with
  | context [advance random ?e w1] =>
      destruct (advance_frame e w1) as (Hf' & Hn' & _);
      destruct (advance random e w1) as [step w2]
  end.
  injection H as _ <-. cbn in *.
  split; [exact (grain_frame_trans _ _ _ Hf Hf') | congruence].
Qed.

Lemma grain_loop_frame inner fuel currentTime orb :
  forall nextTime w nextTime' w',
    grain_loop random inner fuel currentTime orb nextTime w
    = Some (nextTime', w') ->
    grain_frame w w' /\ nextGrainTime w' = nextGrainTime w.
Proof.
  induction fuel as [| fuel IH]; intros nextTime w nextTime' w' H;
    cbn [grain_loop] in H;
    destruct (JS.ltb nextTime (currentTime + scheduleAheadTime));
    try discriminate.
  - injection H as _ <-. split; [apply grain_frame_refl | reflexivity].
  - destruct (grain_step random inner orb nextTime w) as [[t1 w1] |] eqn:E;
      [| discriminate].
    destruct (grain_step_frame _ _ _ _ _ _ E) as [Hf Hn].
    destruct (IH _ _ _ _ H) as [Hf' Hn'].
    split; [exact (grain_frame_trans _ _ _ Hf Hf') | congruence].
  - injection H as _ <-. split; [apply grain_frame_refl | reflexivity].
Qed.

(** Visiting an orb writes its cursor, and no other. *)
Lemma visit_orb_frame fuel currentTime key orb w w' :
  visit_orb random fuel currentTime key orb w = Some w' ->
  grain_frame w w' /\
  exists nextTime, nextGrainTime w' = <[key := nextTime]> (nextGrainTime w).
Proof.
  unfold visit_orb. intros H.
  match type of H with
  | context [grain_loop random fuel fuel currentTime orb ?t w] =>
      destruct (grain_loop random fuel fuel currentTime orb t w)
        as [[nextTime w1] |] eqn:E; [| discriminate]
  end.
  destruct (grain_loop_frame _ _ _ _ _ _ _ _ E) as [Hf Hn].
  injection H as <-. split.
  - destruct Hf as (Ho & Hg & Hb & Hi). unfold grain_frame. cbn. auto.
  - exists nextTime. cbn. rewrite Hn. reflexivity.
Qed.

(** After the [forEach], every visited key has a cursor, and the cursors of
    all other keys are as before. *)
Lemma forEach_orb_frame fuel currentTime entries :
  forall w w',
    forEach_orb random fuel currentTime entries w = Some w' ->
    grain_frame w w' /\
    (forall k, In k (map fst entries) -> is_Some (nextGrainTime w' !! k)) /\
    (forall k, ~ In k (map fst entries) ->
               nextGrainTime w' !! k = nextGrainTime w !! k) /\
    (forall k, is_Some (nextGrainTime w !! k) ->
               is_Some (nextGrainTime w' !! k)).
Proof.
  induction entries as [| [key orb] rest IH]; intros w w' H; cbn in H.
  - injection H as <-. split; [apply grain_frame_refl |].
    split; [intros k [] |]. split; auto.
  - destruct (visit_orb random fuel currentTime key orb w) as [w1 |] eqn:E;
      [| discriminate].
    destruct (visit_orb_frame _ _ _ _ _ _ E) as [Hf [nextTime Hn]].
    destruct (IH _ _ H) as (Hf' & Hin & Hout & Hkeep).
    assert (Hkeep1 : forall k, is_Some (nextGrainTime w !! k) ->
                               is_Some (nextGrainTime w1 !! k)).
    { intros k Hk. rewrite Hn.
      destruct (decide (key = k)) as [-> | Hne].
      - rewrite lookup_insert_eq. eauto.
      - rewrite lookup_insert_ne by exact Hne. exact Hk. }
    split; [exact (grain_frame_trans _ _ _ Hf Hf') |].
    split; [| split].
    + intros k [<- | Hk].
      * apply Hkeep. rewrite Hn, lookup_insert_eq. eauto.
      * apply Hin. exact Hk.
    + intros k Hk. cbn in Hk.
      rewrite Hout by tauto. rewrite Hn.
      apply lookup_insert_ne. tauto.
    + intros k Hk. apply Hkeep, Hkeep1, Hk.
Qed.

Lemma glitch_tick_frame currentTime w :
  orbs (glitch_tick random currentTime w) = orbs w /\
  globalParams (glitch_tick random currentTime w) = globalParams w /\
  nextGrainTime (glitch_tick random currentTime w) = nextGrainTime w /\
  voices (glitch_tick random currentTime w) = voices w.
Proof.
  unfold glitch_tick, glitch_expire, glitch_trigger, glitch_enter, draw.
  repeat match goal with
         | |- context [if ?b then _ else _] => destruct b
         end; cbn; auto.
Qed.

(** A tick as a whole: the glitch fields are those the state machine set at
    its head, the orbs and parameters are untouched, every registered orb
    has a cursor afterwards, and no cursor is ever removed. *)
Lemma scheduler_frame fuel currentTime w w' :
  scheduler random fuel currentTime w = Some w' ->
  orbs w' = orbs w /\ globalParams w' = globalParams w /\
  same_burst (glitchState (glitch_tick random currentTime w))
             (glitchState w') /\
  (stuttering (glitch_tick random currentTime w) = false ->
   glitchState w' = glitchState (glitch_tick random currentTime w)) /\
  (forall k, In k (map fst (orbs w)) -> is_Some (nextGrainTime w' !! k)) /\
  (forall k, ~ In k (map fst (orbs w)) ->
             nextGrainTime w' !! k = nextGrainTime w !! k) /\
  (forall k, is_Some (nextGrainTime w !! k) ->
             is_Some (nextGrainTime w' !! k)).
Proof.
  unfold scheduler. intros H.
  destruct (glitch_tick_frame currentTime w) as (Ho & Hg & Hn & _).
  destruct (forEach_orb_frame _ _ _ _ _ H)
    as ((Ho' & Hg' & Hb & Hi) & Hin & Hout & Hkeep).
  rewrite Ho in *. rewrite Hn in *.
  split; [congruence |]. split; [congruence |].
  split; [exact Hb |]. auto.
Qed.

End FrameFacts.

(** ** Grain synthesizer: a voice that stands still *)

Section ZeroRate.

Import Engine.
Local Open Scope R_scope.

Variable random : nat -> R.

(** The LFO of the wobbling orb bottoms out at -1, for instance at 1.5 s. *)
Lemma wobble_lfo_trough :
  lfo_sample (globalParams initial) (params wobble_orb) 1.5 = -1.
Proof.
  unfold lfo_sample. cbn.
  replace (1.5 * 0.5 * 2 * PI) with (3 * (PI / 2)) by lra.
  rewrite sin_3PI2. lra.
Qed.

(** The grain of the wobbling orb at an LFO sample of -1. *)
Lemma wobble_grain (fuel : nat) (time : R) :
  exists w' v,
    scheduleGrain random fuel wobble_orb time (-1) initial = Some w' /\
    voices w' = [v] /\ v_time v = time /\ v_playbackRate v = 0.
Proof.
  unfold scheduleGrain. cbn -[Rmax JS.pow clamp_rate wrap_offset].
  eexists. eexists. split; [reflexivity |].
  cbn -[Rmax JS.pow clamp_rate wrap_offset].
  split; [reflexivity |]. split; [reflexivity |].
  replace ((1.0 + -1) * 1 * _) with 0 by lra. apply clamp_rate_zero.
Qed.

(** C2, at the input where it fails.  With the LFO on the pitch and an
    LFO sample of -1 the rate before clamping is 0; [Math.sign(0)] is 0, so
    the first clamping statement stores [0.05 * 0] and the voice starts with
    [playbackRate = 0], outside [0.05, 4] in magnitude.  The scheduler
    reaches this input by itself: the turn of its loop at 1.5 s samples the
    LFO at -1 and starts such a voice. *)
Theorem scheduleGrain_zero_rate (fuel : nat) (time : R) :
  (exists w' v,
      scheduleGrain random fuel wobble_orb time (-1) initial = Some w' /\
      voices w' = [v] /\
      v_playbackRate v = 0 /\
      ~ (0.05 <= Rabs (v_playbackRate v) <= 4.0)) /\
  (exists nextTime' w' v,
      grain_step random fuel wobble_orb 1.5 initial = Some (nextTime', w') /\
      voices w' = [v] /\
      v_time v = 1.5 /\
      v_playbackRate v = 0).
Proof.
  split.
  - destruct (wobble_grain fuel time) as (w' & v & Hrun & Hv & _ & Hrate).
    exists w', v. repeat (split; [assumption |]).
    rewrite Hrate, Rabs_R0. lra.
  - destruct (wobble_grain fuel 1.5) as (w1 & v & Hrun & Hv & Ht & Hrate).
    unfold grain_step. rewrite wobble_lfo_trough, Hrun.
    match goal with
    | |- context [advance random ?e w1] =>
        destruct (advance_frame random e w1) as (_ & _ & Hvs);
        destruct (advance random e w1) as [step w2]
    end.
    cbn in Hvs. exists (1.5 + step), w2, v.
    split; [reflexivity |]. rewrite Hvs. auto.
Qed.

End ZeroRate.

(** ** A quiet tick, evaluated *)

Section QuietTick.

Import Engine.
Local Open Scope R_scope.

Lemma sqrt_half_bound : sqrt 0.5 < 0.75.
Proof.
  replace 0.75 with (sqrt (0.75 * 0.75)) by (apply sqrt_square; lra).
  apply sqrt_lt_1_alt. lra.
Qed.

Lemma pad_step_long : 0.1 <= pad_step.
Proof.
  unfold pad_step, free_run_interval.
  replace (Rmax 0.01 (Rmin 1.0 0.5)) with 0.5
    by (unfold Rmax, Rmin; real_cases).
  pose proof sqrt_half_bound.
  apply Rle_trans with (2 := Rmax_r _ _). lra.
Qed.

Lemma pad_tick : scheduler zero_random 1 0 pad_world = Some pad_world_after.
Proof.
  unfold scheduler, glitch_tick, glitch_trigger, glitch_expire.
  cbn -[JS.ltb JS.gtb forEach_orb]. real_decide.
  cbn -[JS.ltb JS.gtb forEach_orb]. unfold forEach_orb, visit_orb.
  change (nextGrainTime pad_world !! "pad"%string) with (@None R).
  cbv iota. real_decide.
  cbn [grain_loop]. unfold scheduleAheadTime. real_decide.
  unfold grain_step, scheduleGrain, advance, draw, stuttering, zero_random.
  cbn -[JS.ltb JS.gtb Rmax Rmin JS.pow clamp_rate wrap_offset
        free_run_interval lfo_sample].
  fold pad_step.
  rewrite (ltb_ge (0 + pad_step) (0 + 0.1))
    by (pose proof pad_step_long; lra).
  reflexivity.
Qed.

End QuietTick.

(** ** Glitch state machine *)

Section GlitchFacts.

Import Engine.
Local Open Scope R_scope.

Variable random : nat -> R.

(** Below the chaos threshold the head of the scheduler does nothing to an
    idle machine: no draw, no write. *)
Lemma glitch_tick_gated currentTime w :
  chaos (globalParams w) <= 0.05 ->
  active (glitchState w) = false ->
  glitch_tick random currentTime w = w.
Proof.
  intros Hc Ha. unfold glitch_tick, glitch_trigger, glitch_expire.
  rewrite gtb_le by exact Hc. rewrite Ha. reflexivity.
Qed.

(** During a burst the head of the scheduler does nothing either. *)
Lemma glitch_tick_mid_burst currentTime w :
  active (glitchState w) = true ->
  currentTime <= endTime (glitchState w) ->
  glitch_tick random currentTime w = w.
Proof.
  intros Ha Ht. unfold glitch_tick, glitch_trigger, glitch_expire.
  rewrite Ha. cbn [negb].
  destruct (JS.gtb (chaos (globalParams w)) 0.05);
    rewrite Ha, gtb_le by exact Ht; reflexivity.
Qed.

(** Past [endTime] it reverts to NONE. *)
Lemma glitch_tick_expiry currentTime w :
  active (glitchState w) = true ->
  endTime (glitchState w) < currentTime ->
  glitch_tick random currentTime w
  = with_glitchState
      {| active := false; endTime := endTime (glitchState w); mode := NONE;
         frozenOffset := -1 |} w.
Proof.
  intros Ha Ht. unfold glitch_tick, glitch_trigger, glitch_expire.
  rewrite Ha. cbn [negb].
  destruct (JS.gtb (chaos (globalParams w)) 0.05);
    rewrite Ha, gtb_gt by exact Ht; reflexivity.
Qed.

(** Entering a burst: an active mode, an end between 0.1 s and 0.3 s
    ahead, and an unset [frozenOffset]. *)
Lemma glitch_tick_entry currentTime w :
  (forall n, 0 <= random n < 1) ->
  active (glitchState w) = false ->
  active (glitchState (glitch_tick random currentTime w)) = true ->
  let g' := glitchState (glitch_tick random currentTime w) in
  mode g' <> NONE /\ 0.1 <= endTime g' - currentTime <= 0.3 /\
  frozenOffset g' = -1.
Proof.
  intros Hrand Ha. unfold glitch_tick, glitch_trigger.
  destruct (JS.gtb (chaos (globalParams w)) 0.05).
  - rewrite Ha. cbn [negb]. unfold draw.
    destruct (JS.ltb (random (rng w)) (chaos (globalParams w) * 0.05)).
    + unfold glitch_enter, draw, glitch_expire. cbn -[JS.ltb JS.gtb].
      pose proof (Hrand (S (rng w))) as Hd.
      rewrite gtb_le by lra. cbn -[JS.ltb JS.gtb]. intros _.
      split; [| split; [lra | reflexivity]].
      destruct (JS.ltb (random (S (S (rng w)))) 0.33); [discriminate |].
      destruct (JS.ltb (random (S (S (rng w)))) 0.66); discriminate.
    + unfold glitch_expire. cbn. rewrite Ha. cbn. congruence.
  - unfold glitch_expire. rewrite Ha. cbn. congruence.
Qed.

(** The same three facts for a whole tick. *)
Lemma scheduler_mid_burst fuel currentTime w w' :
  active (glitchState w) = true ->
  currentTime <= endTime (glitchState w) ->
  scheduler random fuel currentTime w = Some w' ->
  same_burst (glitchState w) (glitchState w').
Proof.
  intros Ha Ht H.
  destruct (scheduler_frame random _ _ _ _ H) as (_ & _ & Hb & _).
  rewrite (glitch_tick_mid_burst _ _ Ha Ht) in Hb. exact Hb.
Qed.

Lemma scheduler_expiry fuel currentTime w w' :
  active (glitchState w) = true ->
  endTime (glitchState w) < currentTime ->
  scheduler random fuel currentTime w = Some w' ->
  active (glitchState w') = false /\ mode (glitchState w') = NONE /\
  frozenOffset (glitchState w') = -1.
Proof.
  intros Ha Ht H.
  destruct (scheduler_frame random _ _ _ _ H) as (_ & _ & _ & Hi & _).
  rewrite (glitch_tick_expiry _ _ Ha Ht) in Hi.
  rewrite Hi by reflexivity. cbn. auto.
Qed.

Lemma run_mid_burst fuel calls :
  forall w w',
    active (glitchState w) = true ->
    Forall (not_after (endTime (glitchState w))) calls ->
    run random fuel calls w = Some w' ->
    same_burst (glitchState w) (glitchState w').
Proof.
  induction calls as [| c rest IH]; intros w w' Ha Hcalls H; cbn in H.
  - injection H as <-. unfold same_burst. auto.
  - inversion Hcalls as [| ? ? Hc Hrest]; subst.
    destruct (call random fuel c w) as [w1 |] eqn:E; [| discriminate].
    assert (Hb : same_burst (glitchState w) (glitchState w1)).
    { destruct c as [t | l | p]; cbn in E.
      - exact (scheduler_mid_burst _ _ _ _ Ha Hc E).
      - injection E as <-. unfold same_burst. cbn. auto.
      - injection E as <-. unfold same_burst. cbn. auto. }
    destruct Hb as (Ha1 & Hm1 & He1).
    assert (Hb' : same_burst (glitchState w1) (glitchState w')).
    { apply IH; [congruence | rewrite He1; exact Hrest | exact H]. }
    destruct Hb' as (Ha' & Hm' & He').
    unfold same_burst. repeat split; congruence.
Qed.

(** C5.  Every glitch burst ends by itself.  When a tick at time [t]
    takes the machine from idle to active, the mode is one of the three
    active ones and [endTime - t] lies in [0.1, 0.3].  Through any further
    calls whose ticks are not after [endTime] the machine stays active in
    the same mode with the same [endTime].  The first tick after [endTime]
    clears [active], sets the mode to NONE and resets [frozenOffset]. *)
Theorem glitch_burst_self_terminates
    (fuel : nat) (t : R) (w w1 : Engine) :
  (forall n, 0 <= random n < 1) ->
  scheduler random fuel t w = Some w1 ->
  active (glitchState w) = false ->
  active (glitchState w1) = true ->
  (mode (glitchState w1) <> NONE /\
   0.1 <= endTime (glitchState w1) - t <= 0.3) /\
  forall calls w2,
    Forall (not_after (endTime (glitchState w1))) calls ->
    run random fuel calls w1 = Some w2 ->
    (active (glitchState w2) = true /\
     mode (glitchState w2) = mode (glitchState w1) /\
     endTime (glitchState w2) = endTime (glitchState w1)) /\
    forall t' w3,
      endTime (glitchState w1) < t' ->
      scheduler random fuel t' w2 = Some w3 ->
      active (glitchState w3) = false /\ mode (glitchState w3) = NONE /\
      frozenOffset (glitchState w3) = -1.
Proof.
  intros Hrand Htick Hidle Hact.
  destruct (scheduler_frame random _ _ _ _ Htick)
    as (_ & _ & (Ha & Hm & He) & _).
  assert (Hin : active (glitchState (glitch_tick random t w)) = true)
    by congruence.
  destruct (glitch_tick_entry t w Hrand Hidle Hin) as (Hmode & Hend & _).
  split.
  - rewrite Hm, He. split; assumption.
  - intros calls w2 Hcalls Hrun.
    destruct (run_mid_burst fuel calls w1 w2 Hact Hcalls Hrun)
      as (Ha2 & Hm2 & He2).
    split; [repeat split; congruence |].
    intros t' w3 Hlate Hlast.
    apply (scheduler_expiry fuel t' w2 w3); congruence.
Qed.

(** C6.  With the chaos parameter at 0, or anywhere up to the 0.05
    threshold, the machine never leaves NONE: over any sequence of ticks
    and updates the glitch state stays what it was, and the head of the
    scheduler makes no draw and no write. *)
Theorem chaos_off_never_glitches (fuel : nat) (calls : list Call)
    (w w' : Engine) :
  active (glitchState w) = false ->
  mode (glitchState w) = NONE ->
  chaos (globalParams w) <= 0.05 ->
  Forall keeps_quiet calls ->
  run random fuel calls w = Some w' ->
  active (glitchState w') = false /\ mode (glitchState w') = NONE /\
  glitchState w' = glitchState w /\
  forall currentTime, glitch_tick random currentTime w' = w'.
Proof.
  revert w. induction calls as [| c rest IH];
    intros w Ha Hm Hc Hcalls H; cbn in H.
  - injection H as <-. repeat split; auto.
    intros currentTime. apply glitch_tick_gated; assumption.
  - inversion Hcalls as [| ? ? Hq Hrest]; subst.
    destruct (call random fuel c w) as [w1 |] eqn:E; [| discriminate].
    assert (H1 : glitchState w1 = glitchState w /\
                 chaos (globalParams w1) <= 0.05).
    { destruct c as [t | l | p]; cbn in E.
      - destruct (scheduler_frame random _ _ _ _ E)
          as (_ & Hg & _ & Hi & _).
        rewrite (glitch_tick_gated t w Hc Ha) in Hi.
        split; [| rewrite Hg; exact Hc].
        apply Hi. unfold stuttering. rewrite Ha. reflexivity.
      - injection E as <-. cbn. auto.
      - injection E as <-. cbn. auto. }
    destruct H1 as [Hg1 Hc1].
    destruct (IH w1) as (Ha' & Hm' & Hg' & Hno); try congruence; auto.
    repeat split; solve [congruence | exact Hno].
Qed.

End GlitchFacts.

Section GlitchWitnesses.

Import Engine.
Local Open Scope R_scope.

Lemma glitch_burst_self_terminates_witness :
  mode (glitchState
          (burst_world 0 {[ "scan"%string := 0.15 + 0.05 + 0.05 ]} 7
             [stutter_voice 0.15 3; stutter_voice (0.15 + 0.05) 0]))
  <> NONE /\
  0.1 <= (0.15 + (0.1 + 0 * 0.2)) - 0.15 <= 0.3.
Proof.
  refine (proj1 (glitch_burst_self_terminates zero_random 2 0.15 idle_world
                   _ _ burst_scheduler eq_refl eq_refl)).
  intros n. unfold zero_random. lra.
Defined.

Lemma chaos_off_never_glitches_witness :
  active (glitchState pad_world_after) = false /\
  mode (glitchState pad_world_after) = NONE.
Proof.
  assert (Hrun : run zero_random 1
                   [UpdateOrbs [pad_orb]; Tick 0]
                   initial = Some pad_world_after).
  { cbn [run call]. fold pad_world. rewrite pad_tick.
    reflexivity. }
  assert (Hchaos : chaos (globalParams initial) <= 0.05) by (cbn; lra).
  assert (Hcalls : Forall keeps_quiet
                     [UpdateOrbs [pad_orb]; Tick 0])
    by (repeat constructor).
  destruct (chaos_off_never_glitches zero_random 1
              [UpdateOrbs [pad_orb]; Tick 0] initial pad_world_after
              eq_refl eq_refl Hchaos Hcalls Hrun) as (Ha & Hm & _).
  split; assumption.
Defined.

End GlitchWitnesses.

(** ** Scheduler: grains of one orb are in strictly increasing time order *)

Section OrderFacts.

Import Engine.
Local Open Scope R_scope.

Variable random : nat -> R.
Hypothesis random_range : forall n, 0 <= random n < 1.

Lemma subdivision_range (d : R) : 0.125 <= subdivision_of d <= 1.
Proof.
  unfold subdivision_of.
  destruct (JS.ltb d 0.25); [lra |].
  destruct (JS.ltb d 0.5); [lra |].
  destruct (JS.ltb d 0.75); lra.
Qed.

Lemma min_step_pos (g : GlobalParams) : 0 < masterBpm g -> 0 < min_step g.
Proof.
  intros Hm. unfold min_step.
  assert (0 < 60 / masterBpm g) by (apply Rdiv_lt_0_compat; lra).
  apply Rmin_glb_lt; lra.
Qed.

(** The three branches of the next-time calculation. *)
Lemma advance_step (e : R) (w : Engine) :
  0 < masterBpm (globalParams w) ->
  let g := globalParams w in
  let step := fst (advance random e w) in
  (stuttering w = true -> step = 0.05) /\
  (stuttering w = false -> beatSync g = true ->
   let interval := 60 / masterBpm g * subdivision_of (Rmax 0 (Rmin 1 e)) in
   0 < interval /\ 0.975 * interval <= step < 1.025 * interval) /\
  (stuttering w = false -> beatSync g = false -> 0.005 <= step) /\
  min_step g <= step.
Proof.
  intros Hm g step. subst g step. unfold advance, draw.
  pose proof (random_range (rng w)) as Hr.
  pose proof (subdivision_range (Rmax 0 (Rmin 1 e))) as Hs.
  assert (Hbeat : 0 < 60 / masterBpm (globalParams w))
    by (apply Rdiv_lt_0_compat; lra).
  pose proof (Rmin_l 0.005 (0.975 * (60 / masterBpm (globalParams w) * 0.125)))
    as Hmin_l.
  pose proof (Rmin_r 0.005 (0.975 * (60 / masterBpm (globalParams w) * 0.125)))
    as Hmin_r.
  unfold min_step.
  destruct (stuttering w).
  - cbn [fst]. repeat split; try discriminate; lra.
  - destruct (beatSync (globalParams w)).
    + cbn [fst]. rewrite or_else_nonzero by lra.
      set (interval := 60 / masterBpm (globalParams w)
                       * subdivision_of (Rmax 0 (Rmin 1 e))).
      assert (Hi : 60 / masterBpm (globalParams w) * 0.125 <= interval)
        by (unfold interval; apply Rmult_le_compat_l; lra).
      assert (Hi0 : 0 < interval) by lra.
      repeat split; try discriminate; intros; try nra.
    + cbn [fst].
      match goal with
      | |- context [Rmax 0.005 ?x] => pose proof (Rmax_l 0.005 x)
      end.
      repeat split; try discriminate; intros; lra.
Qed.

Lemma advance_forward (e : R) (w : Engine) :
  0 < masterBpm (globalParams w) -> 0 < fst (advance random e w).
Proof.
  intros Hm. pose proof (advance_step e w Hm) as (_ & _ & _ & H).
  pose proof (min_step_pos _ Hm). cbv zeta in H. lra.
Qed.

Lemma orb_times_app (k : string) (vs vs' : list Voice) :
  orb_times k (vs ++ vs') = orb_times k vs ++ orb_times k vs'.
Proof. unfold orb_times. rewrite List.filter_app, map_app. reflexivity. Qed.

Lemma orb_times_own (k : string) (vs : list Voice) :
  Forall (fun v => v_orb v = k) vs -> orb_times k vs = map v_time vs.
Proof.
  unfold orb_times. induction 1 as [| v vs Hv _ IH]; [reflexivity |].
  cbn. rewrite Hv, String.eqb_refl. cbn. rewrite IH. reflexivity.
Qed.

Lemma orb_times_other (k k' : string) (vs : list Voice) :
  k' <> k -> Forall (fun v => v_orb v = k') vs -> orb_times k vs = [].
Proof.
  unfold orb_times. intros Hne.
  induction 1 as [| v vs Hv _ IH]; [reflexivity |].
  cbn. rewrite Hv. rewrite (proj2 (String.eqb_neq k' k) Hne). exact IH.
Qed.

Lemma orb_times_In (k : string) (vs : list Voice) (x : R) :
  In x (orb_times k vs) -> exists v, In v vs /\ v_orb v = k /\ v_time v = x.
Proof.
  unfold orb_times. rewrite in_map_iff. intros (v & Hx & Hv).
  apply List.filter_In in Hv. destruct Hv as [Hv Hk].
  apply String.eqb_eq in Hk. exists v. auto.
Qed.

Lemma increasing_app (l1 l2 : list R) :
  increasing l1 -> increasing l2 ->
  (forall x y, In x l1 -> In y l2 -> x < y) ->
  increasing (l1 ++ l2).
Proof.
  unfold increasing. intros H1 H2 Hsep.
  induction l1 as [| a l1 IH]; [exact H2 |].
  apply StronglySorted_inv in H1. destruct H1 as [H1 Ha].
  cbn. constructor.
  - apply IH; [exact H1 |]. intros x y Hx Hy. apply Hsep; [right |]; auto.
  - apply Forall_app. split; [exact Ha |].
    apply List.Forall_forall. intros y Hy. apply Hsep; [left |]; auto.
Qed.

(** One turn of the loop moves the cursor forward by at least [min_step]
    and starts at most one voice, at the old cursor. *)
Lemma grain_step_voices fuel orb nextTime w nextTime' w' :
  0 < masterBpm (globalParams w) ->
  grain_step random fuel orb nextTime w = Some (nextTime', w') ->
  nextTime + min_step (globalParams w) <= nextTime' /\
  (voices w' = voices w \/
   exists v, voices w' = voices w ++ [v] /\
             v_orb v = id orb /\ v_time v = nextTime).
Proof.
  unfold grain_step. intros Hm H.
  destruct (scheduleGrain random fuel orb nextTime _ w) as [w1 |] eqn:E;
    [| discriminate].
  destruct (scheduleGrain_frame random _ _ _ _ _ _ E) as [(_ & Hg & _) _].
  pose proof (scheduleGrain_voices random _ _ _ _ _ _ E) as Hv.
  match type of H with
  | context [advance random ?e w1] =>
      destruct (advance_frame random e w1) as (_ & _ & Hvs);
      assert (Hm1 : 0 < masterBpm (globalParams w1)) by (rewrite Hg; exact Hm);
      pose proof (advance_step e w1 Hm1) as (_ & _ & _ & Hstep);
      destruct (advance random e w1) as [step w2]
  end.
  injection H as <- <-. cbn in Hvs, Hstep. rewrite Hg in Hstep.
  split; [lra |]. rewrite Hvs. exact Hv.
Qed.

(** The whole loop: it leaves at or past the horizon, and the voices it
    started are of this orb, strictly increasing in time, from the cursor
    it started at up to the cursor it ends with. *)
Lemma grain_loop_voices inner fuel currentTime orb :
  forall nextTime w nextTime' w',
    0 < masterBpm (globalParams w) ->
    grain_loop random inner fuel currentTime orb nextTime w
    = Some (nextTime', w') ->
    nextTime <= nextTime' /\
    currentTime + scheduleAheadTime <= nextTime' /\
    exists vs,
      voices w' = voices w ++ vs /\
      Forall (fun v => v_orb v = id orb) vs /\
      Forall (fun x => nextTime <= x < nextTime') (map v_time vs) /\
      increasing (map v_time vs).
Proof.
  induction fuel as [| fuel IH]; intros nextTime w nextTime' w' Hm H;
    cbn [grain_loop] in H;
    destruct (JS.ltb nextTime (currentTime + scheduleAheadTime)) eqn:Eh;
    try discriminate.
  - injection H as <- <-. apply ltb_false_iff in Eh.
    split; [lra |]. split; [exact Eh |].
    exists []. rewrite app_nil_r. repeat split; constructor.
  - destruct (grain_step random inner orb nextTime w) as [[t1 w1] |] eqn:E;
      [| discriminate].
    destruct (grain_step_voices _ _ _ _ _ _ Hm E) as [Hstep Hv1].
    destruct (grain_step_frame random _ _ _ _ _ _ E) as [(_ & Hg & _) _].
    pose proof (min_step_pos _ Hm) as Hpos.
    assert (Hm1 : 0 < masterBpm (globalParams w1)) by (rewrite Hg; exact Hm).
    destruct (IH _ _ _ _ Hm1 H) as (Hle & Hexit & vs2 & Hv2 & Hid2 & Hr2 & Hs2).
    split; [lra |]. split; [exact Hexit |].
    assert (Hr2' : Forall (fun x => nextTime <= x < nextTime')
                     (map v_time vs2)).
    { revert Hr2. apply List.Forall_impl. intros x Hx. lra. }
    destruct Hv1 as [Hv1 | (v & Hv1 & Hid & Ht)].
    + exists vs2. rewrite Hv2, Hv1. auto.
    + exists (v :: vs2). rewrite Hv2, Hv1, <- app_assoc. cbn.
      split; [reflexivity |]. split; [constructor; assumption |].
      split.
      * constructor; [lra | exact Hr2'].
      * constructor; [exact Hs2 |].
        revert Hr2. apply List.Forall_impl. intros x Hx. lra.
  - injection H as <- <-. apply ltb_false_iff in Eh.
    split; [lra |]. split; [exact Eh |].
    exists []. rewrite app_nil_r. repeat split; constructor.
Qed.

Lemma map_set_keyed (orb : AudioOrb) (m : list (string * AudioOrb)) :
  keyed_by_id m -> keyed_by_id (map_set (id orb) orb m).
Proof.
  unfold keyed_by_id. induction 1 as [| [k v] rest Hk Hrest IH]; cbn.
  - constructor; [reflexivity | constructor].
  - destruct (String.eqb (id orb) k).
    + constructor; [reflexivity | assumption].
    + constructor; assumption.
Qed.

Lemma updateOrbs_keyed (orbsList : list AudioOrb) (w : Engine) :
  keyed_by_id (orbs (updateOrbs orbsList w)).
Proof.
  unfold updateOrbs. cbn.
  assert (G : forall m, keyed_by_id m ->
                keyed_by_id
                  (fold_left (fun m orb => map_set (id orb) orb m) orbsList m)).
  { induction orbsList as [| o rest IH]; intros m Hm; cbn; [exact Hm |].
    apply IH, map_set_keyed, Hm. }
  apply G. constructor.
Qed.

Lemma visit_orb_inv fuel currentTime key orb w w' :
  0 <= currentTime ->
  0 < masterBpm (globalParams w) ->
  id orb = key ->
  cursor_inv w ->
  visit_orb random fuel currentTime key orb w = Some w' ->
  cursor_inv w'.
Proof.
  intros Ht Hm Hid (Hpos & Hbelow & Hsorted). unfold visit_orb.
  set (nextTime0 := match nextGrainTime w !! key with
                    | Some t => JS.or_else t currentTime
                    | None => currentTime
                    end).
  set (nextTime1 := if JS.ltb nextTime0 currentTime
                    then currentTime else nextTime0).
  intros H.
  destruct (grain_loop random fuel fuel currentTime orb nextTime1 w)
    as [[nextTime w1] |] eqn:E; [| discriminate].
  injection H as <-.
  destruct (grain_loop_frame random _ _ _ _ _ _ _ _ E) as [_ Hn].
  destruct (grain_loop_voices _ _ _ _ _ _ _ _ Hm E)
    as (Hle & Hexit & vs & Hvs & Hown & Hrange & Hinc).
  unfold scheduleAheadTime in Hexit.
  assert (Hcur : forall c, nextGrainTime w !! key = Some c -> c <= nextTime1).
  { intros c Hc. subst nextTime1 nextTime0. rewrite Hc.
    rewrite or_else_nonzero by (specialize (Hpos _ _ Hc); lra).
    unfold JS.ltb. destruct (Rlt_dec c currentTime); lra. }
  rewrite Hid in Hown.
  unfold cursor_inv. cbn [nextGrainTime voices with_nextGrainTime].
  rewrite Hn, Hvs. split; [| split].
  - intros k c. destruct (decide (key = k)) as [<- | Hne].
    + rewrite lookup_insert_eq. intros [= <-]. lra.
    + rewrite lookup_insert_ne by exact Hne. apply Hpos.
  - intros v Hv. apply in_app_or in Hv. destruct Hv as [Hv | Hv].
    + destruct (Hbelow v Hv) as (c & Hc & Hlt).
      destruct (decide (key = v_orb v)) as [Hk | Hne].
      * exists nextTime. rewrite <- Hk, lookup_insert_eq.
        split; [reflexivity |].
        rewrite <- Hk in Hc. specialize (Hcur c Hc). lra.
      * exists c. rewrite lookup_insert_ne by exact Hne. auto.
    + exists nextTime.
      rewrite (proj1 (List.Forall_forall _ _) Hown v Hv), lookup_insert_eq.
      split; [reflexivity |].
      assert (Hx : In (v_time v) (map v_time vs)) by (apply in_map; exact Hv).
      pose proof (proj1 (List.Forall_forall _ _) Hrange _ Hx). cbn in *. lra.
  - intros k. rewrite orb_times_app.
    destruct (decide (key = k)) as [<- | Hne].
    + rewrite (orb_times_own key vs Hown).
      apply increasing_app; [apply Hsorted | exact Hinc |].
      intros x y Hx Hy.
      destruct (orb_times_In _ _ _ Hx) as (v & Hv & Hk & <-).
      destruct (Hbelow v Hv) as (c & Hc & Hlt).
      rewrite Hk in Hc. specialize (Hcur c Hc).
      pose proof (proj1 (List.Forall_forall _ _) Hrange _ Hy). cbn in *. lra.
    + rewrite (orb_times_other k key vs Hne Hown), app_nil_r.
      apply Hsorted.
Qed.

Lemma forEach_orb_inv fuel currentTime entries :
  forall w w',
    0 <= currentTime ->
    0 < masterBpm (globalParams w) ->
    keyed_by_id entries ->
    cursor_inv w ->
    forEach_orb random fuel currentTime entries w = Some w' ->
    cursor_inv w'.
Proof.
  induction entries as [| [key orb] rest IH];
    intros w w' Ht Hm Hkeys Hinv H; cbn in H.
  - injection H as <-. exact Hinv.
  - inversion Hkeys as [| ? ? Hk Hrest]; subst. cbn in Hk.
    destruct (visit_orb random fuel currentTime key orb w) as [w1 |] eqn:E;
      [| discriminate].
    destruct (visit_orb_frame random _ _ _ _ _ _ E) as [(_ & Hg & _) _].
    apply (IH w1 w'); auto.
    + rewrite Hg. exact Hm.
    + exact (visit_orb_inv _ _ _ _ _ _ Ht Hm Hk Hinv E).
Qed.

Lemma scheduler_inv fuel currentTime w w' :
  0 <= currentTime ->
  0 < masterBpm (globalParams w) ->
  keyed_by_id (orbs w) ->
  cursor_inv w ->
  scheduler random fuel currentTime w = Some w' ->
  cursor_inv w'.
Proof.
  unfold scheduler. intros Ht Hm Hkeys Hinv H.
  destruct (glitch_tick_frame random currentTime w) as (Ho & Hg & Hn & Hv).
  apply (forEach_orb_inv _ _ _ _ _ Ht) in H; auto.
  - rewrite Hg. exact Hm.
  - rewrite Ho. exact Hkeys.
  - unfold cursor_inv. rewrite Hn, Hv. exact Hinv.
Qed.

Lemma initial_inv : run_inv initial.
Proof.
  unfold run_inv, cursor_inv. cbn. split; [lra |]. split; [constructor |].
  split; [| split].
  - intros k c. rewrite lookup_empty. discriminate.
  - intros v [].
  - intros k. constructor.
Qed.

Lemma call_inv fuel c w w' :
  well_timed c -> run_inv w -> call random fuel c w = Some w' -> run_inv w'.
Proof.
  intros Hc (Hm & Hk & Hinv) H. destruct c as [t | l | p]; cbn in *.
  - destruct (scheduler_frame random _ _ _ _ H) as (Ho & Hg & _).
    split; [rewrite Hg; exact Hm |]. split; [rewrite Ho; exact Hk |].
    exact (scheduler_inv _ _ _ _ Hc Hm Hk Hinv H).
  - injection H as <-.
    split; [exact Hm |]. split; [apply updateOrbs_keyed | exact Hinv].
  - injection H as <-. split; [exact Hc |]. split; [exact Hk | exact Hinv].
Qed.

Lemma run_keeps_inv fuel calls :
  forall w w',
    Forall well_timed calls -> run_inv w ->
    run random fuel calls w = Some w' -> run_inv w'.
Proof.
  induction calls as [| c rest IH]; intros w w' Hcalls Hinv H; cbn in H.
  - injection H as <-. exact Hinv.
  - inversion Hcalls as [| ? ? Hc Hrest]; subst.
    destruct (call random fuel c w) as [w1 |] eqn:E; [| discriminate].
    apply (IH w1 w'); auto.
    exact (call_inv _ _ _ _ Hc Hinv E).
Qed.

(** *** The tick returns *)

Lemma beat_ratio_returns (g : GlobalParams) (orb : AudioOrb) :
  0 < masterBpm g -> tempo_ok orb ->
  exists fuel0, forall fuel, (fuel0 <= fuel)%nat ->
                             exists r, beat_ratio fuel g orb = Some r.
Proof.
  intros Hm Hd. unfold beat_ratio.
  destruct (detectedBpm orb) as [d |] eqn:Ed;
    [| exists 0%nat; intros; eexists; reflexivity].
  destruct (beatSync g); cbn [andb];
    [| exists 0%nat; intros; eexists; reflexivity].
  destruct (Req_dec_T d 0) as [-> | Hne].
  - rewrite truthy_zero. exists 0%nat. intros. eexists. reflexivity.
  - rewrite truthy_nonzero by exact Hne.
    specialize (Hd d Ed).
    assert (Hx : 0 < masterBpm g / d) by (apply Rdiv_lt_0_compat; lra).
    destruct (fold_ratio_exits _ Hx) as (r & fuel0 & _ & H).
    exists fuel0. intros fuel Hf. exists r. apply H. exact Hf.
Qed.

Lemma scheduleGrain_returns fuel orb time lfoVal w r :
  beat_ratio fuel (globalParams w) orb = Some r ->
  exists w', scheduleGrain random fuel orb time lfoVal w = Some w'.
Proof.
  intros Hr. unfold scheduleGrain. rewrite Hr.
  destruct (buffer orb); [| eexists; reflexivity].
  destruct (active (glitchState w)); [destruct (mode (glitchState w)) |];
    repeat match goal with
           | |- context [if ?b then _ else _] => destruct b
           | |- context [draw ?x] => unfold draw
           end;
    eexists; reflexivity.
Qed.

Lemma grain_step_returns fuel orb nextTime w r :
  beat_ratio fuel (globalParams w) orb = Some r ->
  exists res, grain_step random fuel orb nextTime w = Some res.
Proof.
  intros Hr. unfold grain_step.
  match goal with
  | |- context [scheduleGrain random fuel orb nextTime ?l w] =>
      destruct (scheduleGrain_returns fuel orb nextTime l w r Hr) as [w1 ->]
  end.
  match goal with
  | |- context [advance random ?e w1] => destruct (advance random e w1)
  end.
  eexists. reflexivity.
Qed.

Lemma nat_above (x : R) : exists n : nat, x <= INR n.
Proof.
  destruct (archimed x) as [Hup _].
  exists (Z.to_nat (up x)).
  destruct (Z.le_gt_cases 0 (up x)) as [Hz | Hz].
  - rewrite INR_IZR_INZ, Z2Nat.id by exact Hz. lra.
  - assert (IZR (up x) < 0) by (apply IZR_lt; lia).
    pose proof (pos_INR (Z.to_nat (up x))). lra.
Qed.

(** With [n] steps of at least [min_step] left to the horizon, [n] turns
    of fuel are enough. *)
Lemma grain_loop_returns (g : GlobalParams) (orb : AudioOrb)
    (inner : nat) (currentTime : R) (n : nat) :
  0 < masterBpm g ->
  (forall w, globalParams w = g ->
             exists r, beat_ratio inner g orb = Some r) ->
  forall fuel nextTime w,
    globalParams w = g ->
    currentTime + scheduleAheadTime - nextTime <= INR n * min_step g ->
    (n <= fuel)%nat ->
    exists res,
      grain_loop random inner fuel currentTime orb nextTime w = Some res.
Proof.
  intros Hm Hratio. pose proof (min_step_pos g Hm) as Hpos.
  induction n as [| n IH]; intros fuel nextTime w Hg Hdist Hf.
  - cbn in Hdist.
    destruct fuel; cbn [grain_loop]; rewrite ltb_ge by lra;
      eexists; reflexivity.
  - destruct (Rlt_dec nextTime (currentTime + scheduleAheadTime))
      as [Hlt | Hge].
    + destruct fuel as [| fuel]; [lia |].
      cbn [grain_loop]. rewrite ltb_lt by exact Hlt.
      destruct (Hratio w Hg) as [r Hr]. rewrite <- Hg in Hr.
      destruct (grain_step_returns inner orb nextTime w r Hr)
        as [[t1 w1] E].
      rewrite E.
      assert (Hm' : 0 < masterBpm (globalParams w)) by (rewrite Hg; exact Hm).
      destruct (grain_step_voices _ _ _ _ _ _ Hm' E) as [Hstep _].
      destruct (grain_step_frame random _ _ _ _ _ _ E) as [(_ & Hg1 & _) _].
      rewrite Hg in Hstep.
      apply IH; [congruence | | lia].
      rewrite S_INR in Hdist. lra.
    + destruct fuel; cbn [grain_loop]; rewrite ltb_ge by lra;
        eexists; reflexivity.
Qed.

Lemma visit_orb_returns (g : GlobalParams) (orb : AudioOrb) :
  0 < masterBpm g -> tempo_ok orb ->
  exists fuel0, forall fuel currentTime key w,
      (fuel0 <= fuel)%nat -> globalParams w = g ->
      exists w', visit_orb random fuel currentTime key orb w = Some w'.
Proof.
  intros Hm Hd.
  destruct (beat_ratio_returns g orb Hm Hd) as [f1 Hf1].
  pose proof (min_step_pos g Hm) as Hpos.
  destruct (nat_above (scheduleAheadTime / min_step g)) as [n Hn].
  assert (Hn' : scheduleAheadTime <= INR n * min_step g).
  { apply (Rmult_le_compat_r (min_step g)) in Hn; [| lra].
    unfold Rdiv in Hn. rewrite Rmult_assoc, Rinv_l, Rmult_1_r in Hn by lra.
    exact Hn. }
  exists (max f1 n). intros fuel currentTime key w Hf Hg.
  unfold visit_orb.
  match goal with
  | |- context [grain_loop random fuel fuel currentTime orb ?t w] =>
      assert (Hstart : currentTime <= t)
        by (unfold JS.ltb;
            match goal with
            | |- context [Rlt_dec ?a ?b] => destruct (Rlt_dec a b); lra
            end);
      destruct (grain_loop_returns g orb fuel currentTime n Hm
                  (fun _ _ => Hf1 fuel ltac:(lia)) fuel t w Hg
                  ltac:(lra) ltac:(lia)) as [[t' w'] ->]
  end.
  eexists. reflexivity.
Qed.

Lemma forEach_orb_returns (g : GlobalParams)
    (entries : list (string * AudioOrb)) :
  0 < masterBpm g ->
  Forall (fun e : string * AudioOrb => tempo_ok (snd e)) entries ->
  exists fuel0, forall fuel currentTime w,
      (fuel0 <= fuel)%nat -> globalParams w = g ->
      exists w', forEach_orb random fuel currentTime entries w = Some w'.
Proof.
  intros Hm. induction 1 as [| [key orb] rest Hd _ IH].
  - exists 0%nat. intros. eexists. reflexivity.
  - destruct IH as [f2 Hf2]. cbn in Hd.
    destruct (visit_orb_returns g orb Hm Hd) as [f1 Hf1].
    exists (max f1 f2). intros fuel currentTime w Hf Hg. cbn [forEach_orb].
    destruct (Hf1 fuel currentTime key w ltac:(lia) Hg) as [w1 E].
    rewrite E.
    destruct (visit_orb_frame random _ _ _ _ _ _ E) as [(_ & Hg1 & _) _].
    apply Hf2; [lia | congruence].
Qed.

Lemma scheduler_returns (g : GlobalParams)
    (entries : list (string * AudioOrb)) :
  0 < masterBpm g ->
  Forall (fun e : string * AudioOrb => tempo_ok (snd e)) entries ->
  exists fuel0, forall fuel currentTime w,
      (fuel0 <= fuel)%nat -> globalParams w = g -> orbs w = entries ->
      exists w', scheduler random fuel currentTime w = Some w'.
Proof.
  intros Hm Hd.
  destruct (forEach_orb_returns g entries Hm Hd) as [f0 Hf0].
  exists f0. intros fuel currentTime w Hf Hg Ho. unfold scheduler.
  destruct (glitch_tick_frame random currentTime w) as (Ho' & Hg' & _).
  rewrite Ho', Ho. apply Hf0; [exact Hf | congruence].
Qed.

Lemma map_set_tempo_ok (orb : AudioOrb) (m : list (string * AudioOrb)) :
  tempo_ok orb ->
  Forall (fun e : string * AudioOrb => tempo_ok (snd e)) m ->
  Forall (fun e : string * AudioOrb => tempo_ok (snd e))
    (map_set (id orb) orb m).
Proof.
  intros Ho. induction 1 as [| [k v] rest Hk Hrest IH]; cbn.
  - constructor; [exact Ho | constructor].
  - destruct (String.eqb (id orb) k).
    + constructor; [exact Ho | assumption].
    + constructor; assumption.
Qed.

Lemma updateOrbs_tempo_ok (orbsList : list AudioOrb) (w : Engine) :
  Forall tempo_ok orbsList ->
  Forall (fun e : string * AudioOrb => tempo_ok (snd e))
    (orbs (updateOrbs orbsList w)).
Proof.
  unfold updateOrbs. cbn.
  assert (G : forall m,
             Forall (fun e : string * AudioOrb => tempo_ok (snd e)) m ->
             Forall tempo_ok orbsList ->
             Forall (fun e : string * AudioOrb => tempo_ok (snd e))
               (fold_left (fun m orb => map_set (id orb) orb m) orbsList m)).
  { induction orbsList as [| o rest IH]; intros m Hm Hl; cbn; [exact Hm |].
    inversion Hl; subst. apply IH; [| assumption].
    apply map_set_tempo_ok; assumption. }
  intros Hl. apply G; [constructor | exact Hl].
Qed.

(** A whole trace returns, given enough fuel. *)
Lemma run_returns (calls : list Call) :
  Forall well_timed calls -> Forall tempos_known calls ->
  forall (g : GlobalParams) (entries : list (string * AudioOrb)),
    0 < masterBpm g ->
    Forall (fun e : string * AudioOrb => tempo_ok (snd e)) entries ->
    exists fuel0, forall fuel w,
        (fuel0 <= fuel)%nat -> globalParams w = g -> orbs w = entries ->
        exists w', run random fuel calls w = Some w'.
Proof.
  induction calls as [| c rest IH]; intros Ht Hk g entries Hm Hd.
  - exists 0%nat. intros. eexists. reflexivity.
  - inversion Ht as [| ? ? Hc Hrest]; subst.
    inversion Hk as [| ? ? Hc' Hrest']; subst.
    destruct c as [t | l | p]; cbn [run call].
    + destruct (scheduler_returns g entries Hm Hd) as [f1 Hf1].
      destruct (IH Hrest Hrest' g entries Hm Hd) as [f2 Hf2].
      exists (max f1 f2). intros fuel w Hf Hg Ho.
      destruct (Hf1 fuel t w ltac:(lia) Hg Ho) as [w1 E]. rewrite E.
      destruct (scheduler_frame random _ _ _ _ E) as (Ho1 & Hg1 & _).
      apply Hf2; [lia | congruence | congruence].
    + destruct (IH Hrest Hrest' g (orbs (updateOrbs l initial)) Hm
                  (updateOrbs_tempo_ok l initial Hc')) as [f2 Hf2].
      exists f2. intros fuel w Hf Hg Ho.
      apply Hf2; [exact Hf | exact Hg | reflexivity].
    + cbn in Hc.
      destruct (IH Hrest Hrest' p entries Hc Hd) as [f2 Hf2].
      exists f2. intros fuel w Hf Hg Ho.
      apply Hf2; [exact Hf | reflexivity | exact Ho].
Qed.

(** C8.  For a positive master tempo the grains of one orb are scheduled
    in strictly increasing time order, over any sequence of ticks and
    updates from the initial engine; every branch of the cursor advance
    moves the cursor strictly forward (50 ms while stuttering, at least
    97.5 % of the beat subdivision under beat-sync, at least 5 ms in free
    run); and the trace does run to its end. *)
Theorem grain_times_strictly_increase (calls : list Call) :
  Forall well_timed calls ->
  (forall fuel w',
      run random fuel calls initial = Some w' ->
      forall k, increasing (orb_times k (voices w'))) /\
  (forall e w,
      0 < masterBpm (globalParams w) ->
      let step := fst (advance random e w) in
      0 < step /\
      (stuttering w = true -> step = 0.05) /\
      (stuttering w = false -> beatSync (globalParams w) = true ->
       0.975 * (60 / masterBpm (globalParams w)
                * subdivision_of (Rmax 0 (Rmin 1 e))) <= step) /\
      (stuttering w = false -> beatSync (globalParams w) = false ->
       0.005 <= step)) /\
  (Forall tempos_known calls ->
   exists fuel0, forall fuel,
       (fuel0 <= fuel)%nat ->
       exists w', run random fuel calls initial = Some w').
Proof.
  intros Hcalls. split; [| split].
  - intros fuel w' Hrun k.
    destruct (run_keeps_inv fuel calls initial w' Hcalls initial_inv Hrun)
      as (_ & _ & _ & _ & Hsorted).
    apply Hsorted.
  - intros e w Hm.
    pose proof (advance_forward e w Hm) as Hfwd.
    destruct (advance_step e w Hm) as (Hst & Hbeat & Hfree & _).
    cbv zeta in *. split; [exact Hfwd |]. split; [exact Hst |].
    split; [| exact Hfree].
    intros Hns Hb. destruct (Hbeat Hns Hb) as (_ & Hlo & _). exact Hlo.
  - intros Hknown.
    destruct (run_returns calls Hcalls Hknown (globalParams initial) []
                ltac:(cbn; lra) ltac:(constructor)) as [fuel0 H].
    exists fuel0. intros fuel Hf. apply H; [exact Hf | reflexivity ..].
Qed.

End OrderFacts.

Section OrderWitness.

Import Engine.
Local Open Scope R_scope.

Lemma zero_random_range : forall n, 0 <= zero_random n < 1.
Proof. intros n. unfold zero_random. lra. Qed.

Lemma grain_times_strictly_increase_witness :
  increasing [0.15; 0.15 + 0.05].
Proof.
  assert (Hcalls : Forall well_timed
                     [UpdateOrbs [scan_orb]; UpdateGlobalParams burst_params;
                      Tick 0.15]).
  { repeat constructor; cbn; lra. }
  exact (proj1 (grain_times_strictly_increase zero_random zero_random_range
                  _ Hcalls) 2%nat _ burst_tick "scan"%string).
Defined.

End OrderWitness.

(** ** The orb registry and the cursor table *)

Section RegistryFacts.

Import Engine.
Local Open Scope R_scope.

Lemma map_get_set (k k' : string) (v : AudioOrb)
    (m : list (string * AudioOrb)) :
  map_get k (map_set k' v m)
  = if String.eqb k k' then Some v else map_get k m.
Proof.
  induction m as [| [k0 v0] rest IH]; cbn.
  - reflexivity.
  - destruct (String.eqb k' k0) eqn:E0; cbn.
    + apply String.eqb_eq in E0. subst k0.
      destruct (String.eqb k k'); reflexivity.
    + destruct (String.eqb k k0) eqn:E1.
      * apply String.eqb_eq in E1. subst k0.
        rewrite String.eqb_sym, E0. reflexivity.
      * exact IH.
Qed.

Lemma updateOrbs_get (k : string) (orbsList : list AudioOrb) (w : Engine) :
  map_get k (orbs (updateOrbs orbsList w)) = last_with_id k orbsList.
Proof.
  unfold updateOrbs, last_with_id. cbn.
  change (@None AudioOrb) with (map_get k []).
  generalize (@nil (string * AudioOrb)) as m.
  induction orbsList as [| o rest IH]; intros m; cbn.
  - reflexivity.
  - rewrite IH, map_get_set. reflexivity.
Qed.

Lemma map_get_keys (k : string) (m : list (string * AudioOrb)) :
  is_Some (map_get k m) <-> In k (map fst m).
Proof.
  induction m as [| [k0 v0] rest IH]; cbn.
  - split; [intros [x Hx]; discriminate | intros []].
  - destruct (String.eqb k k0) eqn:E.
    + apply String.eqb_eq in E. subst. split; eauto.
    + apply String.eqb_neq in E. rewrite IH. split; [auto |].
      intros [H | H]; [congruence | exact H].
Qed.

(** C1, as the code has it.  [updateOrbs] replaces the orb set by the orbs
    of the list (the last one for a repeated id) and leaves the cursor
    table exactly as it was: no cursor is dropped, and none is created.
    The next tick gives every registered orb a cursor and still drops
    none. *)
Theorem updateOrbs_keeps_cursor_table (orbsList : list AudioOrb) (w : Engine) :
  nextGrainTime (updateOrbs orbsList w) = nextGrainTime w /\
  (forall k, map_get k (orbs (updateOrbs orbsList w))
             = last_with_id k orbsList) /\
  (forall random fuel currentTime w',
      scheduler random fuel currentTime (updateOrbs orbsList w) = Some w' ->
      (forall k, is_Some (map_get k (orbs (updateOrbs orbsList w))) ->
                 is_Some (nextGrainTime w' !! k)) /\
      (forall k, is_Some (nextGrainTime w !! k) ->
                 is_Some (nextGrainTime w' !! k))).
Proof.
  split; [reflexivity |]. split; [intros k; apply updateOrbs_get |].
  intros random fuel currentTime w' H.
  destruct (scheduler_frame random _ _ _ _ H)
    as (_ & _ & _ & _ & Hin & _ & Hkeep).
  split.
  - intros k Hk. apply Hin, map_get_keys, Hk.
  - exact Hkeep.
Qed.

(** C1 as stated fails both ways: a newly registered orb has no cursor
    after the call, and the cursor of a removed orb is still there. *)
Lemma updateOrbs_not_reconciled :
  ~ cursors_reconciled (updateOrbs [pad_orb] initial) /\
  exists w,
    run zero_random 1 [UpdateOrbs [pad_orb]; Tick 0] initial = Some w /\
    map_get "pad" (orbs (updateOrbs [] w)) = None /\
    nextGrainTime (updateOrbs [] w) !! "pad"%string = Some (0 + pad_step) /\
    ~ cursors_reconciled (updateOrbs [] w).
Proof.
  split.
  - intros H. destruct (proj2 (H "pad"%string)) as [c Hc].
    + cbn. eauto.
    + cbn in Hc. rewrite lookup_empty in Hc. discriminate.
  - exists pad_world_after. split.
    + cbn [run call]. fold pad_world. rewrite pad_tick. reflexivity.
    + split; [reflexivity |]. split; [reflexivity |].
      intros H. destruct (proj1 (H "pad"%string)) as [o Ho].
      * cbn. rewrite lookup_singleton_eq. eauto.
      * discriminate.
Qed.

End RegistryFacts.

(* ===================================================================== *)
(** * Part III: further properties of the engine *)
(* ===================================================================== *)

(** ** Grain synthesizer: the voice it builds *)

(** Close a goal about the fields of a started voice, given the beat-sync
    ratio and the glitch factor of the case at hand. *)
Ltac grain_fields_with ratio factor :=
  eexists; exists ratio; exists factor; eexists; eexists;
  match goal with
  | |- context [JS.pow 2 ((?random ?k - 0.5) * _ * 2400 / 1200)] => exists k
  end;
  (split; [reflexivity |]);
  cbn -[JS.ltb JS.gtb Rmax JS.pow Engine.clamp_rate Engine.wrap_offset];
  repeat (split; [reflexivity |]);
  try (split; [f_equal; ring |]);
  solve [ reflexivity | left; reflexivity | right; left; lra
        | right; right; reflexivity ].

Section VoiceFacts.

Import Engine.
Local Open Scope R_scope.

Variable random : nat -> R.

(** Wrapping puts any offset into the buffer. *)
Lemma wrap_offset_range (offset dur : R) :
  0 < dur -> 0 <= wrap_offset offset dur < dur.
Proof.
  intros Hd.
  unfold wrap_offset, JS.rem, JS.trunc. cbv zeta.
  set (q := offset / dur).
  assert (Ho : offset = q * dur) by (unfold q; field; lra).
  destruct (Rlt_dec q 0) as [Hq | Hq].
  - pose proof (Zceil_bound q) as [Hlo Hhi].
    set (c := IZR (Zceil q)) in *.
    assert (Hrem : - dur < offset - dur * c <= 0) by (rewrite Ho; nra).
    unfold JS.ltb. destruct (Rlt_dec (offset - dur * c) 0); lra.
  - pose proof (Zfloor_bound q) as [Hlo Hhi].
    set (f := IZR (Zfloor q)) in *.
    assert (Hrem : 0 <= offset - dur * f < dur) by (rewrite Ho; nra).
    unfold JS.ltb. destruct (Rlt_dec (offset - dur * f) 0); lra.
Qed.

(** Every field of the voice a call starts, read off the code. *)
Lemma scheduleGrain_fields fuel orb time lfoVal w w' buf :
  buffer orb = Some buf ->
  scheduleGrain random fuel orb time lfoVal w = Some w' ->
  exists v ratio factor offset1 n1 n2,
    voices w' = voices w ++ [v] /\
    beat_ratio fuel (globalParams w) orb = Some ratio /\
    v_offset v = wrap_offset offset1 (duration buf) /\
    v_grainSize v
    = Rmax 0.01 (if stuttering w then 0.05 else modulated_size orb lfoVal) /\
    v_stop v = time + v_grainSize v + 0.05 /\
    v_peakGain v = Rmax 0 (modulated_volume orb lfoVal) /\
    v_pan v = (random n1 - 0.5) * 2 * space (globalParams w) /\
    v_playbackRate v
    = clamp_rate (modulated_rate orb lfoVal * ratio * factor
                  * JS.pow 2 ((random n2 - 0.5) * randomPitch (params orb)
                              * 2400 / 1200)) /\
    (if reversing w then factor = -1 else factor = 1 \/ factor = 2
                                          \/ factor = 0.5).
Proof.
  intros Hbuf H. unfold scheduleGrain in H. rewrite Hbuf in H.
  destruct (beat_ratio fuel (globalParams w) orb) as [ratio |];
    [| discriminate].
  unfold stuttering, reversing, modulated_size, modulated_volume,
    modulated_rate in *.
  destruct w as [o g [a e m f] c n vs].
  cbn -[JS.ltb JS.gtb Rmax JS.pow clamp_rate wrap_offset] in *.
  destruct a; [destruct m |];
    cbn -[JS.ltb JS.gtb Rmax JS.pow clamp_rate wrap_offset] in *;
    try destruct (JS.ltb f 0) eqn:Ef;
    try match type of H with
        | context [JS.gtb (random n) 0.5] =>
            destruct (JS.gtb (random n) 0.5) eqn:Ej
        end;
    cbn -[JS.ltb JS.gtb Rmax JS.pow clamp_rate wrap_offset] in *;
    injection H as <-;
    cbn -[JS.ltb JS.gtb Rmax JS.pow clamp_rate wrap_offset];
    first [ grain_fields_with ratio 1
          | grain_fields_with ratio (-1)
          | grain_fields_with ratio 2.0
          | grain_fields_with ratio 0.5 ].
Qed.

Lemma last_voice_unique (vs : list Voice) (v v' : Voice) (ws : list Voice) :
  ws = vs ++ [v] -> ws = vs ++ [v'] -> v = v'.
Proof.
  intros H H'. rewrite H in H'. apply app_inj_tail in H'. tauto.
Qed.

(** X1.  The voice [scheduleGrain] starts for an orb with a buffer of
    positive duration: it starts at the requested time, from an offset
    inside the buffer, with an envelope of at least 10 ms (exactly 50 ms
    during a STUTTER burst), stops 50 ms after the envelope ends, has a
    peak gain that is never negative, and is panned within the stereo
    width the space control allows. *)
Theorem scheduleGrain_voice_shape fuel orb time lfoVal w w' buf :
  (forall n, 0 <= random n < 1) ->
  buffer orb = Some buf ->
  0 < duration buf ->
  0 <= space (globalParams w) ->
  scheduleGrain random fuel orb time lfoVal w = Some w' ->
  exists v,
    voices w' = voices w ++ [v] /\
    v_time v = time /\
    0 <= v_offset v < duration buf /\
    0.01 <= v_grainSize v /\
    (stuttering w = true -> v_grainSize v = 0.05) /\
    v_stop v = v_time v + v_grainSize v + 0.05 /\
    0 <= v_peakGain v /\
    - space (globalParams w) <= v_pan v <= space (globalParams w).
Proof.
  intros Hrand Hbuf Hdur Hspace H.
  destruct (scheduleGrain_voice random _ _ _ _ _ _ _ Hbuf H)
    as (v0 & Hv0 & _ & Ht & _).
  destruct (scheduleGrain_fields _ _ _ _ _ _ _ Hbuf H)
    as (v & ratio & factor & offset1 & n1 & n2
        & Hv & _ & Hoff & Hsize & Hstop & Hpeak & Hpan & _).
  assert (v0 = v) by (exact (last_voice_unique _ _ _ _ Hv0 Hv)). subst v0.
  exists v. split; [exact Hv |]. split; [exact Ht |].
  split; [rewrite Hoff; apply wrap_offset_range; exact Hdur |].
  split; [rewrite Hsize; apply Rmax_l |].
  split.
  { intros Hst. rewrite Hsize, Hst. unfold Rmax.
    destruct (Rle_dec 0.01 0.05); lra. }
  split; [rewrite Hstop, Ht; reflexivity |].
  split; [rewrite Hpeak; apply Rmax_l |].
  rewrite Hpan. pose proof (Hrand n1). nra.
Qed.

(** Whatever the beat-sync factor is, it lies in [0.75, 1.5]. *)
Lemma beat_ratio_range fuel g orb r :
  0 < masterBpm g -> tempo_ok orb ->
  beat_ratio fuel g orb = Some r -> 0.75 <= r <= 1.5.
Proof.
  intros Hm Hd. unfold beat_ratio.
  destruct (detectedBpm orb) as [d |] eqn:Ed; [| intros [= <-]; lra].
  destruct (beatSync g); cbn [andb]; [| intros [= <-]; lra].
  destruct (Req_dec_T d 0) as [-> | Hne].
  - rewrite truthy_zero. intros [= <-]. lra.
  - rewrite truthy_nonzero by exact Hne. intros H.
    specialize (Hd d Ed).
    assert (Hx : 0 < masterBpm g / d) by (apply Rdiv_lt_0_compat; lra).
    destruct (fold_ratio_exits _ Hx) as (r0 & fuel0 & Hr0 & Hfold).
    pose proof (fold_ratio_mono fuel (max fuel fuel0) _ _ H
                  (Nat.le_max_l _ _)) as H1.
    rewrite (Hfold _ (Nat.le_max_r _ _)) in H1. injection H1 as <-.
    exact Hr0.
Qed.

Lemma pow2_real_pos (x : R) : 0 < JS.pow 2 x.
Proof. unfold JS.pow, Rpower. apply exp_pos. Qed.

Lemma sign_is_1 (x : R) : JS.sign x = 1 -> 0 < x.
Proof.
  unfold JS.sign. destruct (Rlt_dec 0 x); [auto |].
  destruct (Rlt_dec x 0); lra.
Qed.

Lemma sign_is_m1 (x : R) : JS.sign x = -1 -> x < 0.
Proof.
  unfold JS.sign. destruct (Rlt_dec 0 x); [lra |].
  destruct (Rlt_dec x 0); [auto | lra].
Qed.

(** The clamp on a positive and on a negative rate. *)
Lemma clamp_rate_pos (x : R) : 0 < x -> 0.05 <= clamp_rate x <= 4.0.
Proof.
  intros Hx. destruct (clamp_rate_nonzero x) as [Habs Hs]; [lra |].
  rewrite (sign_pos x Hx) in Hs. apply sign_is_1 in Hs.
  rewrite Rabs_pos_eq in Habs by lra. exact Habs.
Qed.

Lemma clamp_rate_neg (x : R) : x < 0 -> -4.0 <= clamp_rate x <= -0.05.
Proof.
  intros Hx. destruct (clamp_rate_nonzero x) as [Habs Hs]; [lra |].
  rewrite (sign_neg x Hx) in Hs. apply sign_is_m1 in Hs.
  rewrite Rabs_left in Habs by lra. lra.
Qed.

(** X2.  Away from the one LFO sample that cancels the base rate, the
    playback rate of a started voice has a magnitude in [0.05, 4], for
    every beat-sync ratio, glitch mode and random draw; it has the sign of
    the rate the LFO left, flipped exactly during a REVERSE burst.  So with
    no LFO on the pitch the rate is in [0.05, 4] outside a REVERSE burst
    and in [-4, -0.05] inside one. *)
Theorem scheduleGrain_rate_bounds fuel orb time lfoVal w w' buf :
  buffer orb = Some buf ->
  0 < masterBpm (globalParams w) ->
  tempo_ok orb ->
  modulated_rate orb lfoVal <> 0 ->
  scheduleGrain random fuel orb time lfoVal w = Some w' ->
  exists v,
    voices w' = voices w ++ [v] /\
    0.05 <= Rabs (v_playbackRate v) <= 4.0 /\
    (0 < v_playbackRate v <->
     if reversing w then modulated_rate orb lfoVal < 0
     else 0 < modulated_rate orb lfoVal).
Proof.
  intros Hbuf Hm Hd Hbase H.
  destruct (scheduleGrain_fields _ _ _ _ _ _ _ Hbuf H)
    as (v & ratio & factor & offset1 & n1 & n2
        & Hv & Hratio & _ & _ & _ & _ & _ & Hrate & Hfactor).
  pose proof (beat_ratio_range _ _ _ _ Hm Hd Hratio) as Hr.
  exists v. split; [exact Hv |]. rewrite Hrate.
  set (base := modulated_rate orb lfoVal) in *.
  set (p := JS.pow 2 _).
  assert (Hp : 0 < p) by apply pow2_real_pos.
  assert (Hrp : 0 < ratio * p) by (apply Rmult_lt_0_compat; lra).
  replace (base * ratio * factor * p) with (base * factor * (ratio * p))
    by ring.
  assert (Hcases : base < 0 \/ 0 < base) by lra.
  destruct (reversing w).
  - subst factor.
    destruct Hcases as [Hneg | Hpos].
    + assert (Hx : 0 < base * -1 * (ratio * p)) by nra.
      pose proof (clamp_rate_pos _ Hx) as Hc.
      rewrite Rabs_pos_eq by lra. split; [lra |]. split; intros; lra.
    + assert (Hx : base * -1 * (ratio * p) < 0) by nra.
      pose proof (clamp_rate_neg _ Hx) as Hc.
      rewrite Rabs_left by lra. split; [lra |]. split; intros; lra.
  - assert (Hf : 0 < factor) by (destruct Hfactor as [-> | [-> | ->]]; lra).
    destruct Hcases as [Hneg | Hpos].
    + assert (Hx : base * factor * (ratio * p) < 0) by nra.
      pose proof (clamp_rate_neg _ Hx) as Hc.
      rewrite Rabs_left by lra. split; [lra |]. split; intros; lra.
    + assert (Hx : 0 < base * factor * (ratio * p)) by nra.
      pose proof (clamp_rate_pos _ Hx) as Hc.
      rewrite Rabs_pos_eq by lra. split; [lra |]. split; intros; lra.
Qed.

End VoiceFacts.

Section VoiceWitnesses.

Import Engine.
Local Open Scope R_scope.

Lemma pad_grain_runs :
  scheduleGrain zero_random 0 pad_orb 0 0 initial = Some pad_grain_world.
Proof.
  unfold scheduleGrain, draw, zero_random.
  cbn -[JS.ltb JS.gtb Rmax JS.pow clamp_rate wrap_offset].
  reflexivity.
Qed.

Lemma pad_orb_tempo_ok : tempo_ok pad_orb.
Proof. intros d [= <-]. lra. Qed.

Lemma scheduleGrain_voice_shape_witness :
  exists v,
    voices pad_grain_world = voices initial ++ [v] /\
    v_time v = 0 /\
    0 <= v_offset v < 4 /\
    0.01 <= v_grainSize v /\
    (stuttering initial = true -> v_grainSize v = 0.05) /\
    v_stop v = v_time v + v_grainSize v + 0.05 /\
    0 <= v_peakGain v /\
    - space (globalParams initial) <= v_pan v <= space (globalParams initial).
Proof.
  apply (scheduleGrain_voice_shape zero_random 0 pad_orb 0 0 initial
           pad_grain_world {| duration := 4 |}).
  - exact zero_random_range.
  - reflexivity.
  - cbn. lra.
  - cbn. lra.
  - exact pad_grain_runs.
Defined.

Lemma scheduleGrain_rate_bounds_witness :
  exists v,
    voices pad_grain_world = voices initial ++ [v] /\
    0.05 <= Rabs (v_playbackRate v) <= 4.0 /\
    (0 < v_playbackRate v <->
     if reversing initial then modulated_rate pad_orb 0 < 0
     else 0 < modulated_rate pad_orb 0).
Proof.
  apply (scheduleGrain_rate_bounds zero_random 0 pad_orb 0 0 initial
           pad_grain_world {| duration := 4 |}).
  - reflexivity.
  - cbn. lra.
  - exact pad_orb_tempo_ok.
  - cbn. lra.
  - exact pad_grain_runs.
Defined.

End VoiceWitnesses.

(** ** Glitch state machine: the fields stay consistent *)

Section GlitchInvariant.

Import Engine.
Local Open Scope R_scope.

Variable random : nat -> R.

Lemma glitch_tick_consistent currentTime w :
  glitch_consistent (glitchState w) ->
  glitch_consistent (glitchState (glitch_tick random currentTime w)).
Proof.
  intros (Hidle & Hact & Hfrozen).
  unfold glitch_tick, glitch_expire, glitch_trigger, glitch_enter, draw.
  unfold glitch_consistent.
  destruct (JS.gtb (chaos (globalParams w)) 0.05);
    destruct (active (glitchState w)) eqn:Ea; cbn -[JS.ltb JS.gtb];
    repeat match goal with
           | |- context [if ?b then _ else _] =>
               destruct b eqn:?; cbn -[JS.ltb JS.gtb] in *
           end;
    repeat split; intros; try discriminate; try congruence; auto;
    try (apply Hidle; congruence); try (apply Hact; congruence).
Qed.

Lemma scheduler_consistent fuel currentTime w w' :
  glitch_consistent (glitchState w) ->
  scheduler random fuel currentTime w = Some w' ->
  glitch_consistent (glitchState w').
Proof.
  intros Hc H.
  pose proof (glitch_tick_consistent currentTime w Hc) as Hc1.
  destruct (scheduler_frame random _ _ _ _ H)
    as (_ & _ & (Ha & Hm & _) & Hidle & _).
  set (w1 := glitch_tick random currentTime w) in *.
  destruct (stuttering w1) eqn:Hst.
  - unfold stuttering in Hst. apply andb_prop in Hst.
    destruct Hst as [Hact Hmode].
    destruct (mode (glitchState w1)) eqn:Em; try discriminate.
    unfold glitch_consistent. rewrite Ha, Hm, Hact.
    repeat split; intros; try discriminate; try congruence.
  - rewrite (Hidle eq_refl). exact Hc1.
Qed.

(** X3.  Over any sequence of ticks and updates from the initial engine
    the glitch fields stay consistent: [active] is false exactly when the
    mode is NONE, and [frozenOffset] is -1 whenever no STUTTER burst is
    running. *)
Theorem glitch_fields_consistent (fuel : nat) (calls : list Call)
    (w' : Engine) :
  run random fuel calls initial = Some w' ->
  (active (glitchState w') = false <-> mode (glitchState w') = NONE) /\
  (stuttering w' = false -> frozenOffset (glitchState w') = -1).
Proof.
  assert (G : forall w, glitch_consistent (glitchState w) ->
                        run random fuel calls w = Some w' ->
                        glitch_consistent (glitchState w')).
  { induction calls as [| c rest IH]; intros w Hc H; cbn in H.
    - injection H as <-. exact Hc.
    - destruct (call random fuel c w) as [w1 |] eqn:E; [| discriminate].
      apply (IH w1); [| exact H].
      destruct c as [t | l | p]; cbn in E.
      + exact (scheduler_consistent _ _ _ _ Hc E).
      + injection E as <-. exact Hc.
      + injection E as <-. exact Hc. }
  intros H.
  assert (Hinit : glitch_consistent (glitchState initial)).
  { unfold glitch_consistent. cbn. repeat split; intros; try discriminate;
      reflexivity. }
  destruct (G initial Hinit H) as (Hidle & Hact & Hfrozen).
  split; [split |].
  - intros Ha. apply Hidle, Ha.
  - intros Hm. destruct (active (glitchState w')) eqn:Ea; [| reflexivity].
    exfalso. exact (Hact eq_refl Hm).
  - intros Hst. unfold stuttering in Hst.
    destruct (active (glitchState w')) eqn:Ea.
    + apply Hfrozen. intros Hm. rewrite Hm in Hst. discriminate.
    + apply Hidle. reflexivity.
Qed.

End GlitchInvariant.

Section GlitchInvariantWitness.

Import Engine.
Local Open Scope R_scope.

Lemma glitch_fields_consistent_witness :
  (active (glitchState pad_world_after) = false
   <-> mode (glitchState pad_world_after) = NONE) /\
  (stuttering pad_world_after = false ->
   frozenOffset (glitchState pad_world_after) = -1).
Proof.
  apply (glitch_fields_consistent zero_random 1
           [UpdateOrbs [pad_orb]; Tick 0] pad_world_after).
  cbn [run call]. fold pad_world. rewrite pad_tick. reflexivity.
Defined.

End GlitchInvariantWitness.

(** ** Scheduler: the lookahead window *)

Section TickFacts.

Import Engine.
Local Open Scope R_scope.

Variable random : nat -> R.
Hypothesis random_range : forall n, 0 <= random n < 1.

Lemma stride_pos (w : Engine) : 0 < masterBpm (globalParams w) -> 0 < stride w.
Proof.
  intros Hm. unfold stride. pose proof (min_step_pos _ Hm).
  destruct (stuttering w); lra.
Qed.

Lemma stride_frame (w w' : Engine) : grain_frame w w' -> stride w' = stride w.
Proof.
  intros Hf. unfold stride. rewrite (stuttering_frame _ _ Hf).
  destruct Hf as (_ & -> & _). reflexivity.
Qed.

(** One turn of the loop moves the cursor by at least [stride], and by
    exactly 50 ms during a STUTTER burst. *)
Lemma grain_step_stride fuel orb nextTime w nextTime' w' :
  0 < masterBpm (globalParams w) ->
  grain_step random fuel orb nextTime w = Some (nextTime', w') ->
  nextTime + stride w <= nextTime' /\
  (stuttering w = true -> nextTime' = nextTime + 0.05).
Proof.
  unfold grain_step. intros Hm H.
  destruct (scheduleGrain random fuel orb nextTime _ w) as [w1 |] eqn:E;
    [| discriminate].
  destruct (scheduleGrain_frame random _ _ _ _ _ _ E) as [Hf _].
  pose proof (stuttering_frame _ _ Hf) as Hst.
  destruct Hf as (_ & Hg & _).
  assert (Hm1 : 0 < masterBpm (globalParams w1)) by (rewrite Hg; exact Hm).
  match type of H with
  | context [advance random ?e w1] =>
      pose proof (advance_step random random_range e w1 Hm1)
        as (Hs & _ & _ & Hmin);
      destruct (advance random e w1) as [step w2]
  end.
  injection H as <- <-. cbn [fst] in Hs, Hmin. rewrite Hg in Hmin.
  unfold stride. rewrite Hst in Hs.
  destruct (stuttering w).
  - rewrite (Hs eq_refl). split; [lra | reflexivity].
  - split; [lra | discriminate].
Qed.

(** The whole loop: every voice it starts is of this orb and starts inside
    the lookahead window, not before the cursor the loop started from; the
    number of voices is bounded by the window and the stride. *)
Lemma grain_loop_window inner fuel currentTime orb :
  forall nextTime w nextTime' w',
    0 < masterBpm (globalParams w) ->
    grain_loop random inner fuel currentTime orb nextTime w
    = Some (nextTime', w') ->
    exists vs,
      voices w' = voices w ++ vs /\
      Forall (fun v => v_orb v = id orb /\
                       nextTime <= v_time v
                       < currentTime + scheduleAheadTime) vs /\
      (nextTime < currentTime + scheduleAheadTime ->
       INR (length vs) * stride w
       < currentTime + scheduleAheadTime - nextTime + stride w) /\
      (currentTime + scheduleAheadTime <= nextTime -> vs = []).
Proof.
  induction fuel as [| fuel IH]; intros nextTime w nextTime' w' Hm H;
    cbn [grain_loop] in H;
    destruct (JS.ltb nextTime (currentTime + scheduleAheadTime)) eqn:Eh;
    try discriminate.
  - injection H as <- <-. apply ltb_false_iff in Eh.
    exists []. rewrite app_nil_r.
    split; [reflexivity |]. split; [constructor |].
    split; [intros; lra | reflexivity].
  - destruct (grain_step random inner orb nextTime w) as [[t1 w1] |] eqn:E;
      [| discriminate].
    apply ltb_true_iff in Eh.
    destruct (grain_step_stride _ _ _ _ _ _ Hm E) as [Hstep _].
    destruct (grain_step_voices random random_range _ _ _ _ _ _ Hm E)
      as [_ Hv1].
    destruct (grain_step_frame random _ _ _ _ _ _ E) as [Hf _].
    pose proof (stride_frame _ _ Hf) as Hstride.
    pose proof (stride_pos _ Hm) as Hpos.
    destruct Hf as (_ & Hg & _).
    assert (Hm1 : 0 < masterBpm (globalParams w1)) by (rewrite Hg; exact Hm).
    destruct (IH _ _ _ _ Hm1 H) as (vs2 & Hv2 & Hin2 & Hcount & Hnone).
    rewrite Hstride in Hcount.
    assert (Hin2' : Forall (fun v => v_orb v = id orb /\
                                     nextTime <= v_time v
                                     < currentTime + scheduleAheadTime) vs2).
    { revert Hin2. apply List.Forall_impl. intros v [Hid Ht].
      split; [exact Hid | lra]. }
    assert (Hcount2 : INR (length vs2) * stride w
                      < currentTime + scheduleAheadTime - nextTime).
    { destruct (Rlt_dec t1 (currentTime + scheduleAheadTime)) as [Hlt | Hge].
      - specialize (Hcount Hlt). lra.
      - rewrite Hnone by lra. cbn. lra. }
    destruct Hv1 as [Hv1 | (v & Hv1 & Hid & Ht)].
    + exists vs2. rewrite Hv2, Hv1.
      split; [reflexivity |]. split; [exact Hin2' |].
      split; [intros _; lra | intros; lra].
    + exists (v :: vs2). rewrite Hv2, Hv1, <- app_assoc.
      split; [reflexivity |].
      split; [constructor; [split; [exact Hid | lra] | exact Hin2'] |].
      split; [| intros; lra].
      intros _. cbn [length]. rewrite S_INR. lra.
  - injection H as <- <-. apply ltb_false_iff in Eh.
    exists []. rewrite app_nil_r.
    split; [reflexivity |]. split; [constructor |].
    split; [intros; lra | reflexivity].
Qed.

(** The cursor a visit starts from is never behind [currentTime]. *)
Lemma visit_start (currentTime nextTime0 : R) :
  currentTime
  <= (if JS.ltb nextTime0 currentTime then currentTime else nextTime0).
Proof. unfold JS.ltb. destruct (Rlt_dec nextTime0 currentTime); lra. Qed.

Lemma visit_orb_window fuel currentTime key orb w w' :
  0 < masterBpm (globalParams w) ->
  visit_orb random fuel currentTime key orb w = Some w' ->
  exists vs,
    voices w' = voices w ++ vs /\
    Forall (fun v => v_orb v = id orb /\
                     currentTime <= v_time v
                     < currentTime + scheduleAheadTime) vs /\
    INR (length vs) * stride w < scheduleAheadTime + stride w /\
    exists c, nextGrainTime w' !! key = Some c /\
              currentTime + scheduleAheadTime <= c.
Proof.
  intros Hm. unfold visit_orb.
  set (nextTime0 := match nextGrainTime w !! key with
                    | Some t => JS.or_else t currentTime
                    | None => currentTime
                    end).
  pose proof (visit_start currentTime nextTime0) as Hstart.
  set (nextTime1 := if JS.ltb nextTime0 currentTime
                    then currentTime else nextTime0) in *.
  intros H.
  destruct (grain_loop random fuel fuel currentTime orb nextTime1 w)
    as [[nextTime w1] |] eqn:E; [| discriminate].
  injection H as <-.
  destruct (grain_loop_voices random random_range _ _ _ _ _ _ _ _ Hm E)
    as (_ & Hexit & _).
  destruct (grain_loop_window _ _ _ _ _ _ _ _ Hm E)
    as (vs & Hvs & Hin & Hcount & Hnone).
  pose proof (stride_pos _ Hm) as Hpos.
  exists vs. cbn [voices nextGrainTime with_nextGrainTime].
  split; [exact Hvs |]. split; [| split].
  - revert Hin. apply List.Forall_impl. intros v [Hid Ht].
    split; [exact Hid | lra].
  - destruct (Rlt_dec nextTime1 (currentTime + scheduleAheadTime))
      as [Hlt | Hge].
    + specialize (Hcount Hlt). lra.
    + rewrite Hnone by lra. cbn. unfold scheduleAheadTime. lra.
  - exists nextTime. rewrite lookup_insert_eq.
    split; [reflexivity | exact Hexit].
Qed.


Lemma forEach_orb_window fuel currentTime entries :
  forall w w',
    0 < masterBpm (globalParams w) ->
    forEach_orb random fuel currentTime entries w = Some w' ->
    (exists vs, voices w' = voices w ++ vs /\
                Forall (in_window currentTime entries) vs) /\
    (forall key, In key (map fst entries) ->
       exists c, nextGrainTime w' !! key = Some c /\
                 currentTime + scheduleAheadTime <= c) /\
    (forall key c, nextGrainTime w !! key = Some c ->
       currentTime + scheduleAheadTime <= c ->
       exists c', nextGrainTime w' !! key = Some c' /\
                  currentTime + scheduleAheadTime <= c').
Proof.
  induction entries as [| [key orb] rest IH]; intros w w' Hm H; cbn in H.
  - injection H as <-. split; [| split].
    + exists []. rewrite app_nil_r. split; [reflexivity | constructor].
    + intros key [].
    + intros key c Hc Hle. exists c. auto.
  - destruct (visit_orb random fuel currentTime key orb w) as [w1 |] eqn:E;
      [| discriminate].
    destruct (visit_orb_frame random _ _ _ _ _ _ E)
      as [(_ & Hg & _) [nextTime Hn]].
    destruct (visit_orb_window _ _ _ _ _ _ Hm E)
      as (vs1 & Hvs1 & Hin1 & _ & c1 & Hc1 & Hle1).
    assert (Hm1 : 0 < masterBpm (globalParams w1)) by (rewrite Hg; exact Hm).
    destruct (IH _ _ Hm1 H) as ((vs2 & Hvs2 & Hin2) & Hcur & Hkeep).
    split; [| split].
    + exists (vs1 ++ vs2). rewrite Hvs2, Hvs1, app_assoc.
      split; [reflexivity |]. apply Forall_app. split.
      * revert Hin1. apply List.Forall_impl. intros v [Hid Ht].
        split; [exact Ht |]. exists key, orb.
        split; [left; reflexivity | exact Hid].
      * revert Hin2. apply List.Forall_impl.
        intros v (Ht & k & o & Hk & Hid).
        split; [exact Ht |]. exists k, o. split; [right; exact Hk | exact Hid].
    + intros k [<- | Hk].
      * exact (Hkeep _ _ Hc1 Hle1).
      * apply Hcur. exact Hk.
    + intros k c Hc Hle.
      destruct (decide (key = k)) as [<- | Hne].
      * exact (Hkeep _ _ Hc1 Hle1).
      * apply (Hkeep k c); [| exact Hle].
        rewrite Hn, lookup_insert_ne by exact Hne. exact Hc.
Qed.

(** X5.  A tick schedules inside its lookahead window and fills it: every
    voice the tick at [currentTime] starts belongs to a registered orb and
    starts at or after [currentTime] and less than 100 ms later; when the
    tick returns, the cursor of every registered orb is at or past the end
    of the window. *)
Theorem scheduler_fills_window fuel currentTime w w' :
  0 < masterBpm (globalParams w) ->
  scheduler random fuel currentTime w = Some w' ->
  (exists vs, voices w' = voices w ++ vs /\
              Forall (in_window currentTime (orbs w)) vs) /\
  (forall key, In key (map fst (orbs w)) ->
     exists c, nextGrainTime w' !! key = Some c /\
               currentTime + scheduleAheadTime <= c).
Proof.
  unfold scheduler. intros Hm H.
  destruct (glitch_tick_frame random currentTime w) as (Ho & Hg & _ & Hv).
  apply forEach_orb_window in H; [| rewrite Hg; exact Hm].
  rewrite Ho, Hv in H. destruct H as (Hvs & Hcur & _).
  split; assumption.
Qed.

End TickFacts.

(** ** Scheduler: a STUTTER burst repeats one slice *)

Section RepeatFacts.

Import Engine.
Local Open Scope R_scope.

Variable random : nat -> R.

Lemma grain_step_repeats fuel orb nextTime w nextTime' w' :
  stuttering w = true ->
  0 <= frozenOffset (glitchState w) ->
  grain_step random fuel orb nextTime w = Some (nextTime', w') ->
  glitchState w' = glitchState w /\
  (voices w' = voices w \/
   exists v buf,
     voices w' = voices w ++ [v] /\ buffer orb = Some buf /\
     v_orb v = id orb /\
     v_offset v = wrap_offset (frozenOffset (glitchState w)) (duration buf) /\
     v_grainSize v = 0.05).
Proof.
  unfold grain_step. intros Hst Hf H.
  destruct (scheduleGrain random fuel orb nextTime _ w) as [w1 |] eqn:E;
    [| discriminate].
  match type of H with
  | context [advance random ?e w1] =>
      pose proof (advance_world random e w1) as Hw;
      destruct (advance random e w1) as [step w2]
  end.
  injection H as _ <-. cbn [snd] in Hw.
  assert (Hsame : glitchState w2 = glitchState w1 /\ voices w2 = voices w1)
    by (destruct Hw as [-> | ->]; split; reflexivity).
  destruct Hsame as [-> ->].
  destruct (buffer orb) as [buf |] eqn:Hbuf.
  - destruct (scheduleGrain_voice random _ _ _ _ _ _ _ Hbuf E)
      as (v & Hv & Hid & _ & _ & _ & _ & _ & _ & _ & _ & Hfrozen).
    destruct (scheduleGrain_fields random _ _ _ _ _ _ _ Hbuf E)
      as (v' & _ & _ & _ & _ & _ & Hv' & _ & _ & Hsize & _).
    assert (v = v') by (exact (last_voice_unique _ _ _ _ Hv Hv')). subst v'.
    specialize (Hfrozen Hst). cbv zeta in Hfrozen.
    rewrite ltb_ge in Hfrozen by exact Hf.
    destruct Hfrozen as [Hg Ho]. split; [exact Hg |].
    right. exists v, buf.
    repeat (split; [first [assumption | reflexivity] |]).
    rewrite Hsize, Hst. unfold Rmax. destruct (Rle_dec 0.01 0.05); lra.
  - rewrite (scheduleGrain_no_buffer random _ _ _ _ _ Hbuf) in E.
    injection E as <-. split; [reflexivity | left; reflexivity].
Qed.

Lemma stuttering_same (w w' : Engine) :
  glitchState w' = glitchState w -> stuttering w' = stuttering w.
Proof. unfold stuttering. intros ->. reflexivity. Qed.

Lemma grain_loop_repeats inner fuel currentTime orb :
  forall nextTime w nextTime' w',
    stuttering w = true ->
    0 <= frozenOffset (glitchState w) ->
    grain_loop random inner fuel currentTime orb nextTime w
    = Some (nextTime', w') ->
    glitchState w' = glitchState w /\
    exists vs,
      voices w' = voices w ++ vs /\
      Forall (fun v => exists buf,
                buffer orb = Some buf /\ v_orb v = id orb /\
                v_offset v
                = wrap_offset (frozenOffset (glitchState w)) (duration buf) /\
                v_grainSize v = 0.05) vs.
Proof.
  induction fuel as [| fuel IH]; intros nextTime w nextTime' w' Hst Hf H;
    cbn [grain_loop] in H;
    destruct (JS.ltb nextTime (currentTime + scheduleAheadTime));
    try discriminate.
  - injection H as _ <-. split; [reflexivity |].
    exists []. rewrite app_nil_r. split; [reflexivity | constructor].
  - destruct (grain_step random inner orb nextTime w) as [[t1 w1] |] eqn:E;
      [| discriminate].
    destruct (grain_step_repeats _ _ _ _ _ _ Hst Hf E) as [Hg Hv1].
    assert (Hst1 : stuttering w1 = true)
      by (rewrite (stuttering_same _ _ Hg); exact Hst).
    assert (Hf1 : 0 <= frozenOffset (glitchState w1))
      by (rewrite Hg; exact Hf).
    destruct (IH _ _ _ _ Hst1 Hf1 H) as (Hg2 & vs2 & Hv2 & Hin2).
    rewrite Hg in Hg2, Hin2. split; [exact Hg2 |].
    destruct Hv1 as [Hv1 | (v & buf & Hv1 & Hbuf & Hid & Ho & Hsize)].
    + exists vs2. rewrite Hv2, Hv1. auto.
    + exists (v :: vs2). rewrite Hv2, Hv1, <- app_assoc.
      split; [reflexivity |]. constructor; [| exact Hin2].
      exists buf. auto.
  - injection H as _ <-. split; [reflexivity |].
    exists []. rewrite app_nil_r. split; [reflexivity | constructor].
Qed.

Lemma forEach_orb_repeats fuel currentTime entries :
  forall w w',
    stuttering w = true ->
    0 <= frozenOffset (glitchState w) ->
    forEach_orb random fuel currentTime entries w = Some w' ->
    glitchState w' = glitchState w /\
    exists vs,
      voices w' = voices w ++ vs /\
      Forall (repeats_frozen (frozenOffset (glitchState w)) entries) vs.
Proof.
  induction entries as [| [key orb] rest IH]; intros w w' Hst Hf H; cbn in H.
  - injection H as <-. split; [reflexivity |].
    exists []. rewrite app_nil_r. split; [reflexivity | constructor].
  - destruct (visit_orb random fuel currentTime key orb w) as [w1 |] eqn:E;
      [| discriminate].
    unfold visit_orb in E.
    match type of E with
    | context [grain_loop random fuel fuel currentTime orb ?t w] =>
        destruct (grain_loop random fuel fuel currentTime orb t w)
          as [[nextTime w0] |] eqn:El; [| discriminate]
    end.
    injection E as <-.
    destruct (grain_loop_repeats _ _ _ _ _ _ _ _ Hst Hf El)
      as (Hg & vs1 & Hv1 & Hin1).
    cbn [forEach_orb] in H.
    match type of H with
    | forEach_orb _ _ _ _ ?w1 = _ =>
        assert (Hg1 : glitchState w1 = glitchState w) by exact Hg;
        assert (Hvs1 : voices w1 = voices w ++ vs1) by exact Hv1;
        destruct (IH w1 w') as (Hg2 & vs2 & Hv2 & Hin2);
        [ rewrite (stuttering_same _ _ Hg1); exact Hst
        | rewrite Hg1; exact Hf
        | exact H |]
    end.
    rewrite Hg1 in Hg2, Hin2. split; [exact Hg2 |].
    exists (vs1 ++ vs2). rewrite Hv2, Hvs1, app_assoc.
    split; [reflexivity |]. apply Forall_app. split.
    + revert Hin1. apply List.Forall_impl.
      intros v (buf & Hbuf & Hid & Ho & Hsize).
      exists key, orb, buf. split; [left; reflexivity | auto].
    + revert Hin2. apply List.Forall_impl.
      intros v (k & o & buf & Hk & Hrest).
      exists k, o, buf. split; [right; exact Hk | exact Hrest].
Qed.

(** X6.  Once a STUTTER burst has recorded a non-negative offset, a tick
    inside the burst repeats that slice: it leaves the glitch state as it
    is, and every voice it starts is a 50 ms grain of a registered orb read
    from the recorded offset, wrapped into the buffer of that orb. *)
Theorem stutter_repeats_slice fuel currentTime w w' :
  stuttering w = true ->
  0 <= frozenOffset (glitchState w) ->
  currentTime <= endTime (glitchState w) ->
  scheduler random fuel currentTime w = Some w' ->
  glitchState w' = glitchState w /\
  exists vs,
    voices w' = voices w ++ vs /\
    Forall (repeats_frozen (frozenOffset (glitchState w)) (orbs w)) vs.
Proof.
  intros Hst Hf Ht H. unfold scheduler in H.
  assert (Ha : active (glitchState w) = true).
  { unfold stuttering in Hst. apply andb_prop in Hst. tauto. }
  rewrite (glitch_tick_mid_burst random _ _ Ha Ht) in H.
  exact (forEach_orb_repeats _ _ _ _ _ Hst Hf H).
Qed.

End RepeatFacts.

Section TickWitnesses.

Import Engine.
Local Open Scope R_scope.


Lemma scheduler_fills_window_witness :
  (exists vs, voices pad_world_after = voices pad_world ++ vs /\
              Forall (in_window 0 (orbs pad_world)) vs) /\
  (forall key, In key (map fst (orbs pad_world)) ->
     exists c, nextGrainTime pad_world_after !! key = Some c /\
               0 + scheduleAheadTime <= c).
Proof.
  apply (scheduler_fills_window zero_random zero_random_range 1 0
           pad_world pad_world_after).
  - cbn. lra.
  - exact pad_tick.
Defined.


(** A later grain of the sample burst reads the recorded offset. *)
Lemma later_stutter_grain fuel t lfoVal cursors n vs :
  scheduleGrain zero_random fuel scan_orb t lfoVal
    (burst_world 0 cursors n vs)
  = Some (burst_world 0 cursors (S (S n)) (vs ++ [stutter_voice t 0])).
Proof.
  unfold scheduleGrain, stuttering, draw, zero_random.
  cbn -[JS.ltb JS.gtb Rmax JS.pow clamp_rate wrap_offset].
  real_decide.
  cbn -[JS.ltb JS.gtb Rmax JS.pow clamp_rate wrap_offset].
  rewrite (wrap_offset_within 0 4) by lra. reflexivity.
Qed.

Lemma burst_second_tick :
  scheduler zero_random 1 0.2 burst_world_after = Some burst_world_later.
Proof.
  unfold scheduler.
  rewrite glitch_tick_mid_burst by (cbn; first [lra | reflexivity]).
  cbn [orbs burst_world_after burst_world forEach_orb]. unfold visit_orb.
  change (nextGrainTime burst_world_after !! "scan"%string)
    with (Some (0.15 + 0.05 + 0.05)).
  cbv iota. rewrite or_else_nonzero by lra. real_decide.
  cbn [grain_loop]. unfold scheduleAheadTime. real_decide.
  unfold grain_step, burst_world_after.
  rewrite later_stutter_grain, stutter_advance.
  real_decide. reflexivity.
Qed.

Lemma stutter_repeats_slice_witness :
  glitchState burst_world_later = glitchState burst_world_after /\
  exists vs,
    voices burst_world_later = voices burst_world_after ++ vs /\
    Forall (repeats_frozen (frozenOffset (glitchState burst_world_after))
              (orbs burst_world_after)) vs.
Proof.
  apply (stutter_repeats_slice zero_random 1 0.2 burst_world_after
           burst_world_later).
  - reflexivity.
  - cbn. lra.
  - cbn. lra.
  - exact burst_second_tick.
Defined.

End TickWitnesses.

(** ** Scheduler: the LFO *)

Section LfoFacts.

Import Engine.
Local Open Scope R_scope.

(** The search loop of the beat-synced LFO, after any prefix of the
    ratios: the candidate held is the first of the closest ones seen. *)
Lemma snap_search (q f : R) (l : list R) :
  forall (seen : list R) (acc : R * option R),
    match snd acc with
    | None => seen = []
    | Some d =>
        exists r, In r seen /\ fst acc = q * r /\ d = Rabs (q * r - f) /\
                  forall r', In r' seen -> d <= Rabs (q * r' - f)
    end ->
    match snd (fold_left
                 (fun (acc : R * option R) (r : R) =>
                    let targetFreq := q * r in
                    let dist := Rabs (targetFreq - f) in
                    let closer := match snd acc with
                                  | None => true
                                  | Some minDist => JS.ltb dist minDist
                                  end in
                    if closer then (targetFreq, Some dist) else acc)
                 l acc) with
    | None => seen ++ l = []
    | Some d =>
        exists r, In r (seen ++ l) /\
                  fst (fold_left
                         (fun (acc : R * option R) (r : R) =>
                            let targetFreq := q * r in
                            let dist := Rabs (targetFreq - f) in
                            let closer := match snd acc with
                                          | None => true
                                          | Some minDist => JS.ltb dist minDist
                                          end in
                            if closer then (targetFreq, Some dist) else acc)
                         l acc) = q * r /\
                  d = Rabs (q * r - f) /\
                  forall r', In r' (seen ++ l) -> d <= Rabs (q * r' - f)
    end.
Proof.
  induction l as [| x l IH]; intros seen acc Hacc.
  - cbn [fold_left]. rewrite app_nil_r. exact Hacc.
  - cbn [fold_left].
    replace (seen ++ x :: l) with ((seen ++ [x]) ++ l)
      by (rewrite <- app_assoc; reflexivity).
    apply IH. cbv zeta.
    destruct acc as [c [d |]]; cbn [fst snd] in *.
    + destruct Hacc as (r & Hr & Hc & Hd & Hmin).
      destruct (JS.ltb (Rabs (q * x - f)) d) eqn:E; cbn [fst snd].
      * apply ltb_true_iff in E.
        exists x. split; [apply in_or_app; right; left; reflexivity |].
        split; [reflexivity |]. split; [reflexivity |].
        intros r' Hr'. apply in_app_or in Hr'.
        destruct Hr' as [Hr' | [<- | []]]; [| lra].
        specialize (Hmin r' Hr'). lra.
      * apply ltb_false_iff in E.
        exists r. split; [apply in_or_app; left; exact Hr |].
        split; [exact Hc |]. split; [exact Hd |].
        intros r' Hr'. apply in_app_or in Hr'.
        destruct Hr' as [Hr' | [<- | []]]; [apply Hmin; exact Hr' | exact E].
    + subst seen. cbn [fst snd app].
      exists x. split; [left; reflexivity |].
      split; [reflexivity |]. split; [reflexivity |].
      intros r' [<- | []]. lra.
Qed.

(** X7.  The beat-synced LFO frequency is the beat frequency times one of
    the eight ratios 1/8 .. 4, and no other of these products is closer to
    the frequency the user asked for. *)
Theorem snap_lfo_nearest (quarterNoteHz lfoFreq : R) :
  exists r,
    In r ratios /\
    snap_lfo quarterNoteHz lfoFreq = quarterNoteHz * r /\
    forall r', In r' ratios ->
      Rabs (snap_lfo quarterNoteHz lfoFreq - lfoFreq)
      <= Rabs (quarterNoteHz * r' - lfoFreq).
Proof.
  pose proof (snap_search quarterNoteHz lfoFreq ratios [] (lfoFreq, None)
                eq_refl) as H.
  unfold snap_lfo. cbn [app] in H.
  match type of H with
  | match snd ?a with _ => _ end => destruct (snd a) as [d |] eqn:Ed
  end.
  - destruct H as (r & Hr & Hc & Hd & Hmin).
    exists r. split; [exact Hr |]. split; [exact Hc |].
    intros r' Hr'. rewrite Hc, <- Hd. apply Hmin. exact Hr'.
  - discriminate H.
Qed.

(** The LFO sample never exceeds the depth. *)
Lemma lfo_sample_bound (g : GlobalParams) (p : GranularParams) (t : R) :
  Rabs (lfo_sample g p t) <= Rabs (lfoDepth p).
Proof.
  unfold lfo_sample. cbv zeta. rewrite Rabs_mult.
  match goal with
  | |- Rabs (sin ?x) * _ <= _ =>
      pose proof (SIN_bound x) as [Hlo Hhi];
      assert (Hs : Rabs (sin x) <= 1) by (apply Rabs_le; lra)
  end.
  pose proof (Rabs_pos (lfoDepth p)). nra.
Qed.

(** X8.  The LFO moves a parameter by no more than its depth allows: the
    sample lies within the depth, so the scan position moves by at most
    half the depth and the grain size by at most a fifth of it; and with a
    depth below 1 a pitch LFO never brings the base rate to zero. *)
Theorem lfo_modulation_bounded (g : GlobalParams) (orb : AudioOrb) (t : R) :
  let lfoVal := lfo_sample g (params orb) t in
  let depth := Rabs (lfoDepth (params orb)) in
  Rabs lfoVal <= depth /\
  Rabs (modulated_position orb lfoVal - position (params orb))
  <= 0.5 * depth /\
  Rabs (modulated_size orb lfoVal - grainSize (params orb)) <= 0.2 * depth /\
  Rabs (modulated_rate orb lfoVal - 1) <= depth /\
  (depth < 1 -> 0 < modulated_rate orb lfoVal).
Proof.
  cbv zeta. pose proof (lfo_sample_bound g (params orb) t) as Hb.
  set (lfoVal := lfo_sample g (params orb) t) in *.
  pose proof (Rabs_pos (lfoDepth (params orb))) as Hd.
  set (depth := Rabs (lfoDepth (params orb))) in *.
  assert (Hv : - depth <= lfoVal <= depth).
  { unfold Rabs in Hb. destruct (Rcase_abs lfoVal); lra. }
  unfold modulated_position, modulated_size, modulated_rate.
  split; [exact Hb |].
  destruct (lfoTarget (params orb));
    repeat split; try (apply Rabs_le; lra); intros; lra.
Qed.

End LfoFacts.

(** ** Scheduler: the beat grid *)

Section GridFacts.

Import Engine.
Local Open Scope R_scope.

Variable random : nat -> R.
Hypothesis random_range : forall n, 0 <= random n < 1.

(** The subdivision is a step function of the density. *)
Lemma subdivision_steps (d : R) :
  exists k : nat,
    (k <= 3)%nat /\ subdivision_of d = / 2 ^ k /\
    (d < 0.25 <-> k = 0%nat) /\ (0.75 <= d <-> k = 3%nat).
Proof.
  unfold subdivision_of, JS.ltb.
  destruct (Rlt_dec d 0.25); [exists 0%nat | ].
  { split; [lia |]. split; [cbn; lra |]. split; split; intros; try lra; lia. }
  destruct (Rlt_dec d 0.5); [exists 1%nat | ].
  { split; [lia |]. split; [cbn; lra |]. split; split; intros; try lra; lia. }
  destruct (Rlt_dec d 0.75); [exists 2%nat | exists 3%nat].
  { split; [lia |]. split; [cbn; lra |]. split; split; intros; try lra; lia. }
  split; [lia |]. split; [cbn; lra |]. split; split; intros; try lra; lia.
Qed.

Lemma subdivision_antitone (d1 d2 : R) :
  d1 <= d2 -> subdivision_of d2 <= subdivision_of d1.
Proof.
  intros H. unfold subdivision_of, JS.ltb.
  repeat match goal with
         | |- context [Rlt_dec ?a ?b] => destruct (Rlt_dec a b)
         end; lra.
Qed.

(** X9.  With beat sync on and no STUTTER burst running, the cursor
    advances by one beat divided by 1, 2, 4 or 8, within 2.5 % either way:
    grains fall on the quarter-, eighth-, sixteenth- or thirty-second-note
    grid of the master tempo.  The division depends on the density alone
    and never gets coarser as the density grows. *)
Theorem beat_sync_grid (e : R) (w : Engine) :
  0 < masterBpm (globalParams w) ->
  stuttering w = false ->
  beatSync (globalParams w) = true ->
  (exists k : nat,
     (k <= 3)%nat /\
     let interval := 60 / masterBpm (globalParams w) / 2 ^ k in
     0.975 * interval <= fst (advance random e w) < 1.025 * interval) /\
  forall e', e <= e' ->
    subdivision_of (Rmax 0 (Rmin 1 e')) <= subdivision_of (Rmax 0 (Rmin 1 e)).
Proof.
  intros Hm Hst Hsync. split.
  - destruct (advance_step random random_range e w Hm) as (_ & Hgrid & _).
    specialize (Hgrid Hst Hsync). cbv zeta in Hgrid.
    destruct (subdivision_steps (Rmax 0 (Rmin 1 e))) as (k & Hk & Hs & _).
    exists k. split; [exact Hk |]. cbv zeta.
    rewrite Hs in Hgrid. unfold Rdiv in *. tauto.
  - intros e' He. apply subdivision_antitone.
    apply Rle_max_compat_l. apply Rle_min_compat_l. exact He.
Qed.

End GridFacts.

Section LfoWitnesses.

Import Engine.
Local Open Scope R_scope.

Lemma beat_sync_grid_witness :
  (exists k : nat,
     (k <= 3)%nat /\
     let interval := 60 / 120 / 2 ^ k in
     0.975 * interval
     <= fst (advance zero_random 0.5
               (updateGlobalParams synced_params initial))
     < 1.025 * interval) /\
  forall e', 0.5 <= e' ->
    subdivision_of (Rmax 0 (Rmin 1 e'))
    <= subdivision_of (Rmax 0 (Rmin 1 0.5)).
Proof.
  apply (beat_sync_grid zero_random zero_random_range 0.5
           (updateGlobalParams synced_params initial)).
  - cbn. lra.
  - reflexivity.
  - reflexivity.
Defined.

End LfoWitnesses.

(** ** The grain envelope *)

Section EnvelopeFacts.

Import Engine Mix.
Local Open Scope R_scope.

(** The window is the square of a sine. *)
Lemma hanning_sample_sin (i : nat) :
  hanning_sample i = sin (PI * INR i / 1023) * sin (PI * INR i / 1023).
Proof.
  unfold hanning_sample.
  replace (2 * PI * INR i / 1023) with (2 * (PI * INR i / 1023)) by lra.
  rewrite cos_2a_sin. lra.
Qed.

Lemma hanning_sample_range (i : nat) : 0 <= hanning_sample i <= 1.
Proof.
  rewrite hanning_sample_sin.
  pose proof (SIN_bound (PI * INR i / 1023)) as [Hlo Hhi]. nra.
Qed.

Lemma INR_1023 : INR 1023 = 1023.
Proof. rewrite INR_IZR_INZ. reflexivity. Qed.

Lemma hanning_sample_ends : hanning_sample 0 = 0 /\ hanning_sample 1023 = 0.
Proof.
  split; rewrite hanning_sample_sin.
  - replace (PI * INR 0 / 1023) with 0 by (cbn [INR]; lra).
    rewrite sin_0. lra.
  - replace (PI * INR 1023 / 1023) with PI by (rewrite INR_1023; field).
    rewrite sin_PI. lra.
Qed.

Lemma hanning_sample_mirror (i : nat) :
  (i <= 1023)%nat -> hanning_sample (1023 - i) = hanning_sample i.
Proof.
  intros Hi. rewrite !hanning_sample_sin.
  rewrite minus_INR by exact Hi. rewrite INR_1023.
  replace (PI * (1023 - INR i) / 1023) with (PI - PI * INR i / 1023)
    by (field; lra).
  rewrite sin_PI_x. reflexivity.
Qed.

Lemma hanning_sample_inside (i : nat) :
  (0 < i < 1023)%nat -> 0 < hanning_sample i.
Proof.
  intros [Hlo Hhi]. rewrite hanning_sample_sin.
  assert (H0 : 0 < INR i) by (apply lt_0_INR; exact Hlo).
  assert (H1 : INR i < 1023) by (rewrite <- INR_1023; apply lt_INR; exact Hhi).
  pose proof PI_RGT_0 as Hpi.
  assert (Hs : 0 < sin (PI * INR i / 1023)).
  { apply sin_gt_0; [nra |]. nra. }
  nra.
Qed.

Lemma scaledCurve_nth (peakGain : R) (i : nat) :
  (i < 1024)%nat ->
  nth i (scaledCurve peakGain) 0 = hanning_sample i * peakGain.
Proof.
  intros Hi. unfold scaledCurve, hanningCurve.
  rewrite map_map.
  rewrite (nth_indep _ 0 (hanning_sample 0 * peakGain))
    by (rewrite length_map, length_seq; exact Hi).
  rewrite (map_nth (fun x => hanning_sample x * peakGain) (seq 0 1024) 0%nat).
  rewrite seq_nth by exact Hi. reflexivity.
Qed.

(** X10.  The envelope of a grain: the scaled Hanning curve has 1024
    samples, each between 0 and the peak gain of the grain; it starts and
    ends at 0, is symmetric about its middle, and for a positive peak gain
    is positive everywhere between its two ends. *)
Theorem scaledCurve_envelope (peakGain : R) (i : nat) :
  0 <= peakGain ->
  (i < 1024)%nat ->
  length (scaledCurve peakGain) = 1024%nat /\
  0 <= nth i (scaledCurve peakGain) 0 <= peakGain /\
  nth 0 (scaledCurve peakGain) 0 = 0 /\
  nth 1023 (scaledCurve peakGain) 0 = 0 /\
  nth (1023 - i) (scaledCurve peakGain) 0 = nth i (scaledCurve peakGain) 0 /\
  (0 < peakGain -> (0 < i < 1023)%nat -> 0 < nth i (scaledCurve peakGain) 0).
Proof.
  intros Hg Hi.
  rewrite !scaledCurve_nth by lia.
  destruct hanning_sample_ends as [H0 H1023].
  pose proof (hanning_sample_range i) as Hr.
  split; [unfold scaledCurve, hanningCurve;
          rewrite !length_map, length_seq; reflexivity |].
  split; [nra |].
  split; [rewrite H0; lra |].
  split; [rewrite H1023; lra |].
  split; [rewrite hanning_sample_mirror by lia; reflexivity |].
  intros Hpos Hin. pose proof (hanning_sample_inside i Hin). nra.
Qed.

Lemma scaledCurve_envelope_witness :
  length (scaledCurve 1) = 1024%nat /\
  0 <= nth 256 (scaledCurve 1) 0 <= 1 /\
  nth 0 (scaledCurve 1) 0 = 0 /\
  nth 1023 (scaledCurve 1) 0 = 0 /\
  nth (1023 - 256) (scaledCurve 1) 0 = nth 256 (scaledCurve 1) 0 /\
  (0 < 1 -> (0 < 256 < 1023)%nat -> 0 < nth 256 (scaledCurve 1) 0).
Proof.
  apply (scaledCurve_envelope 1 256); [lra | lia].
Defined.

End EnvelopeFacts.

(** ** The controls and what they guarantee the engine *)

Section ControlFacts.

Import Engine Mix Controls.
Local Open Scope R_scope.

Lemma knob_value_range (min max startVal deltaY : R) :
  min <= max -> min <= knob_value min max startVal deltaY <= max.
Proof.
  intros H. unfold knob_value. cbv zeta. unfold Rmax, Rmin. real_cases.
Qed.

(** X11.  A knob never leaves its range: whatever the drag, the value it
    hands on lies between [min] and [max]; it grows with the distance
    dragged upwards, a drag of no distance returns a value in range
    unchanged, and 100 pixels cover the whole range. *)
Theorem knob_value_clamped (min max startVal deltaY : R) :
  min <= max ->
  min <= knob_value min max startVal deltaY <= max /\
  (forall deltaY', deltaY <= deltaY' ->
     knob_value min max startVal deltaY
     <= knob_value min max startVal deltaY') /\
  (min <= startVal <= max -> knob_value min max startVal 0 = startVal) /\
  knob_value min max min 100 = max.
Proof.
  intros H. split; [apply knob_value_range; exact H |].
  unfold knob_value. cbv zeta. split; [| split].
  - intros d' Hd.
    assert (Hmono : startVal + deltaY * 0.01 * (max - min)
                    <= startVal + d' * 0.01 * (max - min)) by nra.
    apply Rle_max_compat_l. apply Rle_min_compat_l. exact Hmono.
  - intros Hs. unfold Rmax, Rmin. real_cases.
  - unfold Rmax, Rmin. real_cases.
Qed.

Lemma knob_value_clamped_witness :
  0 <= knob_value 0 1 0.3 20 <= 1 /\
  (forall deltaY', 20 <= deltaY' ->
     knob_value 0 1 0.3 20 <= knob_value 0 1 0.3 deltaY') /\
  (0 <= 0.3 <= 1 -> knob_value 0 1 0.3 0 = 0.3) /\
  knob_value 0 1 0 100 = 1.
Proof.
  apply (knob_value_clamped 0 1 0.3 20). lra.
Defined.

Lemma round_integer (x : R) : exists n : Z, round x = IZR n.
Proof. exists (Zfloor (x + 0.5)). reflexivity. Qed.

(** The tempo a committed field leaves is an integer from 10 to 999, unless
    the text was not a number. *)
Lemma commitBpm_range (parsed : JsNumber) (p : GlobalParams) :
  parsed <> JsNaN ->
  exists n : Z, (10 <= n <= 999)%Z /\ masterBpm (commitBpm parsed p) = IZR n.
Proof.
  intros Hp. destruct parsed as [| [|] | x]; [congruence | | |].
  - exists 999%Z. split; [lia | reflexivity].
  - exists 10%Z. split; [lia | reflexivity].
  - unfold commitBpm, round. cbv zeta.
    set (n := Zfloor (x + 0.5)).
    unfold JS.gtb, JS.ltb.
    destruct (Rlt_dec (IZR n) 10) as [Hlo | Hlo].
    + destruct (Rlt_dec 999 10); [lra |].
      exists 10%Z. split; [lia | reflexivity].
    + destruct (Rlt_dec 999 (IZR n)) as [Hhi | Hhi].
      * exists 999%Z. split; [lia | reflexivity].
      * exists n. split; [| reflexivity].
        split; [apply le_IZR; lra | apply le_IZR; lra].
Qed.

Lemma gesture_range (g : Gesture) (p : GlobalParams) :
  ui_range p -> ui_range (gesture g p).
Proof.
  intros (Hc & Hs & Ho & Hm). unfold ui_range.
  destruct g as [parsed | | s d | s d | s d]; cbn [gesture].
  - destruct (match parsed with JsNaN => true | _ => false end) eqn:E.
    + destruct parsed; try discriminate. cbn. auto.
    + assert (Hp : parsed <> JsNaN) by (intros ->; discriminate).
      pose proof (commitBpm_range parsed p Hp) as Hn.
      destruct parsed as [| [|] | x]; try discriminate; cbn in *; auto.
  - cbn. auto.
  - cbn. pose proof (knob_value_range 0 1 s d). split; [lra | auto].
  - cbn. pose proof (knob_value_range 0 1 s d).
    split; [auto | split; [lra | auto]].
  - cbn. pose proof (knob_value_range 0 2.0 s d).
    split; [auto | split; [auto | split; [lra | auto]]].
Qed.

Lemma gestures_range (gs : list Gesture) : ui_range (gestures gs).
Proof.
  unfold gestures.
  assert (G : forall p, ui_range p ->
                ui_range (fold_left (fun p g => gesture g p) gs p)).
  { induction gs as [| g rest IH]; intros p Hp; cbn [fold_left].
    - exact Hp.
    - apply IH, gesture_range, Hp. }
  apply G. unfold ui_range, app_params. cbn.
  repeat (split; [lra |]). exists 120%Z. split; [lia | reflexivity].
Qed.

(** X12.  Whatever the user does with the tempo field, the beat-sync
    button and the three global knobs, the global parameters handed to the
    engine stay in range: chaos and space in [0, 1], the output gain in
    [0, 2], and the master tempo an integer from 10 to 999. *)
Theorem gestures_keep_range (gs : list Gesture) :
  ui_range (gestures gs) /\
  (forall parsed p,
      masterBpm (commitBpm JsNaN p) = masterBpm p /\
      (parsed <> JsNaN ->
       10 <= masterBpm (commitBpm parsed p) <= 999)).
Proof.
  split.
  - apply gestures_range.
  - intros parsed p. split; [reflexivity |].
    intros Hp. destruct (commitBpm_range parsed p Hp) as (n & [Hlo Hhi] & ->).
    split; apply IZR_le; assumption.
Qed.

(** X13.  The mix targets [updateGlobalParams] sets: the feedback gain of
    the delay loop never exceeds 0.7 and is not negative for a space
    control that is not; without beat sync the delay is 0.5 s; with it the
    delay is three quarters of a beat, which fits the 5 s delay line
    exactly when the master tempo is at least 9 BPM, and lies in
    (0, 4.5] s for every tempo the controls allow. *)
Theorem mix_targets_bounds (params : GlobalParams) :
  feedbackGain_gain (mix_targets params) <= 0.7 /\
  (0 <= space params -> 0 <= feedbackGain_gain (mix_targets params)) /\
  (beatSync params = false ->
   delayNode_delayTime (mix_targets params) = 0.5) /\
  (beatSync params = true -> 0 < masterBpm params ->
   (delayNode_delayTime (mix_targets params) <= maxDelayTime
    <-> 9 <= masterBpm params)) /\
  (ui_range params ->
   0 < delayNode_delayTime (mix_targets params) <= 4.5).
Proof.
  unfold mix_targets, maxDelayTime. cbn.
  split; [apply Rmin_l |].
  split; [intros Hs; apply Rmin_glb; lra |].
  split; [intros ->; reflexivity |].
  assert (Hdelay : forall b, 0 < b -> 60 / b * b = 60)
    by (intros b Hb; field; lra).
  assert (Hpos : forall b, 0 < b -> 0 < 60 / b * 0.75).
  { intros b Hb. assert (0 < 60 / b) by (apply Rdiv_lt_0_compat; lra). lra. }
  split.
  - intros -> Hm. specialize (Hdelay _ Hm). specialize (Hpos _ Hm).
    split; intros H; nra.
  - intros (_ & _ & _ & n & [Hlo Hhi] & Hn).
    apply IZR_le in Hlo, Hhi. rewrite <- Hn in Hlo, Hhi.
    destruct (beatSync params); [| lra].
    assert (Hm : 0 < masterBpm params) by lra.
    specialize (Hdelay _ Hm). specialize (Hpos _ Hm). nra.
Qed.

End ControlFacts.

(** ** The orb registry *)

Section RegistryOrder.

Import Engine Controls.
Local Open Scope R_scope.

Lemma map_set_fresh (k : string) (v : AudioOrb)
    (m : list (string * AudioOrb)) :
  ~ In k (map fst m) -> map_set k v m = m ++ [(k, v)].
Proof.
  induction m as [| [k0 v0] rest IH]; cbn; intros Hk; [reflexivity |].
  destruct (String.eqb k k0) eqn:E.
  - apply String.eqb_eq in E. exfalso. apply Hk. left. congruence.
  - rewrite IH by tauto. reflexivity.
Qed.

Lemma map_set_present (k : string) (v : AudioOrb)
    (m : list (string * AudioOrb)) :
  In k (map fst m) -> map fst (map_set k v m) = map fst m.
Proof.
  induction m as [| [k0 v0] rest IH]; cbn; intros Hk; [tauto |].
  destruct (String.eqb k k0) eqn:E; cbn.
  - apply String.eqb_eq in E. subst. reflexivity.
  - apply String.eqb_neq in E. rewrite IH; [reflexivity |].
    destruct Hk as [Hk | Hk]; [congruence | exact Hk].
Qed.

(** The keys after a [set]: unchanged for a key that is there, else the
    new key goes last. *)
Lemma map_set_keys (k : string) (v : AudioOrb)
    (m : list (string * AudioOrb)) :
  map fst (map_set k v m)
  = if in_dec String.string_dec k (map fst m)
    then map fst m else map fst m ++ [k].
Proof.
  destruct (in_dec String.string_dec k (map fst m)) as [Hin | Hout].
  - apply map_set_present. exact Hin.
  - rewrite map_set_fresh by exact Hout. rewrite map_app. reflexivity.
Qed.

Lemma map_set_NoDup (k : string) (v : AudioOrb)
    (m : list (string * AudioOrb)) :
  List.NoDup (map fst m) -> List.NoDup (map fst (map_set k v m)).
Proof.
  intros Hm. rewrite map_set_keys.
  destruct (in_dec String.string_dec k (map fst m)) as [Hin | Hout];
    [exact Hm |].
  apply NoDup_ListNoDup. apply NoDup_ListNoDup in Hm.
  apply NoDup_app. split; [exact Hm |]. split.
  - intros x Hx Hx'. apply list_elem_of_In in Hx.
    apply list_elem_of_singleton in Hx'. subst. tauto.
  - apply NoDup_singleton.
Qed.

Lemma registry_fold (orbsList : list AudioOrb) :
  forall m : list (string * AudioOrb),
    let reg := fold_left (fun m orb => map_set (id orb) orb m) orbsList m in
    (List.NoDup (map fst m) -> List.NoDup (map fst reg)) /\
    (forall k, In k (map fst reg)
               <-> In k (map fst m) \/ In k (map id orbsList)) /\
    (List.NoDup (map fst m ++ map id orbsList) ->
     reg = m ++ map (fun orb => (id orb, orb)) orbsList).
Proof.
  induction orbsList as [| o rest IH]; intros m; cbn [fold_left map].
  - split; [auto |]. split; [intros k; cbn; tauto |].
    intros _. rewrite app_nil_r. reflexivity.
  - destruct (IH (map_set (id o) o m)) as (Hnd & Hkeys & Hlist).
    cbv zeta in *. split; [| split].
    + intros Hm. apply Hnd, map_set_NoDup, Hm.
    + intros k. rewrite Hkeys, map_set_keys.
      destruct (in_dec String.string_dec (id o) (map fst m)) as [Hin | Hout].
      * cbn. split; [tauto |]. intros [H | [<- | H]]; auto.
      * rewrite in_app_iff. cbn. tauto.
    + intros Hall.
      assert (Hfresh : ~ In (id o) (map fst m)).
      { intros Hin. apply List.NoDup_remove_2 in Hall.
        apply Hall. apply in_or_app. left. exact Hin. }
      rewrite Hlist.
      * rewrite map_set_fresh by exact Hfresh.
        rewrite <- app_assoc. reflexivity.
      * rewrite map_set_fresh by exact Hfresh.
        rewrite map_app, <- app_assoc. exact Hall.
Qed.

(** X14.  [updateOrbs] replaces the registry: what was registered before
    plays no part in the result.  The registry holds each id of the list
    once and no other key, every orb under its own id; and when the ids of
    the list are distinct the registry is the list itself, so the scheduler
    visits the orbs in list order. *)
Theorem updateOrbs_registry (previous orbsList : list AudioOrb)
    (w : Engine) :
  let reg := orbs (updateOrbs orbsList (updateOrbs previous w)) in
  reg = orbs (updateOrbs orbsList w) /\
  List.NoDup (map fst reg) /\
  (forall k, In k (map fst reg) <-> In k (map id orbsList)) /\
  keyed_by_id reg /\
  (List.NoDup (map id orbsList) ->
   reg = map (fun orb => (id orb, orb)) orbsList).
Proof.
  cbv zeta. split; [reflexivity |].
  assert (Hreg : orbs (updateOrbs orbsList (updateOrbs previous w))
                 = fold_left (fun m orb => map_set (id orb) orb m)
                     orbsList []) by reflexivity.
  destruct (registry_fold orbsList []) as (Hnd & Hkeys & Hlist).
  cbv zeta in *. rewrite Hreg.
  split; [apply Hnd; constructor |].
  split; [intros k; rewrite Hkeys; cbn; tauto |].
  split; [rewrite <- Hreg; apply updateOrbs_keyed |].
  intros Hids. apply Hlist. exact Hids.
Qed.

Lemma updateParam_ids (i : string) (e : ParamEdit) (l : list AudioOrb) :
  map id (updateParam i e l) = map id l.
Proof.
  unfold updateParam. rewrite map_map. apply map_ext.
  intros o. destruct (String.eqb (id o) i); reflexivity.
Qed.

Lemma registry_keys_by_ids (l l' : list AudioOrb) :
  map id l = map id l' ->
  forall m m' : list (string * AudioOrb),
    map fst m = map fst m' ->
    map fst (fold_left (fun m orb => map_set (id orb) orb m) l m)
    = map fst (fold_left (fun m orb => map_set (id orb) orb m) l' m').
Proof.
  revert l'. induction l as [| o rest IH]; intros [| o' rest'] Hids m m' Hm;
    try discriminate; cbn [fold_left].
  - exact Hm.
  - cbn in Hids. injection Hids as Hid Hrest.
    apply IH; [exact Hrest |].
    rewrite !map_set_keys, Hid, Hm. reflexivity.
Qed.

(** X15.  Editing a parameter in the advanced view changes the parameters
    of the orbs with the given id and nothing else: the list keeps its
    length and order, every orb keeps its id, buffer and detected tempo,
    orbs with another id are untouched, and handing the edited list to the
    engine registers the same keys in the same order and leaves every
    scheduling cursor where it was. *)
Theorem updateParam_keeps_orbs (i : string) (e : ParamEdit)
    (prev : list AudioOrb) (w : Engine) :
  map id (updateParam i e prev) = map id prev /\
  map buffer (updateParam i e prev) = map buffer prev /\
  map detectedBpm (updateParam i e prev) = map detectedBpm prev /\
  (forall n o, nth_error prev n = Some o -> id o <> i ->
               nth_error (updateParam i e prev) n = Some o) /\
  (forall n o, nth_error prev n = Some o -> id o = i ->
               exists o', nth_error (updateParam i e prev) n = Some o' /\
                          params o' = edit_params e (params o)) /\
  map fst (orbs (updateOrbs (updateParam i e prev) w))
  = map fst (orbs (updateOrbs prev w)) /\
  nextGrainTime (updateOrbs (updateParam i e prev) w) = nextGrainTime w.
Proof.
  split; [apply updateParam_ids |].
  split.
  { unfold updateParam. rewrite map_map. apply map_ext.
    intros o. destruct (String.eqb (id o) i); reflexivity. }
  split.
  { unfold updateParam. rewrite map_map. apply map_ext.
    intros o. destruct (String.eqb (id o) i); reflexivity. }
  split.
  { intros n o Hn Hne. unfold updateParam.
    rewrite nth_error_map, Hn. cbn.
    rewrite (proj2 (String.eqb_neq (id o) i) Hne). reflexivity. }
  split.
  { intros n o Hn Heq. unfold updateParam.
    rewrite nth_error_map, Hn. cbn.
    rewrite (proj2 (String.eqb_eq (id o) i) Heq).
    eexists. split; reflexivity. }
  split; [| reflexivity].
  unfold updateOrbs. cbn [orbs with_orbs].
  apply registry_keys_by_ids; [apply updateParam_ids | reflexivity].
Qed.

End RegistryOrder.

(** ** From the controls to the beat-sync loops *)

Section TempoRange.

Import Engine Controls.

(** Whatever [detectBPM] returns lies between 70 and 180. *)
Lemma detectBPM_value_range (fuel : nat) (sampleRate : Q) (r : Tempo.Rendering)
    (v : Z) :
  (0 < sampleRate)%Q ->
  Tempo.detectBPM fuel sampleRate r = Some v -> (70 <= v <= 180)%Z.
Proof.
  intros Hsr H.
  destruct (detectBPM_returns sampleRate r Hsr) as (v0 & fuel0 & Hv & Hret).
  pose proof (detectBPM_mono fuel (max fuel fuel0) _ _ _ H
                (Nat.le_max_l _ _)) as H1.
  rewrite (Hret _ (Nat.le_max_r _ _)) in H1. injection H1 as <-. exact Hv.
Qed.

Local Open Scope R_scope.

(** Four turns of each loop are enough between these tempo bounds. *)
Lemma fold_ratio_four (m d : R) :
  10 <= m <= 999 -> 70 <= d <= 180 ->
  exists r, fold_ratio 4 (m / d) = Some r /\ 0.75 <= r <= 1.5.
Proof.
  intros [Hm1 Hm2] [Hd1 Hd2].
  assert (Hinv : / 180 <= / d <= / 70).
  { split; apply Rinv_le_contravar; lra. }
  assert (Hx : / 18 <= m / d <= 999 / 70) by (unfold Rdiv; nra).
  destruct (fold_down_exits 4 (m / d) 4) as (y & Hy & Hy15 & Hdown & Hsame);
    [lra | cbn; lra | lia |].
  assert (Hy0 : / 18 <= y).
  { destruct (Rlt_dec 1.5 (m / d)) as [Hgt | Hle].
    - specialize (Hdown Hgt). lra.
    - rewrite Hsame by lra. lra. }
  destruct (fold_up_exits 4 y 4) as (r & Hr & Hr75 & Hup & Hsame');
    [lra | cbn; lra | lia |].
  exists r. unfold fold_ratio. rewrite Hy. split; [exact Hr |].
  split; [exact Hr75 |].
  destruct (Rlt_dec y 0.75) as [Hlt | Hge].
  - specialize (Hup Hlt). lra.
  - rewrite Hsame' by lra. lra.
Qed.

(** X16.  For every tempo the application can hold, the beat-sync loops
    of [scheduleGrain] end within four turns each: with global parameters
    reached by any sequence of gestures and an orb created from a buffer
    whose tempo [detectBPM] returned, the ratio is found with fuel 4 and
    lies in [0.75, 1.5], and [scheduleGrain] returns; editing the
    parameters of the orb changes none of this. *)
Theorem app_tempos_fold_in_four (random : nat -> R) (gs : list Gesture)
    (fuel : nat) (sampleRate : Q) (r : Tempo.Rendering) (bpm : Z)
    (i : string) (buf : AudioBuffer) (edits : list ParamEdit)
    (time lfoVal : R) (w : Engine) :
  (0 < sampleRate)%Q ->
  Tempo.detectBPM fuel sampleRate r = Some bpm ->
  globalParams w = gestures gs ->
  forall orb,
    In orb (fold_left (fun l e => updateParam i e l) edits [newOrb i buf bpm])
    ->
    (exists ratio, beat_ratio 4 (globalParams w) orb = Some ratio /\
                   0.75 <= ratio <= 1.5) /\
    exists w', scheduleGrain random 4 orb time lfoVal w = Some w'.
Proof.
  intros Hsr Hbpm Hg orb Horb.
  assert (Htempo : detectedBpm orb = Some (IZR bpm)).
  { assert (G : forall l,
               Forall (fun o => detectedBpm o = Some (IZR bpm)) l ->
               Forall (fun o => detectedBpm o = Some (IZR bpm))
                 (fold_left (fun l e => updateParam i e l) edits l)).
    { clear Horb.
      induction edits as [| e rest IH]; intros l Hl; cbn [fold_left].
      - exact Hl.
      - apply IH. unfold updateParam. apply List.Forall_forall.
        intros o Ho. apply in_map_iff in Ho. destruct Ho as (o0 & <- & Ho0).
        pose proof (proj1 (List.Forall_forall _ _) Hl o0 Ho0) as H0.
        destruct (String.eqb (id o0) i); exact H0. }
    refine (proj1 (List.Forall_forall _ _) (G _ _) orb Horb).
    constructor; [reflexivity | constructor]. }
  pose proof (detectBPM_value_range _ _ _ _ Hsr Hbpm) as [Hlo Hhi].
  apply IZR_le in Hlo, Hhi.
  destruct (gestures_range gs) as (_ & _ & _ & n & [Hn1 Hn2] & Hn).
  apply IZR_le in Hn1, Hn2. rewrite <- Hn, <- Hg in Hn1, Hn2.
  destruct (fold_ratio_four (masterBpm (globalParams w)) (IZR bpm))
    as (ratio & Hratio & Hrange); [lra | lra |].
  assert (Hbeat : exists ratio, beat_ratio 4 (globalParams w) orb = Some ratio
                                /\ 0.75 <= ratio <= 1.5).
  { unfold beat_ratio. rewrite Htempo.
    destruct (beatSync (globalParams w)); cbn [andb].
    - rewrite truthy_nonzero by lra. exists ratio. auto.
    - exists 1. split; [reflexivity | lra]. }
  split; [exact Hbeat |].
  destruct Hbeat as (ratio' & Hr' & _).
  exact (scheduleGrain_returns random 4 orb time lfoVal w ratio' Hr').
Qed.

End TempoRange.

Section TempoRangeWitness.

Import Engine Controls.
Local Open Scope R_scope.

Lemma app_tempos_fold_in_four_witness :
  (exists ratio,
      beat_ratio 4 (globalParams initial)
        (newOrb "pad" {| duration := 4 |} 160) = Some ratio /\
      0.75 <= ratio <= 1.5) /\
  exists w',
    scheduleGrain zero_random 4 (newOrb "pad" {| duration := 4 |} 160) 0 0
      initial = Some w'.
Proof.
  apply (app_tempos_fold_in_four zero_random [] 1 8000
           (Tempo.Rendered click_track) 160 "pad" {| duration := 4 |} []
           0 0 initial).
  - reflexivity.
  - exact click_track_bpm.
  - reflexivity.
  - left. reflexivity.
Defined.

End TempoRangeWitness.

(** ** Tempo estimator: peaks, the histogram and the octave *)

Section PeakFacts.

Import Tempo.
Local Open Scope Q_scope.

Lemma last_nil (peaks : list Z) : last peaks = None -> peaks = [].
Proof.
  destruct peaks as [| a rest]; [reflexivity |].
  intros H. exfalso. revert a H.
  induction rest as [| b r IH]; intros a H; [discriminate |].
  exact (IH b H).
Qed.

Lemma peaks_of_later (sampleRate : Q) (seen : list Q) (x : Q)
    (peaks : list Z) :
  Forall (fun p => (0 <= p < Z.of_nat (length seen))%Z /\
                   exists y, nth_error seen (Z.to_nat p) = Some y /\
                             threshold < y) peaks ->
  Forall (fun p => (0 <= p < Z.of_nat (length (seen ++ [x])))%Z /\
                   exists y, nth_error (seen ++ [x]) (Z.to_nat p) = Some y /\
                             threshold < y) peaks.
Proof.
  apply List.Forall_impl. intros p ([Hlo Hhi] & y & Hy & Hthr).
  rewrite length_app. cbn [length]. split; [lia |].
  exists y. split; [| exact Hthr].
  rewrite nth_error_app1 by lia. exact Hy.
Qed.

(** One turn of the peak loop keeps what has been established. *)
Lemma find_peaks_step (sampleRate : Q) (seen : list Q) (x : Q)
    (peaks : list Z) :
  peaks_of sampleRate seen peaks ->
  peaks_of sampleRate (seen ++ [x])
    (if Qltb threshold x then
       match last peaks with
       | None => peaks ++ [Z.of_nat (length seen)]
       | Some p =>
           if Qltb (minDistance sampleRate)
                (inject_Z (Z.of_nat (length seen) - p))
           then peaks ++ [Z.of_nat (length seen)] else peaks
       end
     else peaks).
Proof.
  intros (Hin & Hgap & Hnone).
  pose proof (peaks_of_later sampleRate seen x peaks Hin) as Hin'.
  assert (Hnew : (0 <= Z.of_nat (length seen)
                  < Z.of_nat (length (seen ++ [x])))%Z /\
                 (threshold < x ->
                  exists y, nth_error (seen ++ [x])
                              (Z.to_nat (Z.of_nat (length seen))) = Some y /\
                            threshold < y)).
  { rewrite length_app. cbn [length]. split; [lia |].
    intros Hx. exists x. split; [| exact Hx].
    rewrite Nat2Z.id, nth_error_app2 by lia.
    rewrite Nat.sub_diag. reflexivity. }
  destruct Hnew as [Hrange Hsample].
  assert (Hloud : threshold < x ->
                  ~ Forall (fun y => y <= threshold) (seen ++ [x])).
  { intros Hx HF. apply Forall_app in HF. destruct HF as [_ HF].
    inversion HF; subst. lra. }
  destruct (Qltb threshold x) eqn:Ex.
  - apply Qltb_true in Ex. specialize (Hsample Ex). specialize (Hloud Ex).
    assert (Hpush : peaks_of sampleRate (seen ++ [x])
                      (peaks ++ [Z.of_nat (length seen)]) \/ True)
      by (right; exact I).
    destruct (last peaks) as [p |] eqn:El.
    + destruct (Qltb (minDistance sampleRate)
                  (inject_Z (Z.of_nat (length seen) - p))) eqn:Ed.
      * apply Qltb_true in Ed. split; [| split].
        -- apply Forall_app. split; [exact Hin' |].
           constructor; [split; assumption | constructor].
        -- rewrite (intervals_of_snoc _ _ _ El).
           apply Forall_app. split; [exact Hgap |].
           constructor; [exact Ed | constructor].
        -- split; [intros H; destruct peaks; discriminate H |].
           intros HF. exfalso. exact (Hloud HF).
      * split; [exact Hin' | split; [exact Hgap |]].
        split; [intros ->; discriminate El |].
        intros HF. exfalso. exact (Hloud HF).
    + apply last_nil in El. subst peaks. cbn [app].
      split; [| split].
      * constructor; [split; assumption | constructor].
      * constructor.
      * split; [discriminate |].
        intros HF. exfalso. exact (Hloud HF).
  - apply Qltb_false in Ex.
    split; [exact Hin' | split; [exact Hgap |]].
    rewrite Hnone. split.
    + intros HF. apply Forall_app. split; [exact HF |].
      constructor; [exact Ex | constructor].
    + intros HF. apply Forall_app in HF. tauto.
Qed.

Lemma find_peaks_keeps (sampleRate : Q) (data : list Q) :
  forall (seen : list Q) (peaks : list Z),
    peaks_of sampleRate seen peaks ->
    peaks_of sampleRate (seen ++ data)
      (find_peaks sampleRate data (Z.of_nat (length seen)) peaks).
Proof.
  induction data as [| x rest IH]; intros seen peaks H.
  - cbn [find_peaks]. rewrite app_nil_r. exact H.
  - cbn [find_peaks].
    replace (seen ++ x :: rest) with ((seen ++ [x]) ++ rest)
      by (rewrite <- app_assoc; reflexivity).
    replace (Z.of_nat (length seen) + 1)%Z
      with (Z.of_nat (length (seen ++ [x])))
      by (rewrite length_app; cbn [length]; lia).
    apply IH. apply find_peaks_step. exact H.
Qed.

(** X17.  The peaks [detectBPM] picks: every peak is the index of a
    sample above the 0.3 threshold, consecutive peaks are more than a
    quarter of a second of samples apart, and there is no peak exactly when
    no sample exceeds the threshold; for a sample rate that is not negative
    the peaks are therefore in strictly increasing order. *)
Theorem find_peaks_spaced (sampleRate : Q) (data : list Q) :
  let peaks := find_peaks sampleRate data 0%Z [] in
  Forall (fun p => (0 <= p < Z.of_nat (length data))%Z /\
                   exists x, nth_error data (Z.to_nat p) = Some x /\
                             threshold < x) peaks /\
  Forall (fun d => (1 # 4) * sampleRate < inject_Z d) (intervals_of peaks) /\
  (peaks = [] <-> Forall (fun x => x <= threshold) data) /\
  (0 <= sampleRate -> Forall (fun d => (0 < d)%Z) (intervals_of peaks)).
Proof.
  cbv zeta.
  assert (H0 : peaks_of sampleRate [] []).
  { split; [constructor | split; [constructor |]].
    split; [constructor | reflexivity]. }
  pose proof (find_peaks_keeps sampleRate data [] [] H0)
    as (Hin & Hgap & Hnone).
  cbn [app length Z.of_nat] in *.
  split; [exact Hin |]. split; [exact Hgap |]. split; [exact Hnone |].
  intros Hsr. revert Hgap. apply List.Forall_impl. intros d Hd.
  unfold minDistance in Hd.
  assert (Hd0 : inject_Z 0 < inject_Z d) by (change (inject_Z 0) with 0; lra).
  rewrite <- Zlt_Qlt in Hd0. exact Hd0.
Qed.

(** *** The histogram *)

Lemma hist_incr_ascending (key : Z) (h : Histogram) :
  ascending_keys h ->
  ascending_keys (hist_incr key h) /\
  forall b, (b < key)%Z -> Forall (fun k => (b < k)%Z) (map fst h) ->
            Forall (fun k => (b < k)%Z) (map fst (hist_incr key h)).
Proof.
  unfold ascending_keys.
  induction h as [| [k c] rest IH]; intros Hs; cbn [hist_incr].
  - split; [repeat constructor |].
    intros b Hb _. repeat constructor. exact Hb.
  - cbn [map fst] in Hs. apply StronglySorted_inv in Hs.
    destruct Hs as [Hrest Hk].
    destruct (IH Hrest) as [IHs IHb].
    destruct (key =? k)%Z eqn:E; [| destruct (key <? k)%Z eqn:E'].
    + split; [constructor; assumption |]. auto.
    + apply Z.ltb_lt in E'. split.
      * cbn [map fst]. constructor; [constructor; assumption |].
        constructor; [exact E' |].
        revert Hk. apply List.Forall_impl. intros; lia.
      * intros b Hb Hall. cbn [map fst]. constructor; assumption.
    + apply Z.eqb_neq in E. apply Z.ltb_ge in E'. split.
      * cbn [map fst]. constructor; [exact IHs |].
        apply IHb; [lia | exact Hk].
      * intros b Hb Hall. cbn [map fst] in *.
        inversion Hall; subst.
        constructor; [assumption |]. apply IHb; assumption.
Qed.

Lemma hist_get_above (k : Z) (h : Histogram) :
  Forall (fun k' => (k < k')%Z) (map fst h) -> hist_get k h = 0%nat.
Proof.
  induction h as [| [k' c] rest IH]; cbn; intros H; [reflexivity |].
  inversion H; subst. rewrite (proj2 (Z.eqb_neq k k')) by lia. auto.
Qed.

(** Incrementing a key raises its count by one and no other. *)
Lemma hist_incr_get (k key : Z) (h : Histogram) :
  ascending_keys h ->
  hist_get k (hist_incr key h)
  = (hist_get k h + if (k =? key)%Z then 1 else 0)%nat.
Proof.
  unfold ascending_keys.
  induction h as [| [k' c] rest IH]; intros Hs; cbn [hist_incr hist_get].
  - destruct (k =? key)%Z; reflexivity.
  - cbn [map fst] in Hs. apply StronglySorted_inv in Hs.
    destruct Hs as [Hrest Hk'].
    destruct (key =? k')%Z eqn:E; [| destruct (key <? k')%Z eqn:E'].
    + apply Z.eqb_eq in E. subst k'. cbn [hist_get].
      destruct (k =? key)%Z; lia.
    + apply Z.ltb_lt in E'. apply Z.eqb_neq in E. cbn [hist_get].
      destruct (k =? key)%Z eqn:Ek.
      * apply Z.eqb_eq in Ek. subst k.
        rewrite (proj2 (Z.eqb_neq key k')) by exact E.
        rewrite hist_get_above; [reflexivity |].
        revert Hk'. apply List.Forall_impl. intros; lia.
      * lia.
    + apply Z.eqb_neq in E. apply Z.ltb_ge in E'. cbn [hist_get].
      destruct (k =? k')%Z eqn:Ek.
      * apply Z.eqb_eq in Ek. subst k'.
        rewrite (proj2 (Z.eqb_neq k key)) by congruence. lia.
      * apply IH. exact Hrest.
Qed.

Lemma hist_incr_counts (key : Z) (h : Histogram) :
  Forall (fun kc => (1 <= snd kc)%nat) h ->
  Forall (fun kc => (1 <= snd kc)%nat) (hist_incr key h).
Proof.
  induction h as [| [k c] rest IH]; intros H; cbn [hist_incr].
  - repeat constructor.
  - inversion H; subst. cbn [snd] in *.
    destruct (key =? k)%Z; [constructor; [cbn; lia | assumption] |].
    destruct (key <? k)%Z.
    + constructor; [cbn; lia | exact H].
    + constructor; [assumption | auto].
Qed.

(** The histogram the intervals build: ascending keys, no empty bucket,
    and under each key the number of intervals that round to it. *)
Lemma build_histogram_counts (intervals : list Z) :
  let h := build_histogram intervals in
  ascending_keys h /\ Forall (fun kc => (1 <= snd kc)%nat) h /\
  forall k, hist_get k h = count_bucket k intervals.
Proof.
  unfold build_histogram, count_bucket.
  assert (G : forall h0,
             ascending_keys h0 ->
             Forall (fun kc => (1 <= snd kc)%nat) h0 ->
             let h := fold_left (fun h i => hist_incr (bucket i) h)
                        intervals h0 in
             ascending_keys h /\ Forall (fun kc => (1 <= snd kc)%nat) h /\
             forall k, hist_get k h
                       = (hist_get k h0
                          + length (List.filter
                                      (fun d => (bucket d =? k)%Z)
                                      intervals))%nat).
  { induction intervals as [| d rest IH]; intros h0 Hs Hc; cbn [fold_left].
    - cbv zeta. split; [exact Hs | split; [exact Hc |]].
      intros k. cbn. lia.
    - destruct (IH (hist_incr (bucket d) h0)) as (Hs' & Hc' & Hget).
      + apply hist_incr_ascending. exact Hs.
      + apply hist_incr_counts. exact Hc.
      + cbv zeta in *. split; [exact Hs' | split; [exact Hc' |]].
        intros k. rewrite Hget, hist_incr_get by exact Hs.
        cbn [List.filter]. rewrite (Z.eqb_sym (bucket d) k).
        destruct (k =? bucket d)%Z; cbn [length]; lia. }
  destruct (G []) as (Hs & Hc & Hget); [constructor | constructor |].
  cbv zeta in *. split; [exact Hs | split; [exact Hc |]].
  intros k. rewrite Hget. reflexivity.
Qed.

Lemma hist_get_In (k : Z) (c : nat) (h : Histogram) :
  ascending_keys h -> In (k, c) h -> hist_get k h = c.
Proof.
  unfold ascending_keys.
  induction h as [| [k' c'] rest IH]; intros Hs Hin; [destruct Hin |].
  cbn [map fst] in Hs. apply StronglySorted_inv in Hs.
  destruct Hs as [Hrest Hk']. cbn [hist_get].
  destruct Hin as [Heq | Hin].
  - injection Heq as -> ->. rewrite Z.eqb_refl. reflexivity.
  - assert (Hlt : (k' < k)%Z).
    { apply (proj1 (List.Forall_forall _ _) Hk').
      apply in_map_iff. exists (k, c). auto. }
    rewrite (proj2 (Z.eqb_neq k k')) by lia. auto.
Qed.

Lemma hist_get_pos (k : Z) (h : Histogram) :
  (0 < hist_get k h)%nat -> In (k, hist_get k h) h.
Proof.
  induction h as [| [k' c'] rest IH]; cbn [hist_get]; intros H; [lia |].
  destruct (k =? k')%Z eqn:E.
  - apply Z.eqb_eq in E. subst. left. reflexivity.
  - right. auto.
Qed.

(** The [for ... in] loop over an ascending histogram: either no count
    beats the running maximum, or the result is an entry with the largest
    count, the one with the smallest key among those. *)
Lemma pick_fold (h : Histogram) :
  ascending_keys h ->
  forall (a : Z) (n : nat),
    let res := fold_left
                 (fun (acc : Z * nat) (kc : Z * nat) =>
                    if (snd acc <? snd kc)%nat then kc else acc)
                 h (a, n) in
    (res = (a, n) /\ Forall (fun kc => (snd kc <= n)%nat) h) \/
    (In res h /\ (n < snd res)%nat /\
     Forall (fun kc => (snd kc <= snd res)%nat /\
                       (snd kc = snd res -> (fst res <= fst kc)%Z)) h).
Proof.
  unfold ascending_keys.
  induction h as [| [k c] rest IH]; intros Hs a n; cbn [fold_left].
  - left. split; [reflexivity | constructor].
  - cbn [map fst] in Hs. apply StronglySorted_inv in Hs.
    destruct Hs as [Hrest Hk]. cbn [snd fst].
    destruct (n <? c)%nat eqn:E.
    + apply Nat.ltb_lt in E. right.
      destruct (IH Hrest k c) as [[Hres Hall] | (Hin & Hlt & Hall)];
        cbv zeta in *.
      * rewrite Hres. cbn [fst snd].
        split; [left; reflexivity |]. split; [exact E |].
        constructor; [cbn [fst snd]; split; [lia | intros; lia] |].
        apply List.Forall_forall. intros [k1 c1] H1. cbn [fst snd].
        split; [exact (proj1 (List.Forall_forall _ _) Hall _ H1) |].
        intros _.
        assert (k < k1)%Z; [| lia].
        apply (proj1 (List.Forall_forall _ _) Hk).
        apply in_map_iff. exists (k1, c1). auto.
      * split; [right; exact Hin |]. split; [lia |].
        constructor; [cbn [fst snd]; split; [lia | intros; lia] | exact Hall].
    + apply Nat.ltb_ge in E.
      destruct (IH Hrest a n) as [[Hres Hall] | (Hin & Hlt & Hall)];
        cbv zeta in *.
      * left. split; [exact Hres |].
        constructor; [exact E | exact Hall].
      * right. split; [right; exact Hin |]. split; [exact Hlt |].
        constructor; [cbn [fst snd]; split; [lia | intros; lia] | exact Hall].
Qed.

(** X18.  The interval [detectBPM] settles on is the most common one:
    with the (positive) intervals between peaks rounded to the nearest
    thousand samples, the bucket it picks holds at least one interval and
    at least as many as any other bucket, and among the buckets with that
    many it is the smallest; it lies within 500 samples of one of the
    measured intervals. *)
Theorem pick_best_mode (intervals : list Z) :
  intervals <> [] ->
  Forall (fun d => (0 < d)%Z) intervals ->
  let best := pick_best (build_histogram intervals) (hd 0%Z intervals) in
  (1 <= count_bucket best intervals)%nat /\
  (forall k, (count_bucket k intervals <= count_bucket best intervals)%nat) /\
  (forall k, count_bucket k intervals = count_bucket best intervals ->
             (best <= k)%Z) /\
  exists d, In d intervals /\ best = bucket d /\
            (d - 500 < best <= d + 500)%Z.
Proof.
  intros Hne _. cbv zeta.
  destruct (build_histogram_counts intervals) as (Hs & Hc & Hget).
  cbv zeta in *. unfold pick_best.
  set (h := build_histogram intervals) in *.
  destruct (pick_fold h Hs (hd 0%Z intervals) 0%nat)
    as [[_ Hall] | (Hin & Hlt & Hall)]; cbv zeta in *.
  { exfalso. destruct intervals as [| d rest]; [congruence |].
    specialize (Hget (bucket d)). unfold count_bucket in Hget.
    cbn [List.filter] in Hget. rewrite Z.eqb_refl in Hget.
    cbn [length] in Hget.
    assert (Hpos : (0 < hist_get (bucket d) h)%nat) by lia.
    apply hist_get_pos in Hpos.
    pose proof (proj1 (List.Forall_forall _ _) Hall _ Hpos) as Hle.
    cbn [snd] in Hle. lia. }
  set (res := fold_left _ h _) in *.
  destruct res as [best c]. cbn [fst snd] in *.
  assert (Hbest : count_bucket best intervals = c).
  { rewrite <- Hget. apply hist_get_In; assumption. }
  rewrite Hbest.
  assert (Hcount : forall k, (count_bucket k intervals <= c)%nat /\
                             (count_bucket k intervals = c -> (best <= k)%Z)).
  { intros k. rewrite <- Hget.
    destruct (Nat.eq_dec (hist_get k h) 0%nat) as [H0 | H0].
    - rewrite H0. split; [lia | intros; lia].
    - assert (Hk : In (k, hist_get k h) h) by (apply hist_get_pos; lia).
      exact (proj1 (List.Forall_forall _ _) Hall _ Hk). }
  split; [lia |].
  split; [intros k; apply Hcount |].
  split; [intros k; apply Hcount |].
  assert (Hsome : exists d, In d intervals /\ bucket d = best).
  { assert (Hlen : (0 < count_bucket best intervals)%nat) by lia.
    unfold count_bucket in Hlen.
    destruct (List.filter (fun d => (bucket d =? best)%Z) intervals)
      as [| d rest] eqn:Ef; [cbn in Hlen; lia |].
    assert (Hd : In d (List.filter (fun d => (bucket d =? best)%Z) intervals))
      by (rewrite Ef; left; reflexivity).
    apply List.filter_In in Hd. destruct Hd as [Hd Hb].
    apply Z.eqb_eq in Hb. exists d. auto. }
  destruct Hsome as (d & Hd & Hb).
  exists d. split; [exact Hd |]. split; [symmetry; exact Hb |].
  rewrite <- Hb. unfold bucket, js_round.
  set (q := inject_Z d / 1000 + (1 # 2)).
  pose proof (Qfloor_le q) as Hlo.
  pose proof (Qlt_floor q) as Hhi.
  rewrite inject_Z_plus in Hhi. change (inject_Z 1) with 1 in Hhi.
  assert (Hq : inject_Z d == (q - (1 # 2)) * 1000) by (unfold q; field).
  assert (Hup : inject_Z (Qfloor q * 1000) <= inject_Z (d + 500)).
  { rewrite inject_Z_mult, inject_Z_plus, Hq.
    change (inject_Z 1000) with 1000. change (inject_Z 500) with 500. lra. }
  assert (Hdown : inject_Z (d + -500) < inject_Z (Qfloor q * 1000)).
  { rewrite inject_Z_mult, inject_Z_plus, Hq.
    change (inject_Z 1000) with 1000. change (inject_Z (-500)) with (-500).
    lra. }
  rewrite <- Zle_Qle in Hup. rewrite <- Zlt_Qlt in Hdown. lia.
Qed.

(** *** The octave loops *)

Lemma double_until_spec (fuel : nat) :
  forall x y : Q,
    double_until fuel x = Some y ->
    70 <= y /\ (x < 70 -> y < 140) /\ (70 <= x -> y = x) /\
    exists n, y == x * pow2 n.
Proof.
  induction fuel as [| fuel IH]; intros x y H; cbn [double_until] in H;
    destruct (Qltb x 70) eqn:E; try discriminate.
  - apply Qltb_false in E. injection H as <-.
    split; [exact E |]. split; [intros; lra |]. split; [reflexivity |].
    exists 0%nat. rewrite pow2_0. lra.
  - apply Qltb_true in E.
    destruct (IH _ _ H) as (H70 & Hup & Hsame & n & Hn).
    split; [exact H70 |]. split; [| split; [intros; lra |]].
    + intros _. destruct (Qlt_le_dec (x * 2) 70) as [H2 | H2].
      * auto.
      * rewrite (Hsame H2). lra.
    + exists (S n). rewrite pow2_S, Hn. lra.
  - apply Qltb_false in E. injection H as <-.
    split; [exact E |]. split; [intros; lra |]. split; [reflexivity |].
    exists 0%nat. rewrite pow2_0. lra.
Qed.

Lemma halve_until_spec (fuel : nat) :
  forall x y : Q,
    halve_until fuel x = Some y ->
    y <= 180 /\ (180 < x -> 90 < y) /\ (x <= 180 -> y = x) /\
    exists n, y == x / pow2 n.
Proof.
  induction fuel as [| fuel IH]; intros x y H; cbn [halve_until] in H;
    destruct (Qltb 180 x) eqn:E; try discriminate.
  - apply Qltb_false in E. injection H as <-.
    split; [exact E |]. split; [intros; lra |]. split; [reflexivity |].
    exists 0%nat. rewrite pow2_0. field.
  - apply Qltb_true in E.
    destruct (IH _ _ H) as (H180 & Hdown & Hsame & n & Hn).
    assert (Hhalf : x / 2 == x * (1 # 2)) by (unfold Qdiv; reflexivity).
    split; [exact H180 |]. split; [| split; [intros; lra |]].
    + intros _. destruct (Qlt_le_dec 180 (x / 2)) as [H2 | H2].
      * auto.
      * rewrite (Hsame H2). rewrite Hhalf. lra.
    + exists (S n). rewrite Hn, pow2_S.
      pose proof (pow2_pos n). field. lra.
  - apply Qltb_false in E. injection H as <-.
    split; [exact E |]. split; [intros; lra |]. split; [reflexivity |].
    exists 0%nat. rewrite pow2_0. field.
Qed.

(** X19.  The tempo [detectBPM] returns is the tempo of the chosen
    interval moved by whole octaves: with at least two peaks and a chosen
    interval that is not 0, the result is the rounding of a value in
    [70, 180] that is the raw tempo times or divided by a power of two;
    a raw tempo already in [70, 180] is rounded as it is. *)
Theorem detectBPM_octave (fuel : nat) (sampleRate : Q) (data : list Q)
    (v : Z) :
  (2 <= length (find_peaks sampleRate data 0%Z []))%nat ->
  best_interval sampleRate data <> 0%Z ->
  detectBPM fuel sampleRate (Rendered data) = Some v ->
  exists (n : nat) (final : Q),
    (final == raw_bpm sampleRate data * pow2 n \/
     final == raw_bpm sampleRate data / pow2 n) /\
    70 <= final <= 180 /\
    v = js_round final /\
    (70 <= raw_bpm sampleRate data <= 180 ->
     v = js_round (raw_bpm sampleRate data)).
Proof.
  intros Hpeaks Hbest H. unfold detectBPM, analyse in H.
  rewrite (proj2 (Nat.ltb_ge _ _) Hpeaks) in H.
  fold (best_interval sampleRate data) in H.
  rewrite (proj2 (Z.eqb_neq _ _) Hbest) in H.
  fold (raw_bpm sampleRate data) in H.
  set (raw := raw_bpm sampleRate data) in *.
  destruct (double_until fuel raw) as [up |] eqn:Eup; [| discriminate].
  destruct (halve_until fuel up) as [fin |] eqn:Efin; [| discriminate].
  destruct (double_until_spec _ _ _ Eup) as (Hup70 & Hup140 & Hupsame & n & Hn).
  destruct (halve_until_spec _ _ _ Efin)
    as (Hfin180 & Hfin90 & Hfinsame & m & Hm).
  assert (Hfin70 : 70 <= fin).
  { destruct (Qlt_le_dec 180 up) as [Hgt | Hle].
    - specialize (Hfin90 Hgt). lra.
    - rewrite (Hfinsame Hle). exact Hup70. }
  destruct (js_round_range fin Hfin70 Hfin180) as [Hlo Hhi].
  assert (Hv : v = js_round fin).
  { destruct (js_round fin =? 0)%Z eqn:E0.
    - apply Z.eqb_eq in E0. lia.
    - injection H as <-. reflexivity. }
  destruct (Qlt_le_dec raw 70) as [Hlow | Hhigh].
  - (* doubled: the halving loop does not run *)
    specialize (Hup140 Hlow).
    assert (Hsame : fin = up) by (apply Hfinsame; lra). subst fin.
    exists n, up. split; [left; exact Hn |].
    split; [split; assumption |]. split; [exact Hv |].
    intros [Hr _]. lra.
  - (* not doubled *)
    assert (Hsame : up = raw) by (apply Hupsame; exact Hhigh). subst up.
    exists m, fin. split; [right; exact Hm |].
    split; [split; assumption |]. split; [exact Hv |].
    intros [_ Hr]. rewrite Hv, (Hfinsame Hr). reflexivity.
Qed.

End PeakFacts.

Section PeakWitnesses.

Import Tempo.
Local Open Scope Q_scope.

Lemma pick_best_mode_witness :
  let best := pick_best (build_histogram [3000; 3000; 5000]%Z)
                (hd 0%Z [3000; 3000; 5000]%Z) in
  (1 <= count_bucket best [3000; 3000; 5000]%Z)%nat /\
  (forall k, (count_bucket k [3000; 3000; 5000]%Z
              <= count_bucket best [3000; 3000; 5000]%Z)%nat) /\
  (forall k, count_bucket k [3000; 3000; 5000]%Z
             = count_bucket best [3000; 3000; 5000]%Z ->
             (best <= k)%Z) /\
  exists d, In d [3000; 3000; 5000]%Z /\ best = bucket d /\
            (d - 500 < best <= d + 500)%Z.
Proof.
  apply (pick_best_mode [3000; 3000; 5000]%Z).
  - discriminate.
  - repeat constructor.
Defined.

Lemma detectBPM_octave_witness :
  exists (n : nat) (final : Q),
    (final == raw_bpm 2000 click_track * pow2 n \/
     final == raw_bpm 2000 click_track / pow2 n) /\
    70 <= final <= 180 /\
    80%Z = js_round final /\
    (70 <= raw_bpm 2000 click_track <= 180 ->
     80%Z = js_round (raw_bpm 2000 click_track)).
Proof.
  apply (detectBPM_octave 1 2000 click_track 80).
  - vm_compute. lia.
  - vm_compute. discriminate.
  - exact slow_clicks_are_doubled.
Defined.

End PeakWitnesses.

(** ** Scheduler: the free-run step *)

Section FreeRunFacts.

Import Engine.
Local Open Scope R_scope.

Variable random : nat -> R.
Hypothesis random_range : forall n, 0 <= random n < 1.

(** X20.  Without beat sync and outside a STUTTER burst the cursor
    advances by the density interval plus a jitter of at most 5 ms either
    way; the 5 ms floor of the code never binds, and the step lies between
    5 ms and 505 ms: one orb starts between 2 and 200 grains a second. *)
Theorem free_run_step (e : R) (w : Engine) :
  stuttering w = false ->
  beatSync (globalParams w) = false ->
  let interval := free_run_interval (Rmax 0.01 (Rmin 1.0 e)) in
  fst (advance random e w) = interval + (random (rng w) - 0.5) * 0.01 /\
  interval - 0.005 <= fst (advance random e w) < interval + 0.005 /\
  0.005 <= fst (advance random e w) < 0.505.
Proof.
  intros Hst Hsync. cbv zeta. unfold advance, draw. rewrite Hst, Hsync.
  cbn [fst].
  pose proof (random_range (rng w)) as Hr.
  pose proof (clamped_density_range e) as Hd.
  set (d := Rmax 0.01 (Rmin 1.0 e)) in *.
  assert (Hs : 0 <= sqrt d <= 1) by (apply sqrt_unit_range; lra).
  assert (Hi : 0.01 <= free_run_interval d <= 0.5).
  { unfold free_run_interval. cbv zeta. lra. }
  rewrite Rmax_right by lra.
  split; [reflexivity |]. split; lra.
Qed.

End FreeRunFacts.

Section FreeRunWitness.

Import Engine.
Local Open Scope R_scope.

Lemma free_run_step_witness :
  let interval := free_run_interval (Rmax 0.01 (Rmin 1.0 0.5)) in
  fst (advance zero_random 0.5 pad_world)
  = interval + (zero_random (rng pad_world) - 0.5) * 0.01 /\
  interval - 0.005 <= fst (advance zero_random 0.5 pad_world)
  < interval + 0.005 /\
  0.005 <= fst (advance zero_random 0.5 pad_world) < 0.505.
Proof.
  apply (free_run_step zero_random zero_random_range 0.5 pad_world);
    reflexivity.
Defined.

End FreeRunWitness.

(** ** Starting the scheduler *)

Section TransportFacts.

Import Transport.

Lemma clearInterval_own (h : positive) : clearInterval h [h] = [].
Proof. unfold clearInterval. cbn. rewrite Pos.eqb_refl. reflexivity. Qed.

Lemma startScheduler_one_timer (t : Transport) :
  isPlaying t = true ->
  (match schedulerInterval t with
   | Some h => timers t = [h]
   | None => timers t = []
   end) ->
  one_timer (startScheduler t).
Proof.
  intros Hp Ht. unfold one_timer, startScheduler. cbn.
  destruct (schedulerInterval t) as [h |]; rewrite Ht.
  - rewrite clearInterval_own. cbn. repeat split; [exact Hp | lia].
  - cbn. repeat split; [exact Hp | lia].
Qed.

Lemma resume_one_timer (t : Transport) :
  one_timer t -> one_timer (resume t) /\ isPlaying (resume t) = true.
Proof.
  unfold one_timer at 1. unfold resume. intros H.
  destruct (schedulerInterval t) as [h |] eqn:Eh.
  - destruct H as (Ht & Hp & Hf). rewrite Hp. cbn [negb].
    split; [| exact Hp]. unfold one_timer. rewrite Eh. auto.
  - destruct H as (Ht & Hp). rewrite Hp. cbn [negb].
    split; [| reflexivity].
    apply startScheduler_one_timer; [reflexivity |].
    cbn. exact Ht.
Qed.

(** X21.  However often [resume] is called, the engine runs one
    scheduler timer and no more: after the first call that gets past its
    [await] there is exactly one interval timer set, the engine holds its
    handle and is playing, and every later call leaves the transport as it
    is. *)
Theorem resume_starts_once (n : nat) :
  let t := Nat.iter (S n) resume initial in
  isPlaying t = true /\
  (exists h, schedulerInterval t = Some h /\ timers t = [h]) /\
  resume t = t.
Proof.
  cbv zeta.
  assert (G : forall k, one_timer (Nat.iter k resume initial) /\
                        (0 < k -> isPlaying (Nat.iter k resume initial)
                                  = true)).
  { induction k as [| k [IH _]].
    - cbn. split; [split; reflexivity | lia].
    - cbn [Nat.iter]. destruct (resume_one_timer _ IH) as [H1 H2].
      split; [exact H1 | intros _; exact H2]. }
  destruct (G (S n)) as [Hone Hplay]. specialize (Hplay (Nat.lt_0_succ n)).
  split; [exact Hplay |]. split.
  - unfold one_timer in Hone.
    destruct (schedulerInterval (Nat.iter (S n) resume initial)) as [h |].
    + exists h. split; [reflexivity | tauto].
    + destruct Hone as [_ Hfalse]. congruence.
  - unfold resume at 1. rewrite Hplay. reflexivity.
Qed.

End TransportFacts.
